(** * Bubble shooter: hexagonal grid, flood fill and floating-cluster cleanup

    A shallow embedding of the bubble-shooter script
    ([src/json_printer/script.js], the document that starts with
    [const canvas = document.getElementById("game")]).

    Conventions of the embedding.
    - JavaScript numbers that hold pixel coordinates, angles and times are
      modelled as real numbers ([R]); row and column indices and the score,
      which only ever hold integers, are modelled as [Z].
    - [Math.round x] is [Zfloor (x + 1/2)] (JavaScript rounds halves up).
    - [a % 2] on integers is [Z.rem a 2]; a JavaScript condition [a % 2 ? x : y]
      takes [x] exactly when the remainder is not zero.
    - The canvas size comes from the page, which is not part of the script:
      [CANVAS_WIDTH] and [CANVAS_HEIGHT] are section variables.
    - Drawing and the DOM score read-out are not modelled.

    The two other scripts of the file, the answer printer and the marble
    game, are embedded after the bubble shooter, each in a module of its
    own, with its conventions stated there. *)

From Stdlib Require Import Reals Lra Lia ZArith List Bool.
From stdpp Require Import base decidable list gmap strings.

Open Scope Z_scope.

(** ** Numbers *)

Definition Math_round (x : R) : Z := Zfloor (x + / 2).

#[global] Instance Rle_decision (a b : R) : Decision (a <= b)%R := Rle_dec a b.
#[global] Instance Rlt_decision (a b : R) : Decision (a < b)%R := Rlt_dec a b.
#[global] Instance Rge_decision (a b : R) : Decision (a >= b)%R := Rge_dec a b.
#[global] Instance Rgt_decision (a b : R) : Decision (a > b)%R := Rgt_dec a b.
#[global] Instance Req_decision : EqDecision R := Req_dec_T.

Definition Math_max (a b : R) : R := if decide (a <= b)%R then b else a.
Definition Math_min (a b : R) : R := if decide (a <= b)%R then a else b.

(** [Math.atan2(y, x)], signed zeros apart. *)
Definition Math_atan2 (y x : R) : R :=
  if decide (0 < x)%R then atan (y / x)
  else if decide (x < 0)%R then
    (if decide (0 <= y)%R then atan (y / x) + PI else atan (y / x) - PI)%R
  else if decide (0 < y)%R then (PI / 2)%R
  else if decide (y < 0)%R then (- (PI / 2))%R
  else 0%R.

(** [clamp(value, min, max)] *)
Definition clamp (value min max : R) : R := Math_max min (Math_min value max).

(** [distance(x1, y1, x2, y2)] *)
Definition distance (x1 y1 x2 y2 : R) : R :=
  let dx := (x1 - x2)%R in
  let dy := (y1 - y2)%R in
  sqrt (dx * dx + dy * dy).

(** The truth value of [n % 2] for an integer [n]. *)
Definition odd_js (n : Z) : bool := negb (Z.rem n 2 =? 0).


(** ** Constants *)

Definition BUBBLE_RADIUS : R := 16.
Definition BUBBLE_DIAMETER : R := BUBBLE_RADIUS * 2.
Definition VERTICAL_SPACING : R := sqrt 3 * BUBBLE_RADIUS.
Definition COLUMNS : Z := 14.
Definition TOP_MARGIN : R := 80.
Definition LAUNCH_SPEED : R := 460.
Definition POINTER_MIN : R := 20 * (PI / 180).
Definition POINTER_MAX : R := 160 * (PI / 180).
Definition COLORS : list string :=
  ["#ff6b6b"; "#f7b801"; "#8ac926"; "#1982c4"; "#6a4c93"; "#ff9770"]%string.

(** ** Results of a call

    A call either returns a value together with the new state, or throws a
    [TypeError] (reading a property of [undefined]); [OutOfFuel] is an
    artefact of the embedding: the two [while] loops are run with a bound on
    the number of iterations, which is shown below to be never reached. *)

Inductive result (S A : Type) : Type :=
| Ok (a : A) (s : S)
| TypeError
| OutOfFuel.

Arguments Ok {S A} a s.
Arguments TypeError {S A}.
Arguments OutOfFuel {S A}.

Definition M (S A : Type) : Type := S -> result S A.

Definition ret {S A : Type} (a : A) : M S A := fun s => Ok a s.

Definition bind {S A B : Type} (m : M S A) (k : A -> M S B) : M S B :=
  fun s =>
    match m s with
    | Ok a s' => k a s'
    | TypeError => TypeError
    | OutOfFuel => OutOfFuel
    end.

Notation "'let*' x ':=' m 'in' k" := (bind m (fun x => k))
  (at level 10, x pattern, m at level 100, k at level 200, only parsing).

(** ** Data *)

(** A bubble stored in the grid: [{ row, col, x, y, color }]. *)
Module GridBubble.
Record t : Type := make { row : Z; col : Z; x : R; y : R; color : string }.
End GridBubble.

(** The bubble in the shooter: [{ x, y, color, dx, dy, active }]. *)
Module ShooterBubble.
Record t : Type :=
  make { x : R; y : R; color : string; dx : R; dy : R; active : bool }.
End ShooterBubble.

(** The bubble in flight: [{ x, y, color, dx, dy }]. *)
Module MovingBubble.
Record t : Type := make { x : R; y : R; color : string; dx : R; dy : R }.
End MovingBubble.

(** A row is an array of [COLUMNS] entries, each [null] or a bubble; the grid
    is an array of rows, where an index that was never assigned is a hole
    ([None]). *)
Abbreviation Row := (list (option GridBubble.t)).
Abbreviation Grid := (list (option Row)).

(** A cell position [{ row, col }]; also the key [`${row},${col}`] of the
    [visited] and [connected] sets. *)
Abbreviation Cell := (Z * Z)%type.

(** [a[i] = v] on a JavaScript array: in range it overwrites, out of range it
    extends the array, leaving holes [d] in between. *)
Definition array_set {A : Type} (d : A) (i : nat) (v : A) (l : list A) : list A :=
  if (i <? length l)%nat then <[i := v]> l
  else l ++ replicate (i - length l) d ++ [v].

(** [grid[row]], [None] when it is [undefined]. *)
Definition grid_row (g : Grid) (row : Z) : option Row :=
  if row <? 0 then None
  else match g !! Z.to_nat row with
       | Some (Some r) => Some r
       | _ => None
       end.

(** [r[col]] for a row [r], [None] when it is [null] or [undefined]. *)
Definition row_col (r : Row) (col : Z) : option GridBubble.t :=
  if col <? 0 then None
  else match r !! Z.to_nat col with
       | Some (Some b) => Some b
       | _ => None
       end.

(** [grid[row][col]] as an expression: a [TypeError] when [grid[row]] is
    [undefined]. *)
Definition grid_get (row col : Z) : M Grid (option GridBubble.t) :=
  fun g =>
    match grid_row g row with
    | Some r => Ok (row_col r col) g
    | None => TypeError
    end.

(** [grid[row][col] = v]. No caller passes a negative column (that would
    set a property that is not an index); the embedding leaves the grid as it
    is there. *)
Definition grid_set (row col : Z) (v : option GridBubble.t) : M Grid unit :=
  fun g =>
    match grid_row g row with
    | Some r =>
        if col <? 0 then Ok tt g
        else Ok tt (<[Z.to_nat row := Some (array_set None (Z.to_nat col) v r)]> g)
    | None => TypeError
    end.

(** The bubbles met by
    [for (const row of grid) { if (!row) continue; for (const bubble of row) { if (!bubble) continue; ... } }],
    in the order of the iteration. *)
Definition grid_bubbles (g : Grid) : list GridBubble.t :=
  flat_map (fun r => match r with
                     | Some r => omap (fun b => b) r
                     | None => []
                     end) g.

(** The cell looked up without side effect: what [getBubble] returns. *)
Definition cell (g : Grid) (row col : Z) : option GridBubble.t :=
  if (col <? 0) || (col >=? COLUMNS) then None
  else match grid_row g row with
       | Some r => row_col r col
       | None => None
       end.

(** The global variables of the script. *)
Record Game : Type := mkGame {
  grid : Grid;
  pointerAngle : R;
  currentBubble : option ShooterBubble.t;
  nextBubble : option ShooterBubble.t;
  movingBubble : option MovingBubble.t;
  keys : gset string;
  lastTime : R;
  score : Z;
  gameOver : bool;
  message : string
}.

Definition set_grid (g : Grid) (st : Game) : Game :=
  mkGame g (pointerAngle st) (currentBubble st) (nextBubble st) (movingBubble st)
         (keys st) (lastTime st) (score st) (gameOver st) (message st).
Definition set_pointerAngle (a : R) (st : Game) : Game :=
  mkGame (grid st) a (currentBubble st) (nextBubble st) (movingBubble st)
         (keys st) (lastTime st) (score st) (gameOver st) (message st).
Definition set_currentBubble (b : option ShooterBubble.t) (st : Game) : Game :=
  mkGame (grid st) (pointerAngle st) b (nextBubble st) (movingBubble st)
         (keys st) (lastTime st) (score st) (gameOver st) (message st).
Definition set_nextBubble (b : option ShooterBubble.t) (st : Game) : Game :=
  mkGame (grid st) (pointerAngle st) (currentBubble st) b (movingBubble st)
         (keys st) (lastTime st) (score st) (gameOver st) (message st).
Definition set_movingBubble (b : option MovingBubble.t) (st : Game) : Game :=
  mkGame (grid st) (pointerAngle st) (currentBubble st) (nextBubble st) b
         (keys st) (lastTime st) (score st) (gameOver st) (message st).
Definition set_keys (k : gset string) (st : Game) : Game :=
  mkGame (grid st) (pointerAngle st) (currentBubble st) (nextBubble st) (movingBubble st)
         k (lastTime st) (score st) (gameOver st) (message st).
Definition set_lastTime (t : R) (st : Game) : Game :=
  mkGame (grid st) (pointerAngle st) (currentBubble st) (nextBubble st) (movingBubble st)
         (keys st) t (score st) (gameOver st) (message st).
Definition set_score (n : Z) (st : Game) : Game :=
  mkGame (grid st) (pointerAngle st) (currentBubble st) (nextBubble st) (movingBubble st)
         (keys st) (lastTime st) n (gameOver st) (message st).

(** A function on the grid alone, run on the [grid] variable of the game. *)
Definition on_grid {A : Type} (m : M Grid A) : M Game A :=
  fun st =>
    match m (grid st) with
    | Ok a g => Ok a (set_grid g st)
    | TypeError => TypeError
    | OutOfFuel => OutOfFuel
    end.

(** What the user and the browser do to the page. [x] and [y] of the pointer
    events are [clientX - rect.left] and [clientY - rect.top]. The values that
    [Math.random()] returns during the handling of an event come with the
    event. *)
Inductive Event : Type :=
| Frame (timestamp : R) (rnd : R)
| KeyDown (key : string) (repeat : bool) (rnd : nat -> R)
| KeyUp (key : string)
| MouseMove (x y : R)
| Click
| TouchStart (x y : R)
| TouchMove (x y : R).

Section Script.

Variables CANVAS_WIDTH CANVAS_HEIGHT : R.

Definition SHOOTER_Y : R := CANVAS_HEIGHT - 70.
Definition LEFT_OFFSET : R := (CANVAS_WIDTH - IZR COLUMNS * BUBBLE_DIAMETER) / 2.

(** [gridToPixel(row, col)] returns the pair [(x, y)]. *)
Definition gridToPixel (row col : Z) : R * R :=
  let offset := if odd_js row then BUBBLE_RADIUS else 0%R in
  let x := (LEFT_OFFSET + IZR col * BUBBLE_DIAMETER + BUBBLE_RADIUS + offset)%R in
  let y := (TOP_MARGIN + IZR row * VERTICAL_SPACING + BUBBLE_RADIUS)%R in
  (x, y).

(** [pixelToGrid(x, y)] returns the pair [(row, col)]. *)
Definition pixelToGrid (x y : R) : Z * Z :=
  let row := Z.max 0 (Math_round ((y - TOP_MARGIN) / VERTICAL_SPACING)) in
  let offset := if odd_js row then BUBBLE_RADIUS else 0%R in
  let col := Z.max 0 (Math_round ((x - LEFT_OFFSET - offset) / BUBBLE_DIAMETER)) in
  (row, Z.min col (COLUMNS - 1)).


(** *** The grid *)

(** [ensureRow(row)]. Every caller passes [row >= 0]; for a negative [row]
    the script would set a property that is not an index, which neither
    the length nor any iteration sees, and the embedding leaves the grid
    as it is. *)
Definition ensureRow (row : Z) : M Grid unit :=
  fun g =>
    match grid_row g row with
    | Some _ => Ok tt g
    | None =>
        if row <? 0 then Ok tt g
        else Ok tt (array_set None (Z.to_nat row)
                              (Some (replicate (Z.to_nat COLUMNS) None)) g)
    end.

(** [makeGridBubble(row, col, color)] *)
Definition makeGridBubble (row col : Z) (color : string) : GridBubble.t :=
  let '(x, y) := gridToPixel row col in
  GridBubble.make row col x y color.

(** [getBubble(row, col)] *)
Definition getBubble (row col : Z) : M Grid (option GridBubble.t) :=
  fun g =>
    if (row <? 0) || (col <? 0) || (row >=? Z.of_nat (length g)) || (col >=? COLUMNS)
    then Ok None g
    else (let* _ := ensureRow row in grid_get row col) g.

Definition offsetsEven : list (Z * Z) :=
  [(-1, 0); (-1, -1); (0, -1); (0, 1); (1, 0); (1, -1)].
Definition offsetsOdd : list (Z * Z) :=
  [(-1, 0); (-1, 1); (0, -1); (0, 1); (1, 0); (1, 1)].

(** The [for (const offset of offsets)] loop of [getNeighbors]. *)
Fixpoint getNeighbors_loop (row col : Z) (offsets : list (Z * Z))
         (neighbors : list Cell) : M Grid (list Cell) :=
  match offsets with
  | [] => ret neighbors
  | offset :: rest =>
      let nr := row + fst offset in
      let nc := col + snd offset in
      if (nr <? 0) || (nc <? 0) || (nc >=? COLUMNS)
      then getNeighbors_loop row col rest neighbors
      else
        let* _ := ensureRow nr in
        getNeighbors_loop row col rest (neighbors ++ [(nr, nc)])
  end.

(** [getNeighbors(row, col)] *)
Definition getNeighbors (row col : Z) : M Grid (list Cell) :=
  let offsets := if odd_js row then offsetsOdd else offsetsEven in
  getNeighbors_loop row col offsets [].

(** The [while (stack.length)] loop of [collectCluster]. The head of the
    list [stack] is the last element of the array, the one [pop] takes;
    pushing the neighbours one after the other leaves the last of them on
    top. *)
Fixpoint collectCluster_loop (fuel : nat) (color : string) (visited : gset Cell)
         (stack : list Cell) (matched : list GridBubble.t)
  : M Grid (list GridBubble.t) :=
  match fuel with
  | O => fun _ => OutOfFuel
  | S fuel =>
      match stack with
      | [] => ret matched
      | current :: stack =>
          if decide (current ∈ visited)
          then collectCluster_loop fuel color visited stack matched
          else
            let visited := {[current]} ∪ visited in
            let* bubble := getBubble (fst current) (snd current) in
            match bubble with
            | None => collectCluster_loop fuel color visited stack matched
            | Some bubble =>
                if negb (String.eqb (GridBubble.color bubble) color)
                then collectCluster_loop fuel color visited stack matched
                else
                  let* neighbors := getNeighbors (fst current) (snd current) in
                  collectCluster_loop fuel color visited
                                      (reverse neighbors ++ stack)
                                      (matched ++ [bubble])
            end
      end
  end.

(** A bound on the iterations of the loops over a grid of this size. *)
Definition fuel_for (g : Grid) : nat :=
  S (S (6 * (length g * Z.to_nat COLUMNS))).

(** [collectCluster(row, col, color)] *)
Definition collectCluster (row col : Z) (color : string)
  : M Grid (list GridBubble.t) :=
  fun g => collectCluster_loop (fuel_for g) color ∅ [(row, col)] [] g.

(** [removeCluster(cluster)] *)
Fixpoint removeCluster (cluster : list GridBubble.t) : M Grid unit :=
  match cluster with
  | [] => ret tt
  | bubble :: rest =>
      fun g =>
        match grid_row g (GridBubble.row bubble) with
        | Some _ =>
            (let* _ := grid_set (GridBubble.row bubble) (GridBubble.col bubble) None in
             removeCluster rest) g
        | None => removeCluster rest g
        end
  end.

(** [resolveMatches(row, col)] *)
Definition resolveMatches (row col : Z) : M Game unit :=
  let* origin := on_grid (grid_get row col) in
  match origin with
  | None => ret tt
  | Some origin =>
      let* cluster := on_grid (collectCluster row col (GridBubble.color origin)) in
      if (3 <=? Z.of_nat (length cluster))
      then
        let* _ := on_grid (removeCluster cluster) in
        fun st => Ok tt (set_score (score st + Z.of_nat (length cluster) * 100) st)
      else ret tt
  end.

(** The first loop of [checkForFloating], over the columns of row 0. *)
Fixpoint checkForFloating_seed (cols : list Z) (visited connected : gset Cell)
         (queue : list Cell) : M Grid (gset Cell * gset Cell * list Cell) :=
  match cols with
  | [] => ret (visited, connected, queue)
  | col :: rest =>
      let* bubble := getBubble 0 col in
      match bubble with
      | Some _ =>
          checkForFloating_seed rest ({[(0, col)]} ∪ visited)
                                ({[(0, col)]} ∪ connected) (queue ++ [(0, col)])
      | None => checkForFloating_seed rest visited connected queue
      end
  end.

(** The [for (const neighbor of getNeighbors(...))] loop inside the
    [while] loop of [checkForFloating]. *)
Fixpoint checkForFloating_visit (neighbors : list Cell) (visited connected : gset Cell)
         (queue : list Cell) : M Grid (gset Cell * gset Cell * list Cell) :=
  match neighbors with
  | [] => ret (visited, connected, queue)
  | neighbor :: rest =>
      if decide (neighbor ∈ visited)
      then checkForFloating_visit rest visited connected queue
      else
        let* bubble := getBubble (fst neighbor) (snd neighbor) in
        match bubble with
        | None => checkForFloating_visit rest visited connected queue
        | Some _ =>
            checkForFloating_visit rest ({[neighbor]} ∪ visited)
                                   ({[neighbor]} ∪ connected) (queue ++ [neighbor])
        end
  end.

(** The [while (queue.length)] loop of [checkForFloating]; the head of the
    list [queue] is the element [shift] takes. *)
Fixpoint checkForFloating_bfs (fuel : nat) (visited connected : gset Cell)
         (queue : list Cell) : M Grid (gset Cell) :=
  match fuel with
  | O => fun _ => OutOfFuel
  | S fuel =>
      match queue with
      | [] => ret connected
      | current :: queue =>
          let* neighbors := getNeighbors (fst current) (snd current) in
          let* (visited, connected, queue) :=
            checkForFloating_visit neighbors visited connected queue in
          checkForFloating_bfs fuel visited connected queue
      end
  end.

(** The inner loop of the sweep of [checkForFloating], over the columns of
    one row. *)
Fixpoint checkForFloating_sweep_cols (connected : gset Cell) (row : Z) (cols : list Z)
         (removed : Z) : M Grid Z :=
  match cols with
  | [] => ret removed
  | col :: rest =>
      let* bubble := grid_get row col in
      match bubble with
      | None => checkForFloating_sweep_cols connected row rest removed
      | Some _ =>
          if decide ((row, col) ∈ connected)
          then checkForFloating_sweep_cols connected row rest removed
          else
            let* _ := grid_set row col None in
            checkForFloating_sweep_cols connected row rest (removed + 1)
      end
  end.

(** The outer loop of the sweep, [for (let row = 0; row < grid.length; row++)].
    The body does not change [grid.length] ([ensureRow(row)] is called on a
    row below the length), so the rows are those below the length at the
    start of the loop. *)
Fixpoint checkForFloating_sweep_rows (connected : gset Cell) (rows : list Z)
         (removed : Z) : M Grid Z :=
  match rows with
  | [] => ret removed
  | row :: rest =>
      let* _ := ensureRow row in
      let* removed := checkForFloating_sweep_cols connected row (seqZ 0 COLUMNS) removed in
      checkForFloating_sweep_rows connected rest removed
  end.

Definition checkForFloating_sweep (connected : gset Cell) : M Grid Z :=
  fun g => checkForFloating_sweep_rows connected (seqZ 0 (Z.of_nat (length g))) 0 g.

(** [checkForFloating()] *)
Definition checkForFloating : M Game unit :=
  fun st =>
    if (length (grid st) =? 0)%nat then Ok tt st
    else
      (let* (visited, connected, queue) :=
         on_grid (checkForFloating_seed (seqZ 0 COLUMNS) ∅ ∅ []) in
       let* connected :=
         on_grid (checkForFloating_bfs (fuel_for (grid st)) visited connected queue) in
       let* removed := on_grid (checkForFloating_sweep connected) in
       if removed =? 0 then ret tt
       else fun st => Ok tt (set_score (score st + removed * 150) st)) st.

(** [isBoardEmpty()] *)
Definition isBoardEmpty (g : Grid) : bool :=
  match grid_bubbles g with
  | [] => true
  | _ :: _ => false
  end.

(** [hasReachedLimit()] *)
Definition hasReachedLimit (g : Grid) : bool :=
  existsb (fun bubble =>
             bool_decide (GridBubble.y bubble + BUBBLE_RADIUS >= SHOOTER_Y - 20)%R)
          (grid_bubbles g).

(** [getColorsInPlay()]: the colours in the order in which the set first
    received them. *)
Definition getColorsInPlay (g : Grid) : list string :=
  fold_left (fun colorSet bubble =>
               if decide (GridBubble.color bubble ∈ colorSet) then colorSet
               else colorSet ++ [GridBubble.color bubble])
            (grid_bubbles g) [].

(** [pool[Math.floor(rnd * pool.length)]], where [rnd] is the value of
    [Math.random()]; the string ["undefined"] stands for an index out of
    the array, which a value of [Math.random()] never gives. *)
Definition random_pick (pool : list string) (rnd : R) : string :=
  let i := Zfloor (rnd * IZR (Z.of_nat (length pool))) in
  if i <? 0 then "undefined"%string
  else nth (Z.to_nat i) pool "undefined"%string.

(** [createShooterBubble()] *)
Definition createShooterBubble (rnd : R) (g : Grid) : ShooterBubble.t :=
  let availableColors := getColorsInPlay g in
  let colorPool := match availableColors with
                   | [] => COLORS
                   | _ :: _ => availableColors
                   end in
  ShooterBubble.make (CANVAS_WIDTH / 2) SHOOTER_Y (random_pick colorPool rnd) 0 0 false.

(** *** Landing *)

(** The inner loop of [findClosestSlot], over the columns of one row;
    [best] is [{ row, col, dist }]. *)
Fixpoint findClosestSlot_cols (x y : R) (row : Z) (cols : list Z)
         (best : option (Z * Z * R)) : M Grid (option (Z * Z * R)) :=
  match cols with
  | [] => ret best
  | col :: rest =>
      let* bubble := grid_get row col in
      match bubble with
      | Some _ => findClosestSlot_cols x y row rest best
      | None =>
          let center := gridToPixel row col in
          let dist := distance (fst center) (snd center) x y in
          let best :=
            match best with
            | None => Some (row, col, dist)
            | Some (_, _, bdist) =>
                if decide (dist < bdist)%R then Some (row, col, dist) else best
            end in
          findClosestSlot_cols x y row rest best
      end
  end.

(** The outer loop of [findClosestSlot], over the rows. *)
Fixpoint findClosestSlot_rows (x y : R) (rows cols : list Z)
         (best : option (Z * Z * R)) : M Grid (option (Z * Z * R)) :=
  match rows with
  | [] => ret best
  | row :: rest =>
      let* _ := ensureRow row in
      let* best := findClosestSlot_cols x y row cols best in
      findClosestSlot_rows x y rest cols best
  end.

(** The loop over the neighbours at the end of [findClosestSlot]. *)
Fixpoint findClosestSlot_neighbors (approx : Cell) (neighbors : list Cell) : M Grid Cell :=
  match neighbors with
  | [] => ret approx
  | (nr, nc) :: rest =>
      let* _ := ensureRow nr in
      let* bubble := grid_get nr nc in
      match bubble with
      | None => ret (nr, nc)
      | Some _ => findClosestSlot_neighbors approx rest
      end
  end.

(** The rows and the columns that the two loops of [findClosestSlot] go
    through. *)
Definition slot_rows (approx : Cell) : list Z :=
  let lo := Z.max 0 (fst approx - 1) in
  seqZ lo (fst approx + 1 - lo + 1).
Definition slot_cols (approx : Cell) : list Z :=
  let lo := Z.max 0 (snd approx - 1) in
  seqZ lo (Z.min (COLUMNS - 1) (snd approx + 1) - lo + 1).

(** [findClosestSlot(x, y)] *)
Definition findClosestSlot (x y : R) : M Grid Cell :=
  let approx := pixelToGrid x y in
  let* best := findClosestSlot_rows x y (slot_rows approx) (slot_cols approx) None in
  match best with
  | None =>
      let '(row, col) := approx in
      let* _ := ensureRow row in
      let* bubble := grid_get row col in
      match bubble with
      | None => ret (row, col)
      | Some _ =>
          let* neighbors := getNeighbors (fst approx) (snd approx) in
          findClosestSlot_neighbors approx neighbors
      end
  | Some (row, col, _) => ret (row, col)
  end.

(** [endGame(clear)] *)
Definition endGame (clear : bool) (st : Game) : Game :=
  mkGame (grid st) (pointerAngle st) (currentBubble st) (nextBubble st)
         (movingBubble st) (keys st) (lastTime st) (score st) true
         (if clear then "모든 버블 제거!" else "버블이 바닥에 닿았습니다")%string.

(** [snapMovingBubble()], for the bubble [moving] in flight. *)
Definition snapMovingBubble (rnd : R) (moving : MovingBubble.t) : M Game unit :=
  let* (row, col) :=
    on_grid (findClosestSlot (MovingBubble.x moving) (MovingBubble.y moving)) in
  let* _ := on_grid (ensureRow row) in
  let bubble := makeGridBubble row col (MovingBubble.color moving) in
  let* _ := on_grid (grid_set row col (Some bubble)) in
  let* _ := resolveMatches row col in
  let* _ := checkForFloating in
  fun st =>
    let st := if isBoardEmpty (grid st) then endGame true st
              else if hasReachedLimit (grid st) then endGame false st
              else st in
    match nextBubble st with
    | None => TypeError
    | Some next =>
        let current :=
          ShooterBubble.make (CANVAS_WIDTH / 2) SHOOTER_Y (ShooterBubble.color next)
                             0 0 false in
        let st := set_currentBubble (Some current) st in
        let st := set_nextBubble (Some (createShooterBubble rnd (grid st))) st in
        Ok tt (set_movingBubble None st)
    end.

(** The flight of the bubble *)

(** Whether the loop over the grid in [updateMovingBubble] meets a bubble
    at a distance of at most [BUBBLE_DIAMETER - 2] from [(x, y)]. *)
Definition touches_grid (g : Grid) (x y : R) : bool :=
  existsb (fun bubble =>
             bool_decide (distance (GridBubble.x bubble) (GridBubble.y bubble) x y
                          <= BUBBLE_DIAMETER - 2)%R)
          (grid_bubbles g).

(** The first statements of [updateMovingBubble(delta)]: the move of the
    bubble in flight, and the bounce off the side walls. *)
Definition moveBubble (delta : R) (moving : MovingBubble.t) : MovingBubble.t :=
  let x := (MovingBubble.x moving + MovingBubble.dx moving * delta)%R in
  let y := (MovingBubble.y moving + MovingBubble.dy moving * delta)%R in
  if bool_decide (x <= BUBBLE_RADIUS)%R
     || bool_decide (x >= CANVAS_WIDTH - BUBBLE_RADIUS)%R
  then MovingBubble.make (clamp x BUBBLE_RADIUS (CANVAS_WIDTH - BUBBLE_RADIUS)) y
                         (MovingBubble.color moving)
                         (MovingBubble.dx moving * -1) (MovingBubble.dy moving)
  else MovingBubble.make x y (MovingBubble.color moving)
                         (MovingBubble.dx moving) (MovingBubble.dy moving).

(** [updateMovingBubble(delta)] *)
Definition updateMovingBubble (delta rnd : R) : M Game unit :=
  fun st =>
    match movingBubble st with
    | None => Ok tt st
    | Some moving =>
        let moving := moveBubble delta moving in
        let st := set_movingBubble (Some moving) st in
        if bool_decide (MovingBubble.y moving <= TOP_MARGIN + BUBBLE_RADIUS)%R
        then snapMovingBubble rnd moving st
        else if touches_grid (grid st) (MovingBubble.x moving) (MovingBubble.y moving)
        then snapMovingBubble rnd moving st
        else if bool_decide (MovingBubble.y moving > CANVAS_HEIGHT - BUBBLE_RADIUS)%R
        then Ok tt (endGame false st)
        else Ok tt st
    end.

(** [handlePointer(delta)] *)
Definition handlePointer (delta : R) (st : Game) : Game :=
  let rotationSpeed := (220 * (PI / 180))%R in
  let st :=
    if decide ("ArrowLeft"%string ∈ keys st)
    then set_pointerAngle
           (Math_min (pointerAngle st + rotationSpeed * delta) POINTER_MAX) st
    else st in
  if decide ("ArrowRight"%string ∈ keys st)
  then set_pointerAngle
         (Math_max (pointerAngle st - rotationSpeed * delta) POINTER_MIN) st
  else st.

(** [update(delta)] *)
Definition update (delta rnd : R) : M Game unit :=
  fun st => updateMovingBubble delta rnd (handlePointer delta st).

(** [loop(timestamp)]; drawing and the request for the next frame are not
    modelled. *)
Definition loop (timestamp rnd : R) : M Game unit :=
  fun st =>
    if gameOver st then Ok tt st
    else
      let delta := ((timestamp - lastTime st) / 1000)%R in
      update delta rnd (set_lastTime timestamp st).

(** [launchBubble()] *)
Definition launchBubble (st : Game) : Game :=
  match gameOver st, movingBubble st, currentBubble st with
  | false, None, Some current =>
      let angle := pointerAngle st in
      let dx := (cos angle * LAUNCH_SPEED)%R in
      let dy := (- sin angle * LAUNCH_SPEED)%R in
      let moving :=
        MovingBubble.make (ShooterBubble.x current) (ShooterBubble.y current)
                          (ShooterBubble.color current) dx dy in
      let current :=
        ShooterBubble.make (ShooterBubble.x current) (ShooterBubble.y current)
                           (ShooterBubble.color current) (ShooterBubble.dx current)
                           (ShooterBubble.dy current) true in
      set_currentBubble (Some current) (set_movingBubble (Some moving) st)
  | _, _, _ => st
  end.

(** *** Start *)

(** The inner loop of [createInitialGrid]; [n] counts the calls of
    [Math.random()] so far, [rnd n] is the value of the next one. *)
Fixpoint createInitialGrid_cols (rnd : nat -> R) (row : Z) (cols : list Z) (n : nat)
  : M Grid nat :=
  match cols with
  | [] => ret n
  | col :: rest =>
      let color := random_pick COLORS (rnd n) in
      let bubble := makeGridBubble row col color in
      let* _ := grid_set row col (Some bubble) in
      createInitialGrid_cols rnd row rest (S n)
  end.

Fixpoint createInitialGrid_rows (rnd : nat -> R) (rows : list Z) (n : nat) : M Grid nat :=
  match rows with
  | [] => ret n
  | row :: rest =>
      let* _ := ensureRow row in
      let limit := COLUMNS - (if odd_js row then 1 else 0) in
      let* n := createInitialGrid_cols rnd row (seqZ 0 limit) n in
      createInitialGrid_rows rnd rest n
  end.

(** [createInitialGrid()] *)
Definition createInitialGrid (rnd : nat -> R) : M Grid nat :=
  let initialRows := 8 in
  createInitialGrid_rows rnd (seqZ 0 initialRows) O.

(** [init()]; the state before does not matter. *)
Definition init (rnd : nat -> R) : M Game unit :=
  fun _ =>
    match createInitialGrid rnd [] with
    | Ok n g =>
        let current := createShooterBubble (rnd n) g in
        let next := createShooterBubble (rnd (S n)) g in
        Ok tt (mkGame g (PI / 2) (Some current) (Some next) None ∅ 0 0 false "")
    | TypeError => TypeError
    | OutOfFuel => OutOfFuel
    end.

(** *** Input *)

(** [handleKeyDown(event)] *)
Definition handleKeyDown (key : string) (repeat : bool) (rnd : nat -> R) : M Game unit :=
  fun st =>
    if repeat then Ok tt st
    else
      let st := if String.eqb key "ArrowLeft" || String.eqb key "ArrowRight"
                then set_keys ({[key]} ∪ keys st) st
                else st in
      let st := if String.eqb key " " || String.eqb key "Spacebar"
                then launchBubble st
                else st in
      if String.eqb key "Enter" && gameOver st then init rnd st
      else Ok tt st.

(** [handleKeyUp(event)] *)
Definition handleKeyUp (key : string) (st : Game) : Game :=
  if String.eqb key "ArrowLeft" || String.eqb key "ArrowRight"
  then set_keys (keys st ∖ {[key]}) st
  else st.

(** [handlePointerMove(event)], also the listener of [touchmove]. *)
Definition handlePointerMove (x y : R) (st : Game) : Game :=
  let angle := Math_atan2 (SHOOTER_Y - y) (x - CANVAS_WIDTH / 2) in
  let clamped := clamp angle POINTER_MIN POINTER_MAX in
  set_pointerAngle clamped st.

(** [handlePointerDown(event)] *)
Definition handlePointerDown (st : Game) : Game := launchBubble st.

(** The listener of [touchstart]. *)
Definition handleTouchStart (x y : R) (st : Game) : Game :=
  let angle := Math_atan2 (SHOOTER_Y - y) (x - CANVAS_WIDTH / 2) in
  launchBubble (set_pointerAngle (clamp angle POINTER_MIN POINTER_MAX) st).

(** One event of the page, handled to its end. *)
Definition step (e : Event) : M Game unit :=
  match e with
  | Frame timestamp rnd => loop timestamp rnd
  | KeyDown key repeat rnd => handleKeyDown key repeat rnd
  | KeyUp key => fun st => Ok tt (handleKeyUp key st)
  | MouseMove x y => fun st => Ok tt (handlePointerMove x y st)
  | Click => fun st => Ok tt (handlePointerDown st)
  | TouchStart x y => fun st => Ok tt (handleTouchStart x y st)
  | TouchMove x y => fun st => Ok tt (handlePointerMove x y st)
  end.

End Script.

(** ** Vocabulary of the statements *)

(** The neighbours of a cell as a function, without the calls of
    [ensureRow]. *)
Definition neighbors_of (row col : Z) : list Cell :=
  filter (fun n : Cell => 0 <= fst n /\ 0 <= snd n < COLUMNS)
         (map (fun o : Z * Z => (row + fst o, col + snd o))
              (if odd_js row then offsetsOdd else offsetsEven)).

(** A cell is occupied when the lookup finds a bubble there. *)
Definition occupied (g : Grid) (p : Cell) : Prop := is_Some (cell g (fst p) (snd p)).

(** [g'] is [g] with, possibly, more rows allocated, all of them empty. *)
Definition extends (g g' : Grid) : Prop :=
  (length g <= length g')%nat /\
  forall r, grid_row g' r = grid_row g r \/
            (grid_row g r = None /\ grid_row g' r = Some (replicate (Z.to_nat COLUMNS) None)).

(** The position that a bubble records for itself. *)
Definition cell_of (b : GridBubble.t) : Cell := (GridBubble.row b, GridBubble.col b).

(** Every bubble is stored at the position it records. *)
Definition consistent (g : Grid) : Prop :=
  forall r c b, cell g r c = Some b -> cell_of b = (r, c).

(** All positions below the length of the grid and within the columns. *)
Definition all_cells (g : Grid) : list Cell :=
  r ← seqZ 0 (Z.of_nat (length g)); c ← seqZ 0 COLUMNS; [(r, c)].


(** A cell that the flood fill for [color] keeps: occupied, with a bubble of
    that colour. *)
Definition matchable (g : Grid) (color : string) (p : Cell) : Prop :=
  exists b, cell g (fst p) (snd p) = Some b /\ GridBubble.color b = color.

(** Linked to the seed by a chain of neighbours, all of them matchable up to
    the last one. *)
Inductive linked (g : Grid) (color : string) (seed : Cell) : Cell -> Prop :=
| linked_seed : linked g color seed seed
| linked_step (p n : Cell) :
    linked g color seed p -> matchable g color p ->
    n ∈ neighbors_of (fst p) (snd p) -> linked g color seed n.

(** The invariant of the loop of [collectCluster]; [cells] are the positions
    at which the bubbles of [matched] were found. *)
Definition flood_inv (g : Grid) (color : string) (seed : Cell) (visited : gset Cell)
           (stack : list Cell) (matched : list GridBubble.t) (cells : list Cell) : Prop :=
  NoDup cells /\
  (forall p, p ∈ cells <-> p ∈ visited /\ matchable g color p) /\
  Forall2 (fun (p : Cell) b => cell g (fst p) (snd p) = Some b) cells matched /\
  (forall p n, p ∈ cells -> n ∈ neighbors_of (fst p) (snd p) -> n ∈ visited \/ n ∈ stack) /\
  (forall p, p ∈ stack -> linked g color seed p) /\
  (forall p, p ∈ visited -> linked g color seed p) /\
  (seed ∈ visited \/ seed ∈ stack).

(** The cells within the bounds of the grid, as a set. *)
Definition cell_set (g : Grid) : gset Cell := list_to_set (all_cells g).

(** Linked to the ceiling: reachable from an occupied cell of row 0, going
    from a cell to a neighbour of it, through occupied cells only. *)
Inductive reachable (g : Grid) : Cell -> Prop :=
| reachable_top (col : Z) : occupied g (0, col) -> reachable g (0, col)
| reachable_step (p n : Cell) :
    reachable g p -> n ∈ neighbors_of (fst p) (snd p) -> occupied g n ->
    reachable g n.

(** The invariant of the [while] loop of [checkForFloating]. *)
Definition bfs_inv (g : Grid) (visited connected : gset Cell) (queue : list Cell) : Prop :=
  visited = connected /\
  (forall p, p ∈ connected -> reachable g p) /\
  (forall col, occupied g (0, col) -> (0, col) ∈ connected) /\
  (forall p, p ∈ queue -> p ∈ connected) /\
  (forall p, p ∈ connected ->
             p ∈ queue \/
             forall n, n ∈ neighbors_of (fst p) (snd p) -> occupied g n -> n ∈ connected).

(** The cells that the sweep of [checkForFloating] empties. *)
Definition floating (g : Grid) (connected : gset Cell) (p : Cell) : Prop :=
  occupied g p /\ p ∉ connected.

(** The cells that are occupied in [g] and not in [g'] any more. *)
Definition removed_cells (g g' : Grid) : list Cell :=
  filter (fun p => occupied g p /\ ~ occupied g' p) (all_cells g).

(** [st'] differs from [st] in the grid and the score at most. *)
Definition same_controls (st st' : Game) : Prop :=
  pointerAngle st' = pointerAngle st /\
  currentBubble st' = currentBubble st /\
  nextBubble st' = nextBubble st /\
  movingBubble st' = movingBubble st /\
  keys st' = keys st /\
  lastTime st' = lastTime st /\
  gameOver st' = gameOver st /\
  message st' = message st.

(** The table of offsets as the specification words it: one set for the
    even rows, the mirrored set for the odd rows. *)
Definition spec_offsets (row : Z) : list (Z * Z) :=
  if Z.even row
  then [(-1, 0); (-1, -1); (0, -1); (0, 1); (1, 0); (1, -1)]
  else [(-1, 0); (-1, 1); (0, -1); (0, 1); (1, 0); (1, 1)].

(** The offsets applied to a cell, restricted to the cells in range. *)
Definition spec_neighbors (row col : Z) : list Cell :=
  filter (fun n : Cell => 0 <= fst n /\ 0 <= snd n < COLUMNS)
         (map (fun o : Z * Z => (row + fst o, col + snd o)) (spec_offsets row)).

(** A check of [consistent] that computes. *)
Definition consistentb (g : Grid) : bool :=
  forallb (fun p : Cell =>
             match cell g (fst p) (snd p) with
             | Some b => (GridBubble.row b =? fst p) && (GridBubble.col b =? snd p)
             | None => true
             end) (all_cells g).

(** The aim is within its two bounds. *)
Definition angle_ok (a : R) : Prop := (POINTER_MIN <= a <= POINTER_MAX)%R.

(** The time of a frame is not before the time of the frame before it. *)
Definition elapsed_ok (e : Event) (st : Game) : Prop :=
  match e with
  | Frame timestamp _ => (lastTime st <= timestamp)%R
  | _ => True
  end.

(** The event that restarts a game that is over: Enter pressed, not
    repeated. *)
Definition is_reset (e : Event) : bool :=
  match e with
  | KeyDown key repeat _ => String.eqb key "Enter" && negb repeat
  | _ => false
  end.

(** The cells that the two loops of [findClosestSlot] go through, in their
    order. *)
Definition slot_cells (approx : Cell) : list Cell :=
  r ← slot_rows approx; c ← slot_cols approx; [(r, c)].

(** The distance from the centre of a cell to a point. *)
Definition slot_dist (W x y : R) (p : Cell) : R :=
  distance (fst (gridToPixel W (fst p) (snd p))) (snd (gridToPixel W (fst p) (snd p))) x y.

(** One turn of the inner loop of [findClosestSlot], as a function of the
    cell looked up. *)
Definition slot_step (W x y : R) (g : Grid) (best : option (Z * Z * R)) (p : Cell)
  : option (Z * Z * R) :=
  match cell g (fst p) (snd p) with
  | Some _ => best
  | None =>
      match best with
      | None => Some (fst p, snd p, slot_dist W x y p)
      | Some (_, _, bdist) =>
          if decide (slot_dist W x y p < bdist)%R
          then Some (fst p, snd p, slot_dist W x y p)
          else best
      end
  end.

(** What the specification says of [findClosestSlot] when the neighbourhood
    has no empty cell: the approximate cell if it is empty, else the first
    empty neighbour of it, else the approximate cell all the same. *)
Definition spec_fallback (g : Grid) (approx : Cell) : Cell :=
  match cell g (fst approx) (snd approx) with
  | None => approx
  | Some _ =>
      match find (fun n : Cell => bool_decide (cell g (fst n) (snd n) = None))
                 (spec_neighbors (fst approx) (snd approx)) with
      | Some n => n
      | None => approx
      end
  end.

(** ** States for the examples *)

(** A grid of one row that holds one bubble, in its first cell, on a canvas
    of 480 by 720. *)
Definition example_grid : Grid :=
  [Some (Some (makeGridBubble 480 0 0 "#ff6b6b") :: replicate 13 None)].

Definition example_shooter : ShooterBubble.t :=
  ShooterBubble.make 240 650 "#ff6b6b" 0 0 false.

(** A bubble in flight five pixels below the line of the shooter, going
    down. *)
Definition overflow_state : Game :=
  mkGame example_grid (PI / 2) (Some example_shooter) (Some example_shooter)
         (Some (MovingBubble.make 240 655 "#ff6b6b" 0 460)) ∅ 0 0 false "".


(** A game that is over. *)
Definition over_state : Game :=
  mkGame example_grid (PI / 2) (Some example_shooter) (Some example_shooter)
         None ∅ 0 300 true "버블이 바닥에 닿았습니다".

(** What [best] holds after the loops of [findClosestSlot] have gone through
    the cells [l]: nothing when no cell of [l] is empty, else an empty cell
    of [l] with its distance, no farther than any empty cell of [l]. *)
Definition best_ok (W x y : R) (g : Grid) (l : list Cell) (best : option (Z * Z * R)) : Prop :=
  match best with
  | None => forall p, p ∈ l -> cell g (fst p) (snd p) <> None
  | Some (r, c, d) =>
      (r, c) ∈ l /\ cell g r c = None /\ d = slot_dist W x y (r, c) /\
      forall p, p ∈ l -> cell g (fst p) (snd p) = None -> (d <= slot_dist W x y p)%R
  end.

(** A grid of two rows on a canvas of 480 by 720: three red bubbles side by
    side at the left of row 0, a yellow one next to them, and a blue one
    below the yellow one. *)
Definition cluster_grid : Grid :=
  [Some ([Some (makeGridBubble 480 0 0 "#ff6b6b");
          Some (makeGridBubble 480 0 1 "#ff6b6b");
          Some (makeGridBubble 480 0 2 "#ff6b6b");
          Some (makeGridBubble 480 0 3 "#f7b801")] ++ replicate 10 None);
   Some (replicate 3 None ++ [Some (makeGridBubble 480 1 3 "#1982c4")]
         ++ replicate 10 None)].

Definition cluster_state : Game :=
  mkGame cluster_grid (PI / 2) (Some example_shooter) (Some example_shooter)
         None ∅ 0 0 false "".

(** The number of cells that [createInitialGrid] fills in a row: a row with
    an odd index is one bubble shorter. *)
Definition row_limit (row : Z) : Z := COLUMNS - (if odd_js row then 1 else 0).

(** No bubble floats: every bubble of the grid is linked to the ceiling. *)
Definition anchored (g : Grid) : Prop := forall p, occupied g p -> reachable g p.

(** The bubble in flight, if there is one, goes up and is not below the line
    of the shooter; the bubble of the shooter waits on that line, and the aim
    is within its bounds. *)
Definition rising (H : R) (st : Game) : Prop :=
  angle_ok (pointerAngle st) /\
  (forall current, currentBubble st = Some current ->
                   ShooterBubble.y current = SHOOTER_Y H) /\
  (forall moving, movingBubble st = Some moving ->
                  (MovingBubble.dy moving < 0)%R /\
                  (MovingBubble.y moving <= SHOOTER_Y H)%R).

(** The times of the frames of a session do not go back: each is at least
    the time [t] of the frame before it, 0 at the start. *)
Fixpoint frames_from (t : R) (events : list Event) : Prop :=
  match events with
  | [] => True
  | Frame timestamp _ :: rest => (t <= timestamp)%R /\ frames_from timestamp rest
  | _ :: rest => frames_from t rest
  end.

(** The events of a session handled one after the other, each to its end. *)
Fixpoint run (W H : R) (events : list Event) : M Game unit :=
  match events with
  | [] => ret tt
  | e :: rest => let* _ := step W H e in run W H rest
  end.

(** * The answer printer: Hangul syllables typed out jamo by jamo

    A shallow embedding of the first script of the same file (the document
    that starts with [const statusEl = document.getElementById("status")]).

    Conventions of the embedding.
    - A string is the list of its code points, which is how [Array.from] and
      [codePointAt(0)] read the answer; a key of the keyboard event is the
      list of its UTF-16 code units, which is what [key.length] counts.
    - [None] in a table lookup or in the text of a segment is [undefined].
    - Positions and counters, which start at 0 and are only decremented
      behind a test that they are not 0, are natural numbers; code points are
      integers.
    - An entry of the JSON file is taken to hold strings: a missing
      [answer] or [question] is the empty string, as [entry.answer || ""]
      and [entry?.question ?? ""] make it; an entry that is [null] or missing
      is [None].
    - The status line and the loading of the JSON file are not modelled. *)

Module Printer.

Abbreviation Str := (list Z).

Definition CHO : list Str :=
  [[0x1100]; [0x1101]; [0x1102]; [0x1103]; [0x1104]; [0x1105]; [0x1106]; [0x1107];
   [0x1108]; [0x1109]; [0x110a]; [0x110b]; [0x110c]; [0x110d]; [0x110e]; [0x110f];
   [0x1110]; [0x1111]; [0x1112]].

Definition JUNG : list Str :=
  [[0x1161]; [0x1162]; [0x1163]; [0x1164]; [0x1165]; [0x1166]; [0x1167]; [0x1168];
   [0x1169]; [0x116a]; [0x116b]; [0x116c]; [0x116d]; [0x116e]; [0x116f]; [0x1170];
   [0x1171]; [0x1172]; [0x1173]; [0x1174]; [0x1175]].

Definition JONG : list Str :=
  [[]; [0x11a8]; [0x11a9]; [0x11aa]; [0x11ab]; [0x11ac]; [0x11ad]; [0x11ae];
   [0x11af]; [0x11b0]; [0x11b1]; [0x11b2]; [0x11b3]; [0x11b4]; [0x11b5]; [0x11b6];
   [0x11b7]; [0x11b8]; [0x11b9]; [0x11ba]; [0x11bb]; [0x11bc]; [0x11bd]; [0x11be];
   [0x11bf]; [0x11c0]; [0x11c1]; [0x11c2]].

Definition HANGUL_BASE : Z := 0xac00.
Definition HANGUL_LAST : Z := 0xd7a3.

(** [table[i]] for an integer [i]. *)
Definition table_get (table : list Str) (i : Z) : option Str :=
  if i <? 0 then None else table !! Z.to_nat i.

(** The truth value of a table entry: [undefined] and the empty string are
    falsy. *)
Definition truthy (s : option Str) : bool :=
  match s with
  | None | Some [] => false
  | Some (_ :: _) => true
  end.

(** [decompose(char)], for the character with the code point [code]. *)
Definition decompose (code : Z) : list (option Str) :=
  if (code >=? HANGUL_BASE) && (code <=? HANGUL_LAST) then
    let syllableIndex := code - HANGUL_BASE in
    let choIndex := syllableIndex / (21 * 28) in
    let jungIndex := Z.rem syllableIndex (21 * 28) / 28 in
    let jongIndex := Z.rem syllableIndex 28 in
    let parts := [table_get CHO choIndex; table_get JUNG jungIndex] in
    let jongChar := table_get JONG jongIndex in
    if truthy jongChar then parts ++ [jongChar] else parts
  else [Some [code]].

(** An element of the JSON file. *)
Record Entry : Type := mkEntry { question : Str; answer : Str }.

(** [{ char, jamo, index }] *)
Record CharUnit : Type := mkCharUnit { char : Z; jamo : list (option Str); index : nat }.

(** [{ text, charIndex }] *)
Record Segment : Type := mkSegment { text : option Str; charIndex : nat }.

(** The global variables of the script, and the text of the two elements of
    the page that it writes. *)
Record State : Type := mkState {
  entries : list (option Entry);
  selectedIndex : option nat;
  charUnits : list CharUnit;
  nextCharIndex : nat;
  nextJamoIndex : nat;
  renderedSegments : list Segment;
  questionText : Str;
  answerText : Str
}.

(** The state when the script has loaded the entries. *)
Definition start (data : list (option Entry)) : State :=
  mkState data None [] 0 0 [] [] [].

(** [Array.from(answer, (char, position) => ({ char, jamo: decompose(char), index: position }))] *)
Definition makeUnits (answer : Str) : list CharUnit :=
  imap (fun position char => mkCharUnit char (decompose char) position) answer.

(** [resetStateWithEntry(index)] *)
Definition resetStateWithEntry (index : nat) (st : State) : State :=
  match entries st !! index with
  | Some (Some entry) =>
      mkState (entries st) (Some index) (makeUnits (answer entry)) 0 0 [] [] []
  | _ => st
  end.

(** [segments.map((segment) => segment.text).join("")]; [join] writes
    nothing for [undefined]. *)
Definition join_texts (segments : list Segment) : Str :=
  concat (map (fun segment => default [] (text segment)) segments).

(** [updateAnswerDisplay()] *)
Definition updateAnswerDisplay (st : State) : State :=
  mkState (entries st) (selectedIndex st) (charUnits st) (nextCharIndex st)
          (nextJamoIndex st) (renderedSegments st) (questionText st)
          (join_texts (renderedSegments st)).

(** [unit.jamo[i]] *)
Definition jamo_at (unit : CharUnit) (i : nat) : option Str :=
  match jamo unit !! i with
  | Some part => part
  | None => None
  end.

(** [outputNextUnit()] *)
Definition outputNextUnit : M State unit :=
  fun st =>
    match selectedIndex st with
    | None => Ok tt st
    | Some _ =>
        match charUnits st with
        | [] => Ok tt st
        | _ :: _ =>
            if (length (charUnits st) <=? nextCharIndex st)%nat then Ok tt st
            else
              match charUnits st !! nextCharIndex st with
              | None => TypeError
              | Some current =>
                  let nextJamo := jamo_at current (nextJamoIndex st) in
                  let segments :=
                    renderedSegments st ++ [mkSegment nextJamo (index current)] in
                  let st :=
                    updateAnswerDisplay
                      (mkState (entries st) (selectedIndex st) (charUnits st)
                               (nextCharIndex st) (nextJamoIndex st) segments
                               (questionText st) (answerText st)) in
                  let nextJamoIndex' := S (nextJamoIndex st) in
                  if (length (jamo current) <=? nextJamoIndex')%nat
                  then Ok tt (mkState (entries st) (selectedIndex st) (charUnits st)
                                      (S (nextCharIndex st)) 0 (renderedSegments st)
                                      (questionText st) (answerText st))
                  else Ok tt (mkState (entries st) (selectedIndex st) (charUnits st)
                                      (nextCharIndex st) nextJamoIndex'
                                      (renderedSegments st)
                                      (questionText st) (answerText st))
              end
        end
    end.

(** [while (segments.length && segments[segments.length - 1].charIndex === idx) segments.pop()],
    on the segments in reverse order, the last one first. *)
Fixpoint pop_while_rev (idx : nat) (reversed : list Segment) : list Segment :=
  match reversed with
  | [] => []
  | last :: rest =>
      if (charIndex last =? idx)%nat then pop_while_rev idx rest else reversed
  end.

Definition pop_while (idx : nat) (segments : list Segment) : list Segment :=
  reverse (pop_while_rev idx (reverse segments)).

(** [rewindOneCharacter()] *)
Definition rewindOneCharacter : M State unit :=
  fun st =>
    match selectedIndex st, charUnits st with
    | None, _ | Some _, [] => Ok tt st
    | Some _, _ :: _ =>
        if (0 <? nextJamoIndex st)%nat then
          match charUnits st !! nextCharIndex st with
          | None => TypeError
          | Some current =>
              let currentIndex := index current in
              Ok tt (updateAnswerDisplay
                       (mkState (entries st) (selectedIndex st) (charUnits st)
                                (nextCharIndex st) 0
                                (pop_while currentIndex (renderedSegments st))
                                (questionText st) (answerText st)))
          end
        else if (nextCharIndex st =? 0)%nat then Ok tt st
        else
          match charUnits st !! (nextCharIndex st - 1)%nat with
          | None => TypeError
          | Some previous =>
              let previousIndex := index previous in
              Ok tt (updateAnswerDisplay
                       (mkState (entries st) (selectedIndex st) (charUnits st)
                                (nextCharIndex st - 1)%nat 0
                                (pop_while previousIndex (renderedSegments st))
                                (questionText st) (answerText st)))
          end
    end.

(** The [for] loop of [fastForwardOneCharacter], over the values of [i]. *)
Fixpoint push_jamo (target : CharUnit) (indices : list nat) (segments : list Segment)
  : list Segment :=
  match indices with
  | [] => segments
  | i :: rest =>
      push_jamo target rest (segments ++ [mkSegment (jamo_at target i) (index target)])
  end.

(** [fastForwardOneCharacter()] *)
Definition fastForwardOneCharacter : M State unit :=
  fun st =>
    match selectedIndex st, charUnits st with
    | None, _ | Some _, [] => Ok tt st
    | Some _, _ :: _ =>
        if (length (charUnits st) <=? nextCharIndex st)%nat then Ok tt st
        else
          match charUnits st !! nextCharIndex st with
          | None => TypeError
          | Some target =>
              let indices := seq (nextJamoIndex st)
                                 (length (jamo target) - nextJamoIndex st) in
              Ok tt (updateAnswerDisplay
                       (mkState (entries st) (selectedIndex st) (charUnits st)
                                (S (nextCharIndex st)) 0
                                (push_jamo target indices (renderedSegments st))
                                (questionText st) (answerText st)))
          end
    end.

(** [showQuestion()] *)
Definition showQuestion (st : State) : State :=
  match selectedIndex st with
  | None => st
  | Some i =>
      let text := match entries st !! i with
                  | Some (Some entry) => question entry
                  | _ => []
                  end in
      mkState (entries st) (selectedIndex st) (charUnits st) (nextCharIndex st)
              (nextJamoIndex st) (renderedSegments st) text (answerText st)
  end.

(** The keyboard event: [{ ctrlKey, altKey, code, key }]. *)
Record KeyEvent : Type :=
  mkKeyEvent { ctrlKey : bool; altKey : bool; code : string; key : list Z }.

(** The codes that [/^Digit[0-9]$/] accepts; the position of a code in the
    list is [Number(code.replace("Digit", ""))]. *)
Definition digit_codes : list string :=
  ["Digit0"; "Digit1"; "Digit2"; "Digit3"; "Digit4";
   "Digit5"; "Digit6"; "Digit7"; "Digit8"; "Digit9"]%string.

Definition digit_of_code (code : string) : option nat :=
  fst <$> list_find (fun c => c = code) digit_codes.

(** [/[A-Za-z가-힣]/.test(key)] for a key of one code unit. *)
Definition is_letter (u : Z) : bool :=
  ((65 <=? u) && (u <=? 90)) || ((97 <=? u) && (u <=? 122))
  || ((0xac00 <=? u) && (u <=? 0xd7a3)).

(** The last statement of [handleKeydown]. *)
Definition handleLetter (event : KeyEvent) : M State unit :=
  match key event with
  | [u] => if is_letter u then outputNextUnit else ret tt
  | _ => ret tt
  end.

(** [handleKeydown(event)] *)
Definition handleKeydown (event : KeyEvent) : M State unit :=
  if ctrlKey event && altKey event then
    match digit_of_code (code event) with
    | Some digit => fun st => Ok tt (resetStateWithEntry digit st)
    | None =>
        if String.eqb (code event) "Backquote" then fun st => Ok tt (showQuestion st)
        else if String.eqb (code event) "Minus" then rewindOneCharacter
        else if String.eqb (code event) "Equal" then fastForwardOneCharacter
        else handleLetter event
    end
  else handleLetter event.

(** The key events of a session, handled one after the other. *)
Fixpoint run (events : list KeyEvent) : M State unit :=
  match events with
  | [] => ret tt
  | event :: rest => let* _ := handleKeydown event in run rest
  end.

(** *** Vocabulary of the statements *)

(** The segments of one character. *)
Definition unit_segments (unit : CharUnit) : list Segment :=
  map (fun part => mkSegment part (index unit)) (jamo unit).

(** The segments of the whole answer, in the order of the output. *)
Definition stream (units : list CharUnit) : list Segment :=
  flat_map unit_segments units.

(** The text of the whole answer, each syllable replaced by its jamo. *)
Definition spelled (answer : Str) : Str :=
  concat (map (fun code => concat (map (default []) (decompose code))) answer).

(** What is on the page of the current character: the segments of its
    first [nextJamoIndex] parts. *)
Definition current_segments (st : State) : list Segment :=
  match charUnits st !! nextCharIndex st with
  | Some current => take (nextJamoIndex st) (unit_segments current)
  | None => []
  end.

(** The invariant of the script: the units are those of the answer of the
    selected entry, the two counters point into them, and the segments and
    the display are what has been output up to the counters. *)
Definition wf (st : State) : Prop :=
  match selectedIndex st with
  | None => charUnits st = []
  | Some i =>
      exists entry, entries st !! i = Some (Some entry) /\
                    charUnits st = makeUnits (answer entry)
  end /\
  (nextCharIndex st <= length (charUnits st))%nat /\
  match charUnits st !! nextCharIndex st with
  | Some current => (nextJamoIndex st < length (jamo current))%nat
  | None => nextJamoIndex st = 0%nat
  end /\
  renderedSegments st
  = stream (take (nextCharIndex st) (charUnits st)) ++ current_segments st /\
  answerText st = join_texts (renderedSegments st).

(** [st'] has the entries, the selection, the units and the question of
    [st]. *)
Definition same_entry (st st' : State) : Prop :=
  entries st' = entries st /\
  selectedIndex st' = selectedIndex st /\
  charUnits st' = charUnits st /\
  questionText st' = questionText st.

(** [n] presses of a letter key. *)
Fixpoint presses (n : nat) : M State unit :=
  match n with
  | O => ret tt
  | S n => let* _ := outputNextUnit in presses n
  end.

(** *** A state for the examples

    One entry, whose answer is the two syllables U+D55C and U+AE00, selected
    with Ctrl+Alt+0. *)
Definition example_data : list (option Entry) :=
  [Some (mkEntry [] [0xd55c; 0xae00])].

Definition select_first : KeyEvent := mkKeyEvent true true "Digit0" [48].

Definition example_state : State := resetStateWithEntry 0 (start example_data).

End Printer.

(** * The marble game: the physics of one frame

    A shallow embedding of the second script of the same file (the document
    that starts with [class Marble]): the move of a marble with its bounce
    off the walls, and the collision of two marbles. Numbers are real
    numbers, as above; the size of the canvas comes from the page. The two
    marbles of a collision are two different objects, as the loops of
    [updatePhysics] have it ([j] starts at [i + 1]); each function returns
    the marbles that it has modified. Spawning, scoring and drawing are not
    modelled. *)

Module Marbles.

(** The fields of a [Marble]. *)
Record Marble : Type := mkMarble {
  x : R; y : R; radius : R; color : string; controllable : bool;
  vx : R; vy : R; active : bool
}.

Definition FRICTION : R := 992 / 1000.
Definition MIN_SPEED : R := 2 / 100.

(** [Math.hypot(dx, dy)] *)
Definition Math_hypot (dx dy : R) : R := sqrt (dx * dx + dy * dy).

(** [distance(a, b)] *)
Definition distance (a b : Marble) : R :=
  let dx := (x a - x b)%R in
  let dy := (y a - y b)%R in
  Math_hypot dx dy.

(** [resolveCollision(a, b)], for two different marbles; returns the two
    marbles as the call leaves them. *)
Definition resolveCollision (a b : Marble) : Marble * Marble :=
  let dx := (x b - x a)%R in
  let dy := (y b - y a)%R in
  let dist := Math_hypot dx dy in
  if decide (dist = 0%R) then (a, b)
  else
    let overlap := (radius a + radius b - dist)%R in
    if decide (overlap > 0)%R then
      let nx := (dx / dist)%R in
      let ny := (dy / dist)%R in
      let separation := (overlap / 2)%R in
      let ax := (x a - nx * separation)%R in
      let ay := (y a - ny * separation)%R in
      let bx := (x b + nx * separation)%R in
      let by' := (y b + ny * separation)%R in
      let dvx := (vx b - vx a)%R in
      let dvy := (vy b - vy a)%R in
      let impulse := (dvx * nx + dvy * ny)%R in
      if decide (impulse > 0)%R then
        let impulseStrength := impulse in
        (mkMarble ax ay (radius a) (color a) (controllable a)
                  (vx a + impulseStrength * nx) (vy a + impulseStrength * ny) (active a),
         mkMarble bx by' (radius b) (color b) (controllable b)
                  (vx b - impulseStrength * nx) (vy b - impulseStrength * ny) (active b))
      else
        (mkMarble ax ay (radius a) (color a) (controllable a) (vx a) (vy a) (active a),
         mkMarble bx by' (radius b) (color b) (controllable b) (vx b) (vy b) (active b))
    else (a, b).

(** One coordinate of the first loop of [updatePhysics]: the position [p]
    and the speed [v] of a marble of radius [r] between the walls at 0 and
    at [size]; returns the new position and the new speed. *)
Definition moveAxis (size r p v : R) : R * R :=
  let p := (p + v)%R in
  let v := (v * FRICTION)%R in
  let v := if decide (Rabs v < MIN_SPEED)%R then 0%R else v in
  let bounceDamping := (85 / 100)%R in
  if decide (p - r < 0)%R then (r, (Rabs v * bounceDamping)%R)
  else if decide (p + r > size)%R then ((size - r)%R, (- Rabs v * bounceDamping)%R)
  else (p, v).

(** The body of the first loop of [updatePhysics], for one marble, on a
    canvas of [W] by [H]. In the script the two coordinates are updated
    statement by statement; neither reads the other. *)
Definition moveMarble (W H : R) (marble : Marble) : Marble :=
  if active marble then
    let '(x', vx') := moveAxis W (radius marble) (x marble) (vx marble) in
    let '(y', vy') := moveAxis H (radius marble) (y marble) (vy marble) in
    mkMarble x' y' (radius marble) (color marble) (controllable marble) vx' vy' true
  else marble.

End Marbles.

#[local] Set Warnings "-clear-no-such-hyp".

(** ** Facts about the numbers *)

Lemma Math_round_eq (x : R) (z : Z) :
  (IZR z - / 2 <= x < IZR z + / 2)%R -> Math_round x = z.
Proof.
  intros Hx. unfold Math_round. apply Zfloor_eq. lra.
Qed.

Lemma sqrt3_bounds : (1 < sqrt 3 < 2)%R.
Proof.
  assert (H1 : sqrt 1 = 1%R) by apply sqrt_1.
  assert (H4 : sqrt 4 = 2%R).
  { replace 4%R with (2 * 2)%R by lra. apply sqrt_square. lra. }
  split.
  - rewrite <- H1. apply sqrt_lt_1; lra.
  - rewrite <- H4. apply sqrt_lt_1; lra.
Qed.

Lemma inv_sqrt3_bounds : (/ 2 < / sqrt 3 < 1)%R.
Proof.
  destruct sqrt3_bounds as [Hlo Hhi].
  split.
  - apply Rinv_lt_contravar; lra.
  - rewrite <- Rinv_1. apply Rinv_lt_contravar; lra.
Qed.

Lemma odd_js_succ (n : Z) : 0 <= n -> odd_js (n + 1) = negb (odd_js n).
Proof.
  intros Hn. unfold odd_js.
  rewrite !Z.rem_mod_nonneg by lia.
  destruct (Z.eqb_spec (n mod 2) 0), (Z.eqb_spec ((n + 1) mod 2) 0); simpl;
    try reflexivity; exfalso; Z.to_euclidean_division_equations; lia.
Qed.

(** C1. What [pixelToGrid] returns at the centre of the cell [(row, col)],
    as [gridToPixel] gives it, is not [(row, col)]: the row is [row + 1]
    (the centre lies a radius below the top of the row, and a radius over
    the spacing of the rows is more than a half), and on an odd row the
    column is [col + 1], cut at the last column. *)
Theorem pixelToGrid_gridToPixel_next_row (W : R) (row col : Z) :
  0 <= row -> 0 <= col < COLUMNS ->
  pixelToGrid W (fst (gridToPixel W row col)) (snd (gridToPixel W row col))
  = (row + 1, if odd_js row then Z.min (col + 1) (COLUMNS - 1) else col).
Proof.
  intros Hrow Hcol.
  pose proof sqrt3_bounds as Hs. pose proof inv_sqrt3_bounds as Hi.
  unfold pixelToGrid, gridToPixel; simpl fst; simpl snd.
  assert (Hr : Math_round
            ((TOP_MARGIN + IZR row * VERTICAL_SPACING + BUBBLE_RADIUS - TOP_MARGIN)
             / VERTICAL_SPACING) = row + 1).
  { apply Math_round_eq. rewrite plus_IZR.
    unfold TOP_MARGIN, VERTICAL_SPACING, BUBBLE_RADIUS.
    replace ((80 + IZR row * (sqrt 3 * 16) + 16 - 80) / (sqrt 3 * 16))%R
      with (IZR row + / sqrt 3)%R by (field; lra).
    lra. }
  rewrite Hr. rewrite (Z.max_r 0 (row + 1)) by lia.
  rewrite odd_js_succ by lia.
  destruct (odd_js row); simpl negb; cbv iota.
  - assert (Hc : Math_round
              ((LEFT_OFFSET W + IZR col * BUBBLE_DIAMETER + BUBBLE_RADIUS + BUBBLE_RADIUS
                - LEFT_OFFSET W - 0) / BUBBLE_DIAMETER) = col + 1).
    { apply Math_round_eq. rewrite plus_IZR.
      unfold BUBBLE_DIAMETER, BUBBLE_RADIUS.
      replace ((LEFT_OFFSET W + IZR col * (16 * 2) + 16 + 16 - LEFT_OFFSET W - 0) / (16 * 2))%R
        with (IZR col + 1)%R by (field; lra).
      lra. }
    rewrite Hc. rewrite (Z.max_r 0 (col + 1)) by lia. reflexivity.
  - assert (Hc : Math_round
              ((LEFT_OFFSET W + IZR col * BUBBLE_DIAMETER + BUBBLE_RADIUS + 0
                - LEFT_OFFSET W - BUBBLE_RADIUS) / BUBBLE_DIAMETER) = col).
    { apply Math_round_eq.
      unfold BUBBLE_DIAMETER, BUBBLE_RADIUS.
      replace ((LEFT_OFFSET W + IZR col * (16 * 2) + 16 + 0 - LEFT_OFFSET W - 16) / (16 * 2))%R
        with (IZR col) by (field; lra).
      lra. }
    rewrite Hc. unfold COLUMNS in *. f_equal. lia.
Qed.

(** ** The arrays *)

Lemma array_set_lookup {A : Type} (d : A) (i : nat) (v : A) (l : list A) (j : nat) :
  array_set d i v l !! j =
    if decide (j = i) then Some v
    else if decide (j < length l)%nat then l !! j
    else if decide (j < i)%nat then Some d
    else None.
Proof.
  unfold array_set. destruct (Nat.ltb_spec i (length l)) as [Hi|Hi].
  - destruct (decide (j = i)) as [->|Hne].
    + by rewrite list_lookup_insert_eq.
    + rewrite list_lookup_insert_ne by done.
      destruct (decide (j < length l)%nat) as [|Hge]; [done|].
      rewrite lookup_ge_None_2 by lia.
      destruct (decide (j < i)%nat); [lia|done].
  - destruct (decide (j < length l)%nat) as [Hlt|Hge].
    + rewrite lookup_app_l by done.
      destruct (decide (j = i)); [lia|done].
    + rewrite lookup_app_r by lia.
      destruct (decide (j < i)%nat) as [Hji|Hji].
      * rewrite lookup_app_l by (rewrite length_replicate; lia).
        rewrite lookup_replicate_2 by lia.
        destruct (decide (j = i)); [lia|done].
      * rewrite lookup_app_r by (rewrite length_replicate; lia).
        rewrite length_replicate.
        destruct (decide (j = i)) as [->|Hne].
        -- by replace (i - length l - (i - length l))%nat with 0%nat by lia.
        -- replace (j - length l - (i - length l))%nat with (S (j - i - 1)) by lia.
           done.
Qed.

Lemma array_set_length {A : Type} (d : A) (i : nat) (v : A) (l : list A) :
  length (array_set d i v l) = Nat.max (length l) (S i).
Proof.
  unfold array_set. destruct (Nat.ltb_spec i (length l)).
  - rewrite length_insert. lia.
  - rewrite !length_app, length_replicate. simpl. lia.
Qed.

(** ** Rows and cells *)

Lemma grid_row_Some (g : Grid) (r : Z) (row : Row) :
  grid_row g r = Some row -> 0 <= r < Z.of_nat (length g).
Proof.
  unfold grid_row. destruct (Z.ltb_spec r 0); [done|].
  destruct (g !! Z.to_nat r) as [[?|]|] eqn:E; try done.
  intros _. apply lookup_lt_Some in E. lia.
Qed.

Lemma grid_row_lookup (g : Grid) (r : Z) (row : Row) :
  grid_row g r = Some row <-> 0 <= r /\ g !! Z.to_nat r = Some (Some row).
Proof.
  unfold grid_row. destruct (Z.ltb_spec r 0).
  - split; [done|lia].
  - destruct (g !! Z.to_nat r) as [[?|]|]; split; try done;
      try (intros [_ ?]; congruence); intros [= ->]; done.
Qed.

Lemma grid_row_array_set (g : Grid) (r r' : Z) (v : option Row) :
  0 <= r ->
  grid_row (array_set None (Z.to_nat r) v g) r' =
    if decide (r' = r) then v else grid_row g r'.
Proof.
  intros Hr. unfold grid_row.
  destruct (Z.ltb_spec r' 0).
  { destruct (decide (r' = r)); [lia|done]. }
  rewrite array_set_lookup.
  destruct (decide (Z.to_nat r' = Z.to_nat r)) as [He|Hne].
  - destruct (decide (r' = r)); [|lia]. by destruct v.
  - destruct (decide (r' = r)); [lia|].
    destruct (decide (Z.to_nat r' < length g)%nat) as [|Hge]; [done|].
    rewrite (lookup_ge_None_2 g) by lia.
    by destruct (decide (Z.to_nat r' < Z.to_nat r)%nat).
Qed.

Lemma grid_row_insert (g : Grid) (r r' : Z) (old new : Row) :
  grid_row g r = Some old ->
  grid_row (<[Z.to_nat r := Some new]> g) r' =
    if decide (r' = r) then Some new else grid_row g r'.
Proof.
  intros Hold. pose proof (grid_row_Some _ _ _ Hold) as Hr.
  unfold grid_row. destruct (Z.ltb_spec r' 0).
  { destruct (decide (r' = r)); [lia|done]. }
  destruct (decide (r' = r)) as [->|Hne].
  - by rewrite list_lookup_insert_eq by lia.
  - by rewrite list_lookup_insert_ne by lia.
Qed.

Lemma row_col_replicate (n : nat) (c : Z) : row_col (replicate n None) c = None.
Proof.
  unfold row_col. destruct (c <? 0); [done|].
  destruct (replicate n None !! Z.to_nat c) as [[?|]|] eqn:E; try done.
  apply lookup_replicate in E as [? _]. done.
Qed.

Lemma row_col_array_set (row : Row) (c c' : Z) (v : option GridBubble.t) :
  0 <= c ->
  row_col (array_set None (Z.to_nat c) v row) c' =
    if decide (c' = c) then v else row_col row c'.
Proof.
  intros Hc. unfold row_col.
  destruct (Z.ltb_spec c' 0).
  { destruct (decide (c' = c)); [lia|done]. }
  rewrite array_set_lookup.
  destruct (decide (Z.to_nat c' = Z.to_nat c)) as [He|Hne].
  - destruct (decide (c' = c)); [|lia]. by destruct v.
  - destruct (decide (c' = c)); [lia|].
    destruct (decide (Z.to_nat c' < length row)%nat) as [|Hge]; [done|].
    rewrite (lookup_ge_None_2 row) by lia.
    by destruct (decide (Z.to_nat c' < Z.to_nat c)%nat).
Qed.

Lemma cell_in_range (g : Grid) (r c : Z) (b : GridBubble.t) :
  cell g r c = Some b -> 0 <= r < Z.of_nat (length g) /\ 0 <= c < COLUMNS.
Proof.
  unfold cell.
  destruct (Z.ltb_spec c 0), (Z.geb_spec c COLUMNS); simpl; try done.
  destruct (grid_row g r) eqn:E; [|done].
  apply grid_row_Some in E. intros _. lia.
Qed.

Lemma cell_row (g : Grid) (r c : Z) (row : Row) :
  grid_row g r = Some row -> 0 <= c < COLUMNS -> cell g r c = row_col row c.
Proof.
  intros Hrow Hc. unfold cell. rewrite Hrow.
  destruct (Z.ltb_spec c 0), (Z.geb_spec c COLUMNS); simpl; try done; lia.
Qed.

(** ** Allocation of rows *)

Lemma extends_refl (g : Grid) : extends g g.
Proof. split; [done|]. intros r. by left. Qed.

Lemma extends_trans (g1 g2 g3 : Grid) : extends g1 g2 -> extends g2 g3 -> extends g1 g3.
Proof.
  intros [Hl1 H1] [Hl2 H2]. split; [lia|].
  intros r. destruct (H1 r) as [E1|[E1 E1']], (H2 r) as [E2|[E2 E2']].
  - left. congruence.
  - right. split; congruence.
  - right. split; congruence.
  - congruence.
Qed.

Lemma extends_cell (g g' : Grid) (r c : Z) : extends g g' -> cell g' r c = cell g r c.
Proof.
  intros [_ H]. unfold cell. destruct ((c <? 0) || (c >=? COLUMNS)); [done|].
  destruct (H r) as [->|[-> ->]]; [done|]. apply row_col_replicate.
Qed.

Lemma extends_row (g g' : Grid) (r : Z) (row : Row) :
  extends g g' -> grid_row g r = Some row -> grid_row g' r = Some row.
Proof.
  intros [_ H] Hr. destruct (H r) as [->|[E _]]; congruence.
Qed.

Lemma extends_length (g g' : Grid) : extends g g' -> (length g <= length g')%nat.
Proof. by intros [? _]. Qed.

Lemma ensureRow_spec (row : Z) (g : Grid) :
  exists g', ensureRow row g = Ok tt g' /\ extends g g' /\
             (0 <= row -> is_Some (grid_row g' row)) /\
             (row < Z.of_nat (length g) -> length g' = length g).
Proof.
  unfold ensureRow. destruct (grid_row g row) as [r|] eqn:E.
  { exists g. split_and!; [done|apply extends_refl|..]; [|done].
    intros _. rewrite E. eauto. }
  destruct (Z.ltb_spec row 0) as [Hneg|Hpos].
  { exists g. split_and!; [done|apply extends_refl|lia|done]. }
  eexists. split; [done|]. split_and!.
  - split.
    + rewrite array_set_length. lia.
    + intros r'. rewrite grid_row_array_set by done.
      destruct (decide (r' = row)) as [->|]; [right|left]; done.
  - intros _. rewrite grid_row_array_set by done.
    rewrite decide_True by done. eauto.
  - intros Hlt. rewrite array_set_length. lia.
Qed.

Lemma grid_get_row (g : Grid) (r c : Z) (row : Row) :
  grid_row g r = Some row -> grid_get r c g = Ok (row_col row c) g.
Proof. intros H. unfold grid_get. by rewrite H. Qed.

Lemma grid_get_cell (g : Grid) (r c : Z) :
  is_Some (grid_row g r) -> 0 <= c < COLUMNS -> grid_get r c g = Ok (cell g r c) g.
Proof.
  intros [row Hrow] Hc. rewrite (grid_get_row _ _ _ _ Hrow).
  by rewrite (cell_row _ _ _ _ Hrow Hc).
Qed.

Lemma grid_set_spec (g : Grid) (r c : Z) (v : option GridBubble.t) :
  is_Some (grid_row g r) -> 0 <= c < COLUMNS ->
  exists g', grid_set r c v g = Ok tt g' /\ length g' = length g /\
             (forall r', is_Some (grid_row g' r') <-> is_Some (grid_row g r')) /\
             (forall r' c', cell g' r' c' =
                            if decide ((r', c') = (r, c)) then v else cell g r' c').
Proof.
  intros [row Hrow] Hc. unfold grid_set. rewrite Hrow.
  destruct (Z.ltb_spec c 0); [lia|].
  eexists. split; [done|]. split_and!.
  - by rewrite length_insert.
  - intros r'. rewrite (grid_row_insert _ _ _ _ _ Hrow).
    destruct (decide (r' = r)) as [->|]; [|done]. rewrite Hrow. split; eauto.
  - intros r' c'. unfold cell.
    destruct (Z.ltb_spec c' 0), (Z.geb_spec c' COLUMNS); simpl;
      try (destruct (decide ((r', c') = (r, c))) as [[= -> ->]|]; [lia|done]).
    rewrite (grid_row_insert _ _ _ _ _ Hrow).
    destruct (decide (r' = r)) as [->|Hne].
    + rewrite Hrow, row_col_array_set by lia.
      destruct (decide (c' = c)) as [->|Hne].
      * by rewrite decide_True.
      * rewrite decide_False; [done|]. congruence.
    + rewrite decide_False; [done|]. congruence.
Qed.

(** ** Lookup and neighbours *)

Lemma bind_Ok {S A B : Type} (m : M S A) (k : A -> M S B) (s s' : S) (a : A) :
  m s = Ok a s' -> bind m k s = k a s'.
Proof. intros H. unfold bind. by rewrite H. Qed.

Lemma getBubble_spec (row col : Z) (g : Grid) :
  exists g', getBubble row col g = Ok (cell g row col) g' /\ extends g g' /\
             length g' = length g.
Proof.
  unfold getBubble.
  destruct (Z.ltb_spec row 0) as [Hr|Hr]; simpl.
  { exists g. split_and!; [|apply extends_refl|done].
    f_equal. unfold cell, grid_row.
    destruct ((col <? 0) || (col >=? COLUMNS)); [done|].
    destruct (Z.ltb_spec row 0); [done|lia]. }
  destruct (Z.ltb_spec col 0) as [Hc|Hc]; simpl.
  { exists g. split_and!; [|apply extends_refl|done].
    f_equal. unfold cell. destruct (Z.ltb_spec col 0); [done|lia]. }
  destruct (Z.geb_spec row (Z.of_nat (length g))) as [Hl|Hl]; simpl.
  { exists g. split_and!; [|apply extends_refl|done].
    f_equal. unfold cell. destruct ((col <? 0) || (col >=? COLUMNS)); [done|].
    destruct (grid_row g row) eqn:E; [|done].
    apply grid_row_Some in E. lia. }
  destruct (Z.geb_spec col COLUMNS) as [Hc'|Hc']; simpl.
  { exists g. split_and!; [|apply extends_refl|done].
    f_equal. unfold cell. destruct (Z.geb_spec col COLUMNS); [|lia].
    by rewrite orb_true_r. }
  destruct (ensureRow_spec row g) as (g' & He & Hext & Hsome & Hlen).
  exists g'. rewrite (bind_Ok _ _ _ _ _ He).
  rewrite grid_get_cell by (auto; lia).
  rewrite (extends_cell _ _ _ _ Hext). split_and!; [done|done|].
  apply Hlen. lia.
Qed.

Lemma getNeighbors_loop_spec (row col : Z) (offsets : list (Z * Z)) (acc : list Cell)
      (g : Grid) :
  exists g',
    getNeighbors_loop row col offsets acc g =
      Ok (acc ++ filter (fun n : Cell => 0 <= fst n /\ 0 <= snd n < COLUMNS)
                        (map (fun o : Z * Z => (row + fst o, col + snd o)) offsets)) g'
    /\ extends g g'.
Proof.
  revert acc g. induction offsets as [|o rest IH]; intros acc g.
  - exists g. simpl. rewrite app_nil_r. split; [done|apply extends_refl].
  - simpl getNeighbors_loop. simpl map. rewrite filter_cons. simpl fst. simpl snd.
    destruct (Z.ltb_spec (row + o.1) 0) as [H1|H1]; simpl.
    { rewrite decide_False by lia. apply IH. }
    destruct (Z.ltb_spec (col + o.2) 0) as [H2|H2]; simpl.
    { rewrite decide_False by lia. apply IH. }
    destruct (Z.geb_spec (col + o.2) COLUMNS) as [H3|H3]; simpl.
    { rewrite decide_False by lia. apply IH. }
    rewrite decide_True by lia.
    destruct (ensureRow_spec (row + o.1) g) as (g1 & He & Hext & _).
    rewrite (bind_Ok _ _ _ _ _ He).
    destruct (IH (acc ++ [(row + o.1, col + o.2)]) g1) as (g2 & Hl & Hext2).
    exists g2. rewrite Hl, <- app_assoc. split; [done|].
    by eapply extends_trans.
Qed.

Lemma getNeighbors_spec (row col : Z) (g : Grid) :
  exists g', getNeighbors row col g = Ok (neighbors_of row col) g' /\ extends g g'.
Proof.
  unfold getNeighbors, neighbors_of.
  destruct (getNeighbors_loop_spec row col (if odd_js row then offsetsOdd else offsetsEven)
                                   [] g) as (g' & H & Hext).
  exists g'. by rewrite H.
Qed.

Lemma neighbors_of_range (row col : Z) (n : Cell) :
  n ∈ neighbors_of row col -> 0 <= fst n /\ 0 <= snd n < COLUMNS.
Proof. unfold neighbors_of. rewrite list_elem_of_filter. tauto. Qed.

Lemma neighbors_of_length (row col : Z) : (length (neighbors_of row col) <= 6)%nat.
Proof.
  unfold neighbors_of.
  etransitivity; [apply length_filter|].
  rewrite length_map. by destruct (odd_js row).
Qed.

(** ** Counting the cells that remain *)

Lemma size_diff_insert (X V : gset Cell) (x : Cell) :
  x ∈ X -> x ∉ V -> (size (X ∖ ({[x]} ∪ V)) + 1 = size (X ∖ V))%nat.
Proof.
  intros Hx HV.
  assert (E : X ∖ V = {[x]} ∪ (X ∖ ({[x]} ∪ V))).
  { apply set_eq. intros y. destruct (decide (y = x)) as [->|]; set_solver. }
  rewrite E.
  rewrite (size_union (C:=gset Cell) {[x]} (X ∖ ({[x]} ∪ V))) by set_solver.
  rewrite size_singleton. lia.
Qed.

Lemma size_diff_mono (X V : gset Cell) (x : Cell) :
  (size (X ∖ ({[x]} ∪ V)) <= size (X ∖ V))%nat.
Proof. apply subseteq_size. set_solver. Qed.

Lemma elem_of_all_cells (g : Grid) (p : Cell) :
  p ∈ all_cells g <-> 0 <= fst p < Z.of_nat (length g) /\ 0 <= snd p < COLUMNS.
Proof.
  unfold all_cells. rewrite list_elem_of_bind. split.
  - intros (r & Hp & Hr). apply list_elem_of_bind in Hp as (c & Hp & Hc).
    apply list_elem_of_singleton in Hp as ->. simpl.
    apply elem_of_seqZ in Hr, Hc. lia.
  - intros [Hr Hc]. exists (fst p). split.
    + apply list_elem_of_bind. exists (snd p). split.
      * destruct p. apply list_elem_of_singleton. done.
      * apply elem_of_seqZ. lia.
    + apply elem_of_seqZ. lia.
Qed.

Lemma all_cells_length (g : Grid) :
  length (all_cells g) = (length g * Z.to_nat COLUMNS)%nat.
Proof.
  unfold all_cells.
  assert (Hin : forall (r : Z) (l : list Z),
             length (l ≫= fun c => [(r, c)]) = length l).
  { intros r l. induction l as [|c l IH]; [done|].
    rewrite bind_cons. simpl. by rewrite IH. }
  assert (H : forall l : list Z,
             length (l ≫= fun r => seqZ 0 COLUMNS ≫= fun c => [(r, c)])
             = (length l * Z.to_nat COLUMNS)%nat).
  { induction l as [|r l IH]; [done|].
    rewrite bind_cons, length_app, IH, Hin, length_seqZ. simpl. lia. }
  rewrite H, length_seqZ. lia.
Qed.

Lemma size_cell_set (g : Grid) : (size (cell_set g) <= length g * Z.to_nat COLUMNS)%nat.
Proof.
  unfold cell_set. rewrite <- all_cells_length.
  generalize (all_cells g). intros l. induction l as [|x l IH].
  - rewrite list_to_set_nil, (size_empty (C:=gset Cell)). done.
  - rewrite list_to_set_cons, (size_union_alt (C:=gset Cell) {[x]} (list_to_set l)).
    rewrite size_singleton.
    assert (size (list_to_set l ∖ {[x]} : gset Cell) <= size (list_to_set l : gset Cell))%nat
      by (apply subseteq_size; set_solver).
    simpl length. lia.
Qed.

Lemma occupied_cell_set (g : Grid) (p : Cell) (b : GridBubble.t) :
  cell g (fst p) (snd p) = Some b -> p ∈ cell_set g.
Proof.
  intros H. apply cell_in_range in H. unfold cell_set.
  apply elem_of_list_to_set, elem_of_all_cells. done.
Qed.

(** ** The flood fill *)

Lemma flood_inv_seen (g : Grid) (color : string) (seed current : Cell)
      (visited : gset Cell) (stack : list Cell) (matched : list GridBubble.t)
      (cells : list Cell) :
  flood_inv g color seed visited (current :: stack) matched cells ->
  current ∈ visited ->
  flood_inv g color seed visited stack matched cells.
Proof.
  intros (Hnd & Hcells & Hf2 & Hnb & Hst & Hvis & Hseed) Hin.
  split_and!; try done.
  - intros p n Hp Hn. destruct (Hnb p n Hp Hn) as [?|Hs]; [by left|].
    apply elem_of_cons in Hs as [->|?]; [by left|by right].
  - intros p Hp. apply Hst. by apply elem_of_cons; right.
  - destruct Hseed as [?|Hs]; [by left|].
    apply elem_of_cons in Hs as [->|?]; [by left|by right].
Qed.

Lemma flood_inv_skip (g : Grid) (color : string) (seed current : Cell)
      (visited : gset Cell) (stack : list Cell) (matched : list GridBubble.t)
      (cells : list Cell) :
  flood_inv g color seed visited (current :: stack) matched cells ->
  ~ matchable g color current ->
  flood_inv g color seed ({[current]} ∪ visited) stack matched cells.
Proof.
  intros (Hnd & Hcells & Hf2 & Hnb & Hst & Hvis & Hseed) Hnm.
  split_and!; try done.
  - intros p. rewrite Hcells. split.
    + intros [? ?]. split; [|done]. apply elem_of_union. by right.
    + intros [Hp Hm]. split; [|done].
      apply elem_of_union in Hp as [Hp|Hp]; [|done].
      apply elem_of_singleton in Hp as ->. done.
  - intros p n Hp Hn. destruct (Hnb p n Hp Hn) as [?|Hs].
    + left. apply elem_of_union. by right.
    + apply elem_of_cons in Hs as [->|?]; [left|by right].
      apply elem_of_union. left. by apply elem_of_singleton.
  - intros p Hp. apply Hst. by apply elem_of_cons; right.
  - intros p Hp. apply elem_of_union in Hp as [Hp|Hp]; [|by apply Hvis].
    apply elem_of_singleton in Hp as ->. apply Hst. by apply elem_of_cons; left.
  - destruct Hseed as [?|Hs].
    + left. apply elem_of_union. by right.
    + apply elem_of_cons in Hs as [->|?]; [left|by right].
      apply elem_of_union. left. by apply elem_of_singleton.
Qed.

Lemma flood_inv_match (g : Grid) (color : string) (seed current : Cell)
      (visited : gset Cell) (stack : list Cell) (matched : list GridBubble.t)
      (cells : list Cell) (b : GridBubble.t) :
  flood_inv g color seed visited (current :: stack) matched cells ->
  current ∉ visited ->
  cell g (fst current) (snd current) = Some b ->
  GridBubble.color b = color ->
  flood_inv g color seed ({[current]} ∪ visited)
            (reverse (neighbors_of (fst current) (snd current)) ++ stack)
            (matched ++ [b]) (cells ++ [current]).
Proof.
  intros (Hnd & Hcells & Hf2 & Hnb & Hst & Hvis & Hseed) Hnin Hcell Hcol.
  assert (Hm : matchable g color current) by (exists b; done).
  assert (Hl : linked g color seed current) by (apply Hst; by apply elem_of_cons; left).
  split_and!.
  - apply NoDup_app. split_and!; [done| |apply NoDup_singleton].
    intros p Hp Hp'. apply list_elem_of_singleton in Hp' as ->.
    apply Hcells in Hp as [? _]. done.
  - intros p. rewrite elem_of_app, Hcells, list_elem_of_singleton, elem_of_union,
      elem_of_singleton. split.
    + intros [[? ?]| ->]; [split; [by right|done]|split; [by left|done]].
    + intros [[->|?] ?]; [by right|by left].
  - apply Forall2_app; [done|]. by apply Forall2_cons.
  - intros p n Hp Hn. rewrite elem_of_app, elem_of_reverse, elem_of_union, elem_of_singleton.
    apply elem_of_app in Hp as [Hp|Hp].
    + destruct (Hnb p n Hp Hn) as [?|Hs]; [left; by right|].
      apply elem_of_cons in Hs as [->|?]; [left; by left|right; by right].
    + apply list_elem_of_singleton in Hp as ->. right. by left.
  - intros p Hp. apply elem_of_app in Hp as [Hp|Hp].
    + rewrite elem_of_reverse in Hp. exact (linked_step g color seed current p Hl Hm Hp).
    + apply Hst. by apply elem_of_cons; right.
  - intros p Hp. apply elem_of_union in Hp as [Hp|Hp]; [|by apply Hvis].
    by apply elem_of_singleton in Hp as ->.
  - destruct Hseed as [?|Hs].
    + left. apply elem_of_union. by right.
    + apply elem_of_cons in Hs as [->|?].
      * left. apply elem_of_union. left. by apply elem_of_singleton.
      * right. apply elem_of_app. by right.
Qed.

Lemma collectCluster_loop_spec (g0 : Grid) (color : string) (seed : Cell) :
  forall (fuel : nat) (visited : gset Cell) (stack : list Cell)
         (matched : list GridBubble.t) (cells : list Cell) (g : Grid),
    extends g0 g ->
    flood_inv g0 color seed visited stack matched cells ->
    (length stack + 6 * size (cell_set g0 ∖ visited) < fuel)%nat ->
    exists res cells' visited' g',
      collectCluster_loop fuel color visited stack matched g = Ok res g' /\
      extends g0 g' /\
      flood_inv g0 color seed visited' [] res cells'.
Proof.
  induction fuel as [|fuel IH]; intros visited stack matched cells g Hext Hinv Hfuel; [lia|].
  destruct stack as [|current stack].
  { exists matched, cells, visited, g. done. }
  simpl collectCluster_loop. simpl length in Hfuel.
  destruct (decide (current ∈ visited)) as [Hin|Hnin].
  { apply (IH visited stack matched cells g Hext); [|lia].
    by eapply flood_inv_seen. }
  destruct (getBubble_spec (fst current) (snd current) g) as (g1 & Hgb & Hext1 & _).
  rewrite (bind_Ok _ _ _ _ _ Hgb), (extends_cell _ _ _ _ Hext).
  assert (Hext01 : extends g0 g1) by (by eapply extends_trans).
  pose proof (size_diff_mono (cell_set g0) visited current) as Hmono.
  destruct (cell g0 (fst current) (snd current)) as [b|] eqn:Hcell.
  2: { apply (IH _ stack matched cells g1 Hext01); [|lia].
       eapply flood_inv_skip; [done|]. intros (b & Hb & _). congruence. }
  destruct (String.eqb_spec (GridBubble.color b) color) as [Hcol|Hcol]; cbn [negb].
  - destruct (getNeighbors_spec (fst current) (snd current) g1) as (g2 & Hgn & Hext2).
    rewrite (bind_Ok _ _ _ _ _ Hgn).
    apply (IH _ _ _ (cells ++ [current]) g2).
    + by eapply extends_trans.
    + by apply flood_inv_match.
    + rewrite length_app, length_reverse.
      pose proof (neighbors_of_length (fst current) (snd current)).
      pose proof (size_diff_insert (cell_set g0) visited current
                    (occupied_cell_set _ _ _ Hcell) Hnin).
      lia.
  - apply (IH _ stack matched cells g1 Hext01); [|lia].
    eapply flood_inv_skip; [done|]. intros (b' & Hb & Hc). congruence.
Qed.

Lemma flood_inv_init (g : Grid) (color : string) (seed : Cell) :
  flood_inv g color seed ∅ [seed] [] [].
Proof.
  split_and!.
  - apply NoDup_nil_2.
  - intros p. split; [by intros ?%elem_of_nil|]. intros [?%not_elem_of_empty _]. done.
  - apply Forall2_nil_2.
  - intros p n ?%elem_of_nil. done.
  - intros p ->%list_elem_of_singleton. apply linked_seed.
  - intros p ?%not_elem_of_empty. done.
  - right. by apply list_elem_of_singleton.
Qed.

(** When the loop is over, the cells found are the matchable cells linked to
    the seed. *)
Lemma flood_inv_final (g : Grid) (color : string) (seed : Cell) (visited : gset Cell)
      (matched : list GridBubble.t) (cells : list Cell) :
  flood_inv g color seed visited [] matched cells ->
  forall p, p ∈ cells <-> matchable g color p /\ linked g color seed p.
Proof.
  intros (Hnd & Hcells & Hf2 & Hnb & Hst & Hvis & Hseed) p. split.
  - intros Hp. apply Hcells in Hp as [Hv Hm]. auto.
  - intros [Hm Hl]. revert Hm. induction Hl as [|p n Hl IH Hmp Hn]; intros Hm.
    + apply Hcells. split; [|done].
      destruct Hseed as [?|?%elem_of_nil]; done.
    + apply Hcells. split; [|done].
      destruct (Hnb p n (IH Hmp) Hn) as [?|?%elem_of_nil]; done.
Qed.

Lemma collectCluster_spec (g : Grid) (row col : Z) (color : string) :
  exists cluster cells g',
    collectCluster row col color g = Ok cluster g' /\
    extends g g' /\
    NoDup cells /\
    Forall2 (fun (p : Cell) b => cell g (fst p) (snd p) = Some b) cells cluster /\
    (forall p, p ∈ cells <-> matchable g color p /\ linked g color (row, col) p).
Proof.
  unfold collectCluster.
  destruct (collectCluster_loop_spec g color (row, col) (fuel_for g) ∅ [(row, col)] [] [] g)
    as (res & cells & visited & g' & Hrun & Hext & Hinv).
  - apply extends_refl.
  - apply flood_inv_init.
  - pose proof (size_cell_set g) as Hsz.
    assert (size (cell_set g ∖ ∅) <= size (cell_set g))%nat
      by (apply subseteq_size; set_solver).
    unfold fuel_for. simpl length. lia.
  - exists res, cells, g'. split_and!; try done.
    + by destruct Hinv as (? & _).
    + by destruct Hinv as (_ & _ & ? & _).
    + by eapply flood_inv_final.
Qed.

(** ** The search from the ceiling *)

Lemma checkForFloating_visit_spec (g0 : Grid) :
  forall (ns : list Cell) (visited connected : gset Cell) (queue : list Cell) (g : Grid),
    extends g0 g ->
    exists new visited' connected' queue' g',
      checkForFloating_visit ns visited connected queue g
      = Ok (visited', connected', queue') g' /\
      extends g0 g' /\
      visited' = list_to_set new ∪ visited /\
      connected' = list_to_set new ∪ connected /\
      queue' = queue ++ new /\
      (forall n, n ∈ new -> n ∈ ns /\ occupied g0 n /\ n ∉ visited) /\
      (forall n, n ∈ ns -> occupied g0 n -> n ∈ visited \/ n ∈ new) /\
      (length new + size (cell_set g0 ∖ visited') = size (cell_set g0 ∖ visited))%nat.
Proof.
  induction ns as [|n rest IH]; intros visited connected queue g Hext.
  { exists [], visited, connected, queue, g. simpl.
    split_and!; try done.
    - set_solver.
    - set_solver.
    - by rewrite app_nil_r.
    - intros n ?%elem_of_nil. done.
    - intros n ?%elem_of_nil. done. }
  simpl checkForFloating_visit.
  destruct (decide (n ∈ visited)) as [Hin|Hnin].
  { destruct (IH visited connected queue g Hext)
      as (new & v' & c' & q' & g' & Hrun & Hext' & Hv & Hc & Hq & Hnew & Hall & Hsz).
    exists new, v', c', q', g'. split_and!; try done.
    - intros m Hm. destruct (Hnew m Hm) as (? & ? & ?). split_and!; try done.
      by apply elem_of_cons; right.
    - intros m [->|Hm]%elem_of_cons Hocc; [by left|by apply Hall]. }
  destruct (getBubble_spec (fst n) (snd n) g) as (g1 & Hgb & Hext1 & _).
  rewrite (bind_Ok _ _ _ _ _ Hgb), (extends_cell _ _ _ _ Hext).
  assert (Hext01 : extends g0 g1) by (by eapply extends_trans).
  destruct (cell g0 (fst n) (snd n)) as [b|] eqn:Hcell.
  - destruct (IH ({[n]} ∪ visited) ({[n]} ∪ connected) (queue ++ [n]) g1 Hext01)
      as (new & v' & c' & q' & g' & Hrun & Hext' & Hv & Hc & Hq & Hnew & Hall & Hsz).
    exists (n :: new), v', c', q', g'. split_and!; try done.
    + rewrite Hv, list_to_set_cons. set_solver.
    + rewrite Hc, list_to_set_cons. set_solver.
    + rewrite Hq, <- app_assoc. done.
    + intros m [->|Hm]%elem_of_cons.
      * split_and!; [by apply elem_of_cons; left| |done].
        unfold occupied. rewrite Hcell. eauto.
      * destruct (Hnew m Hm) as (? & ? & Hnv). split_and!; try done.
        -- by apply elem_of_cons; right.
        -- intros ?. apply Hnv. set_solver.
    + intros m [->|Hm]%elem_of_cons Hocc.
      * right. by apply elem_of_cons; left.
      * destruct (Hall m Hm Hocc) as [Hv'|?].
        -- apply elem_of_union in Hv' as [->%elem_of_singleton|?]; [right|by left].
           by apply elem_of_cons; left.
        -- right. by apply elem_of_cons; right.
    + pose proof (size_diff_insert (cell_set g0) visited n
                    (occupied_cell_set _ _ _ Hcell) Hnin).
      simpl length. lia.
  - destruct (IH visited connected queue g1 Hext01)
      as (new & v' & c' & q' & g' & Hrun & Hext' & Hv & Hc & Hq & Hnew & Hall & Hsz).
    exists new, v', c', q', g'. split_and!; try done.
    + intros m Hm. destruct (Hnew m Hm) as (? & ? & ?). split_and!; try done.
      by apply elem_of_cons; right.
    + intros m [->|Hm]%elem_of_cons Hocc; [|by apply Hall].
      unfold occupied in Hocc. rewrite Hcell in Hocc. by destruct Hocc.
Qed.

Lemma checkForFloating_seed_spec (g0 : Grid) :
  forall (cols : list Z) (visited connected : gset Cell) (queue : list Cell) (g : Grid),
    extends g0 g ->
    NoDup cols ->
    (forall col, col ∈ cols -> (0, col) ∉ visited) ->
    exists new visited' connected' queue' g',
      checkForFloating_seed cols visited connected queue g
      = Ok (visited', connected', queue') g' /\
      extends g0 g' /\
      visited' = list_to_set new ∪ visited /\
      connected' = list_to_set new ∪ connected /\
      queue' = queue ++ new /\
      (forall p, p ∈ new <-> exists col, col ∈ cols /\ p = (0, col) /\ occupied g0 p) /\
      (length new + size (cell_set g0 ∖ visited') = size (cell_set g0 ∖ visited))%nat.
Proof.
  induction cols as [|col rest IH]; intros visited connected queue g Hext Hnd Hfresh.
  { exists [], visited, connected, queue, g. simpl.
    split_and!; try done.
    - set_solver.
    - set_solver.
    - by rewrite app_nil_r.
    - intros p. split; [by intros ?%elem_of_nil|].
      intros (c & ?%elem_of_nil & _). done. }
  simpl checkForFloating_seed.
  apply NoDup_cons in Hnd as [Hncol Hnd].
  destruct (getBubble_spec 0 col g) as (g1 & Hgb & Hext1 & _).
  rewrite (bind_Ok _ _ _ _ _ Hgb), (extends_cell _ _ _ _ Hext).
  assert (Hext01 : extends g0 g1) by (by eapply extends_trans).
  destruct (cell g0 0 col) as [b|] eqn:Hcell.
  - destruct (IH ({[(0, col)]} ∪ visited) ({[(0, col)]} ∪ connected)
                 (queue ++ [(0, col)]) g1 Hext01 Hnd)
      as (new & v' & c' & q' & g' & Hrun & Hext' & Hv & Hc & Hq & Hnew & Hsz).
    { intros c Hc Hin. apply elem_of_union in Hin as [Hin|Hin].
      - apply elem_of_singleton in Hin. congruence.
      - apply (Hfresh c); [by apply elem_of_cons; right|done]. }
    exists ((0, col) :: new), v', c', q', g'. split_and!; try done.
    + rewrite Hv, list_to_set_cons. set_solver.
    + rewrite Hc, list_to_set_cons. set_solver.
    + rewrite Hq, <- app_assoc. done.
    + intros p. rewrite elem_of_cons, Hnew. split.
      * intros [->|(c & Hc' & -> & Hocc)].
        -- exists col. split_and!; [by apply elem_of_cons; left|done|].
           unfold occupied. simpl. rewrite Hcell. eauto.
        -- exists c. split_and!; [by apply elem_of_cons; right|done|done].
      * intros (c & [->|Hc']%elem_of_cons & -> & Hocc); [by left|right]. eauto.
    + assert (Hn : (0, col) ∉ visited) by (apply Hfresh; by apply elem_of_cons; left).
      pose proof (size_diff_insert (cell_set g0) visited (0, col)
                    (occupied_cell_set _ (0, col) _ Hcell) Hn).
      simpl length. lia.
  - destruct (IH visited connected queue g1 Hext01 Hnd)
      as (new & v' & c' & q' & g' & Hrun & Hext' & Hv & Hc & Hq & Hnew & Hsz).
    { intros c Hc. apply Hfresh. by apply elem_of_cons; right. }
    exists new, v', c', q', g'. split_and!; try done.
    intros p. rewrite Hnew. split.
    + intros (c & Hc' & -> & Hocc). exists c. split_and!; try done.
      by apply elem_of_cons; right.
    + intros (c & [->|Hc']%elem_of_cons & -> & Hocc); [|eauto].
      unfold occupied in Hocc. simpl in Hocc. rewrite Hcell in Hocc. by destruct Hocc.
Qed.

Lemma checkForFloating_bfs_spec (g0 : Grid) :
  forall (fuel : nat) (visited connected : gset Cell) (queue : list Cell) (g : Grid),
    extends g0 g ->
    bfs_inv g0 visited connected queue ->
    (length queue + size (cell_set g0 ∖ visited) < fuel)%nat ->
    exists connected' g',
      checkForFloating_bfs fuel visited connected queue g = Ok connected' g' /\
      extends g0 g' /\
      bfs_inv g0 connected' connected' [].
Proof.
  induction fuel as [|fuel IH]; intros visited connected queue g Hext Hinv Hfuel; [lia|].
  destruct queue as [|current queue].
  { exists connected, g. destruct Hinv as (-> & ? & ? & ? & ?). done. }
  simpl checkForFloating_bfs. simpl length in Hfuel.
  destruct (getNeighbors_spec (fst current) (snd current) g) as (g1 & Hgn & Hext1).
  rewrite (bind_Ok _ _ _ _ _ Hgn).
  assert (Hext01 : extends g0 g1) by (by eapply extends_trans).
  destruct (checkForFloating_visit_spec g0 (neighbors_of (fst current) (snd current))
              visited connected queue g1 Hext01)
    as (new & v' & c' & q' & g2 & Hrun & Hext2 & Hv & Hc & Hq & Hnew & Hall & Hsz).
  rewrite (bind_Ok _ _ _ _ _ Hrun). cbv beta iota.
  destruct Hinv as (Heq & Hsound & Htop & Hqueue & Hclosed). subst visited.
  apply (IH v' c' q' g2 Hext2).
  2: { subst q'. rewrite length_app. lia. }
  assert (Hcur : reachable g0 current) by (apply Hsound, Hqueue; by apply elem_of_cons; left).
  subst v' c' q'. split_and!.
  - done.
  - intros p [Hp|Hp]%elem_of_union; [|by apply Hsound].
    apply elem_of_list_to_set in Hp. destruct (Hnew p Hp) as (Hn & Hocc & _).
    exact (reachable_step g0 current p Hcur Hn Hocc).
  - intros col Hocc. apply elem_of_union. right. by apply Htop.
  - intros p [Hp|Hp]%elem_of_app; apply elem_of_union.
    + right. apply Hqueue. by apply elem_of_cons; right.
    + left. by apply elem_of_list_to_set.
  - intros p [Hp|Hp]%elem_of_union.
    { left. apply elem_of_app. right. by apply elem_of_list_to_set in Hp. }
    destruct (Hclosed p Hp) as [[->|Hq]%elem_of_cons|Hcl].
    + right. intros n Hn Hocc. apply elem_of_union.
      destruct (Hall n Hn Hocc) as [?|?]; [by right|left].
      by apply elem_of_list_to_set.
    + left. apply elem_of_app. by left.
    + right. intros n Hn Hocc. apply elem_of_union. right. by apply Hcl.
Qed.

(** When the search is over, [connected] holds the cells linked to the
    ceiling, and no other. *)
Lemma bfs_inv_final (g : Grid) (connected : gset Cell) :
  bfs_inv g connected connected [] ->
  forall p, p ∈ connected <-> reachable g p.
Proof.
  intros (_ & Hsound & Htop & _ & Hclosed) p. split; [apply Hsound|].
  induction 1 as [col Hocc|p n Hp IH Hn Hocc].
  - by apply Htop.
  - destruct (Hclosed p IH) as [?%elem_of_nil|Hcl]; [done|]. by apply Hcl.
Qed.

Lemma reachable_occupied (g : Grid) (p : Cell) : reachable g p -> occupied g p.
Proof. by destruct 1. Qed.

(** The two first loops of [checkForFloating] together. *)
Lemma checkForFloating_search (g : Grid) :
  exists visited connected queue g1 connected' g2,
    checkForFloating_seed (seqZ 0 COLUMNS) ∅ ∅ [] g = Ok (visited, connected, queue) g1 /\
    checkForFloating_bfs (fuel_for g) visited connected queue g1 = Ok connected' g2 /\
    extends g g2 /\
    forall p, p ∈ connected' <-> reachable g p.
Proof.
  destruct (checkForFloating_seed_spec g (seqZ 0 COLUMNS) ∅ ∅ [] g)
    as (new & v & c & q & g1 & Hrun & Hext1 & Hv & Hc & Hq & Hnew & Hsz).
  { apply extends_refl. }
  { apply NoDup_seqZ. }
  { intros col _. apply not_elem_of_empty. }
  rewrite app_nil_l in Hq.
  assert (Hinv : bfs_inv g v c q).
  { subst v c q. split_and!.
    - done.
    - intros p [Hp|Hp]%elem_of_union; [|by apply not_elem_of_empty in Hp].
      apply elem_of_list_to_set, Hnew in Hp as (col & _ & -> & Hocc).
      by apply reachable_top.
    - intros col Hocc. apply elem_of_union. left. apply elem_of_list_to_set, Hnew.
      exists col. split_and!; try done.
      destruct Hocc as [b Hb]. apply cell_in_range in Hb.
      apply elem_of_seqZ. unfold fst, snd in Hb. lia.
    - intros p Hp. apply elem_of_union. left. by apply elem_of_list_to_set.
    - intros p [Hp|Hp]%elem_of_union; [|by apply not_elem_of_empty in Hp].
      left. by apply elem_of_list_to_set in Hp. }
  destruct (checkForFloating_bfs_spec g (fuel_for g) v c q g1 Hext1 Hinv)
    as (c' & g2 & Hrun2 & Hext2 & Hfin).
  { subst q.
    pose proof (size_cell_set g) as Hs1.
    assert (Hs2 : (size (cell_set g ∖ ∅) <= size (cell_set g))%nat)
      by (apply subseteq_size, subseteq_difference_l; done).
    unfold fuel_for.
    generalize dependent (size (cell_set g ∖ v)).
    generalize dependent (size (cell_set g ∖ ∅)).
    generalize dependent (size (cell_set g)).
    generalize (length g * Z.to_nat COLUMNS)%nat.
    intros. lia. }
  exists v, c, q, g1, c', g2. split_and!; try done.
  by apply bfs_inv_final.
Qed.

(** ** The sweep *)

Lemma filter_ext_elem {A : Type} (P Q : A -> Prop) `{!forall x, Decision (P x)}
      `{!forall x, Decision (Q x)} (l : list A) :
  (forall x, x ∈ l -> (P x <-> Q x)) -> filter P l = filter Q l.
Proof.
  induction l as [|x l IH]; intros HPQ; [done|].
  rewrite !filter_cons.
  rewrite IH by (intros y Hy; apply HPQ; by apply elem_of_cons; right).
  assert (Hx : P x <-> Q x) by (apply HPQ; by apply elem_of_cons; left).
  destruct (decide (P x)), (decide (Q x)); tauto.
Qed.

Lemma floating_same (g g' : Grid) (connected : gset Cell) (p : Cell) :
  cell g' (fst p) (snd p) = cell g (fst p) (snd p) ->
  floating g' connected p <-> floating g connected p.
Proof. intros H. unfold floating, occupied. by rewrite H. Qed.

Lemma checkForFloating_sweep_cols_spec (connected : gset Cell) (row : Z) :
  forall (cols : list Z) (removed : Z) (g : Grid),
    is_Some (grid_row g row) ->
    NoDup cols ->
    (forall c, c ∈ cols -> 0 <= c < COLUMNS) ->
    exists g',
      checkForFloating_sweep_cols connected row cols removed g
      = Ok (removed + Z.of_nat (length (filter (floating g connected)
                                               (cols ≫= fun c => [(row, c)])))) g' /\
      length g' = length g /\
      (forall r, is_Some (grid_row g' r) <-> is_Some (grid_row g r)) /\
      (forall r c, cell g' r c =
                   if decide (r = row /\ c ∈ cols /\ (r, c) ∉ connected) then None
                   else cell g r c).
Proof.
  induction cols as [|col rest IH]; intros removed g Hrow Hnd Hrange.
  { exists g. simpl. rewrite Z.add_0_r. split_and!; try done.
    intros r c. rewrite decide_False; [done|]. intros (_ & ?%elem_of_nil & _). done. }
  apply NoDup_cons in Hnd as [Hncol Hnd].
  assert (Hcol : 0 <= col < COLUMNS) by (apply Hrange; by apply elem_of_cons; left).
  assert (Hrest : forall c, c ∈ rest -> 0 <= c < COLUMNS)
    by (intros c Hc; apply Hrange; by apply elem_of_cons; right).
  simpl checkForFloating_sweep_cols.
  rewrite (bind_Ok _ _ _ _ _ (grid_get_cell g row col Hrow Hcol)).
  rewrite bind_cons. change ([(row, col)] ++ ?l) with ((row, col) :: l).
  destruct (cell g row col) as [b|] eqn:Hcell.
  2: { destruct (IH removed g Hrow Hnd Hrest) as (g' & Hrun & Hlen & Hrows & Hcells).
       exists g'. rewrite filter_cons_False.
       2: { intros [[b Hb] _]. simpl in Hb. congruence. }
       split_and!; try done.
       intros r c. rewrite Hcells.
       destruct (decide (r = row /\ c ∈ rest /\ (r, c) ∉ connected)) as [(-> & ? & ?)|Hn].
       - rewrite decide_True; [done|]. split_and!; try done. by apply elem_of_cons; right.
       - destruct (decide (r = row /\ c ∈ col :: rest /\ (r, c) ∉ connected))
           as [(-> & [->|?]%elem_of_cons & ?)|]; [done| |done].
         exfalso. apply Hn. done. }
  destruct (decide ((row, col) ∈ connected)) as [Hin|Hnin].
  { destruct (IH removed g Hrow Hnd Hrest) as (g' & Hrun & Hlen & Hrows & Hcells).
    exists g'. rewrite filter_cons_False by (intros [_ ?]; done).
    split_and!; try done.
    intros r c. rewrite Hcells.
    destruct (decide (r = row /\ c ∈ rest /\ (r, c) ∉ connected)) as [(-> & ? & ?)|Hn].
    - rewrite decide_True; [done|]. split_and!; try done. by apply elem_of_cons; right.
    - destruct (decide (r = row /\ c ∈ col :: rest /\ (r, c) ∉ connected))
        as [(-> & [->|?]%elem_of_cons & ?)|]; [done| |done].
      exfalso. apply Hn. done. }
  destruct (grid_set_spec g row col None Hrow Hcol) as (g1 & Hset & Hlen1 & Hrows1 & Hcells1).
  rewrite (bind_Ok _ _ _ _ _ Hset).
  destruct (IH (removed + 1) g1 (proj2 (Hrows1 row) Hrow) Hnd Hrest)
    as (g' & Hrun & Hlen & Hrows & Hcells).
  exists g'. rewrite Hrun.
  rewrite filter_cons_True by (split; [unfold occupied; simpl; rewrite Hcell; eauto|done]).
  rewrite (filter_ext_elem (floating g1 connected) (floating g connected)).
  2: { intros p Hp. apply floating_same. rewrite Hcells1.
       apply list_elem_of_bind in Hp as (c & ->%list_elem_of_singleton & Hc). simpl.
       rewrite decide_False; [done|]. intros [= ->]. done. }
  split_and!.
  - f_equal. simpl length. lia.
  - congruence.
  - intros r. rewrite Hrows. apply Hrows1.
  - intros r c. rewrite Hcells, Hcells1.
    destruct (decide (r = row /\ c ∈ rest /\ (r, c) ∉ connected)) as [(-> & ? & ?)|Hn].
    + rewrite decide_True; [done|]. split_and!; try done. by apply elem_of_cons; right.
    + destruct (decide ((r, c) = (row, col))) as [[= -> ->]|Hne].
      * rewrite decide_True; [done|]. split_and!; try done. by apply elem_of_cons; left.
      * destruct (decide (r = row /\ c ∈ col :: rest /\ (r, c) ∉ connected))
          as [(-> & [->|?]%elem_of_cons & ?)|]; [done| |done].
        exfalso. apply Hn. done.
Qed.

Lemma checkForFloating_sweep_rows_spec (connected : gset Cell) :
  forall (rows : list Z) (removed : Z) (g : Grid),
    NoDup rows ->
    (forall r, r ∈ rows -> 0 <= r < Z.of_nat (length g)) ->
    exists g',
      checkForFloating_sweep_rows connected rows removed g
      = Ok (removed + Z.of_nat (length (filter (floating g connected)
                 (rows ≫= fun r => seqZ 0 COLUMNS ≫= fun c => [(r, c)])))) g' /\
      length g' = length g /\
      (forall r c, cell g' r c =
                   if decide (r ∈ rows /\ (r, c) ∉ connected) then None
                   else cell g r c).
Proof.
  induction rows as [|row rest IH]; intros removed g Hnd Hrange.
  { exists g. simpl. rewrite Z.add_0_r. split_and!; done. }
  apply NoDup_cons in Hnd as [Hnrow Hnd].
  assert (Hrow : 0 <= row < Z.of_nat (length g)) by (apply Hrange; by apply elem_of_cons; left).
  cbn [checkForFloating_sweep_rows].
  destruct (ensureRow_spec row g) as (g1 & He & Hext & Hsome & Hlen1).
  rewrite (bind_Ok _ _ _ _ _ He).
  destruct (checkForFloating_sweep_cols_spec connected row (seqZ 0 COLUMNS) removed g1)
    as (g2 & Hrun2 & Hlen2 & Hrows2 & Hcells2).
  { apply Hsome. lia. }
  { apply NoDup_seqZ. }
  { intros c Hc%elem_of_seqZ. lia. }
  rewrite (bind_Ok _ _ _ _ _ Hrun2).
  destruct (IH (removed + Z.of_nat (length (filter (floating g1 connected)
                 (seqZ 0 COLUMNS ≫= fun c => [(row, c)])))) g2 Hnd)
    as (g3 & Hrun3 & Hlen3 & Hcells3).
  { intros r Hr. rewrite Hlen2, Hlen1 by lia. apply Hrange. by apply elem_of_cons; right. }
  exists g3. rewrite Hrun3. split_and!.
  - f_equal. rewrite bind_cons, filter_app, length_app.
    rewrite (filter_ext_elem (floating g1 connected) (floating g connected)
               (seqZ 0 COLUMNS ≫= _)).
    2: { intros p _. apply floating_same. by apply extends_cell. }
    rewrite (filter_ext_elem (floating g2 connected) (floating g connected)
               (rest ≫= _)).
    2: { intros p Hp. apply floating_same.
         rewrite Hcells2, (extends_cell _ _ _ _ Hext).
         apply list_elem_of_bind in Hp as (r & Hp & Hr).
         apply list_elem_of_bind in Hp as (c & ->%list_elem_of_singleton & Hc). simpl.
         rewrite decide_False; [done|]. intros (-> & _). done. }
    lia.
  - rewrite Hlen3, Hlen2. apply Hlen1. lia.
  - intros r c. rewrite Hcells3, Hcells2, (extends_cell _ _ _ _ Hext).
    destruct (decide (r ∈ rest /\ (r, c) ∉ connected)) as [[? ?]|Hn].
    + rewrite decide_True; [done|]. split; [by apply elem_of_cons; right|done].
    + destruct (decide (r = row /\ c ∈ seqZ 0 COLUMNS /\ (r, c) ∉ connected))
        as [(-> & ? & ?)|Hn2].
      * rewrite decide_True; [done|]. split; [by apply elem_of_cons; left|done].
      * destruct (decide (r ∈ row :: rest /\ (r, c) ∉ connected))
          as [([->|?]%elem_of_cons & Hc)|]; [| |done].
        -- destruct (decide (c ∈ seqZ 0 COLUMNS)) as [Hin|Hout].
           ++ exfalso. apply Hn2. done.
           ++ unfold cell. rewrite elem_of_seqZ in Hout.
              destruct (Z.ltb_spec c 0), (Z.geb_spec c COLUMNS); simpl; try done. lia.
        -- exfalso. apply Hn. done.
Qed.

Lemma all_cells_NoDup (g : Grid) : NoDup (all_cells g).
Proof.
  unfold all_cells. apply NoDup_bind.
  - intros r1 r2 p _ _ H1 H2.
    apply list_elem_of_bind in H1 as (c1 & ->%list_elem_of_singleton & _).
    apply list_elem_of_bind in H2 as (c2 & [= -> _]%list_elem_of_singleton & _). done.
  - intros r _. apply NoDup_bind.
    + intros c1 c2 p _ _ ->%list_elem_of_singleton [= ->]%list_elem_of_singleton. done.
    + intros c _. apply NoDup_singleton.
    + apply NoDup_seqZ.
  - apply NoDup_seqZ.
Qed.

Lemma checkForFloating_sweep_spec (connected : gset Cell) (g : Grid) :
  exists g',
    checkForFloating_sweep connected g
    = Ok (Z.of_nat (length (filter (floating g connected) (all_cells g)))) g' /\
    length g' = length g /\
    (forall r c, cell g' r c = if decide ((r, c) ∈ connected) then cell g r c else None).
Proof.
  unfold checkForFloating_sweep.
  destruct (checkForFloating_sweep_rows_spec connected (seqZ 0 (Z.of_nat (length g))) 0 g)
    as (g' & Hrun & Hlen & Hcells).
  { apply NoDup_seqZ. }
  { intros r Hr%elem_of_seqZ. lia. }
  exists g'. rewrite Hrun, Z.add_0_l. split_and!; try done.
  intros r c. rewrite Hcells.
  destruct (decide ((r, c) ∈ connected)) as [Hin|Hnin].
  - rewrite decide_False; [done|]. intros [_ ?]. done.
  - destruct (decide (r ∈ seqZ 0 (Z.of_nat (length g)) /\ (r, c) ∉ connected)) as [|Hn];
      [done|].
    destruct (cell g r c) as [b|] eqn:Hb; [|done].
    exfalso. apply Hn. split; [|done].
    apply cell_in_range in Hb. apply elem_of_seqZ. lia.
Qed.

(** ** The cleanup as a whole *)

Lemma on_grid_Ok {A : Type} (m : M Grid A) (st : Game) (a : A) (g : Grid) :
  m (grid st) = Ok a g -> on_grid m st = Ok a (set_grid g st).
Proof. intros H. unfold on_grid. by rewrite H. Qed.

Lemma filter_none {A : Type} (P : A -> Prop) `{!forall x, Decision (P x)} (l : list A) :
  (forall x, x ∈ l -> ~ P x) -> filter P l = [].
Proof.
  induction l as [|x l IH]; intros HP; [done|].
  rewrite filter_cons_False by (apply HP; by apply elem_of_cons; left).
  apply IH. intros y Hy. apply HP. by apply elem_of_cons; right.
Qed.

Lemma filter_floating_extends (g g' : Grid) (connected : gset Cell) :
  extends g g' ->
  filter (floating g' connected) (all_cells g') = filter (floating g connected) (all_cells g).
Proof.
  intros Hext. pose proof (extends_length _ _ Hext) as Hlen.
  unfold all_cells.
  replace (Z.of_nat (length g'))
    with (Z.of_nat (length g) + (Z.of_nat (length g') - Z.of_nat (length g))) by lia.
  rewrite seqZ_app by lia. rewrite bind_app, filter_app.
  rewrite (filter_none _ (seqZ (0 + Z.of_nat (length g)) _ ≫= _)).
  2: { intros p Hp [[b Hb] _].
       rewrite (extends_cell _ _ _ _ Hext) in Hb. apply cell_in_range in Hb.
       apply list_elem_of_bind in Hp as (r & Hp & Hr%elem_of_seqZ).
       apply list_elem_of_bind in Hp as (c & ->%list_elem_of_singleton & _).
       simpl in Hb. lia. }
  rewrite app_nil_r. apply filter_ext_elem.
  intros p _. apply floating_same. by apply extends_cell.
Qed.

Lemma checkForFloating_spec (st : Game) :
  exists st',
    checkForFloating st = Ok tt st' /\
    same_controls st st' /\
    (forall p, reachable (grid st) p ->
               cell (grid st') (fst p) (snd p) = cell (grid st) (fst p) (snd p)) /\
    (forall p, ~ reachable (grid st) p -> cell (grid st') (fst p) (snd p) = None) /\
    (forall p, occupied (grid st') p -> reachable (grid st) p) /\
    score st' = score st + Z.of_nat (length (removed_cells (grid st) (grid st'))) * 150.
Proof.
  unfold checkForFloating.
  destruct (Nat.eqb_spec (length (grid st)) 0) as [Hz|Hnz].
  { exists st. split_and!; try done.
    - intros p Hn. destruct (cell (grid st) p.1 p.2) as [b|] eqn:Hb; [|done].
      apply cell_in_range in Hb. lia.
    - intros p [b Hb]. apply cell_in_range in Hb. lia.
    - unfold removed_cells, all_cells. rewrite Hz. simpl. lia. }
  destruct (checkForFloating_search (grid st))
    as (v & c & q & g1 & c' & g2 & Hseed & Hbfs & Hext & Hreach).
  rewrite (bind_Ok _ _ _ _ _ (on_grid_Ok _ _ _ _ Hseed)). cbv beta iota.
  rewrite (bind_Ok _ _ _ _ _ (on_grid_Ok _ (set_grid g1 st) _ _ Hbfs)).
  destruct (checkForFloating_sweep_spec c' g2) as (g3 & Hsweep & Hlen & Hcells).
  rewrite (bind_Ok _ _ _ _ _ (on_grid_Ok _ (set_grid g2 (set_grid g1 st)) _ _ Hsweep)).
  rewrite (filter_floating_extends (grid st) g2 c' Hext).
  assert (Hc3 : forall p : Cell, cell g3 p.1 p.2 =
                        if decide (p ∈ c') then cell (grid st) p.1 p.2 else None).
  { intros [r c0]. simpl. rewrite Hcells, (extends_cell _ _ _ _ Hext). done. }
  assert (Hrem : removed_cells (grid st) g3 = filter (floating (grid st) c') (all_cells (grid st))).
  { unfold removed_cells. apply filter_ext_elem. intros p _.
    unfold floating, occupied. rewrite Hc3.
    destruct (decide (p ∈ c')) as [Hin|Hnin].
    - split; [intros [? ?]; done|]. intros [_ ?]. done.
    - split; [intros [? _]; done|]. intros [? _]. split; [done|]. by intros [? ?]. }
  set (n := length (filter (floating (grid st) c') (all_cells (grid st)))) in *.
  assert (Hfin : forall st3, grid st3 = g3 -> same_controls st st3 ->
             (forall p, reachable (grid st) p ->
                        cell (grid st3) p.1 p.2 = cell (grid st) p.1 p.2) /\
             (forall p, ~ reachable (grid st) p -> cell (grid st3) p.1 p.2 = None) /\
             (forall p, occupied (grid st3) p -> reachable (grid st) p)).
  { intros st3 -> _. split_and!; intros p Hp.
    - rewrite Hc3, decide_True; [done|]. by apply Hreach.
    - rewrite Hc3, decide_False; [done|]. by rewrite Hreach.
    - unfold occupied in Hp. rewrite Hc3 in Hp.
      destruct (decide (p ∈ c')) as [Hin|Hnin]; [by apply Hreach|].
      by destruct Hp. }
  destruct (Z.eqb_spec (Z.of_nat n) 0) as [Hn0|Hn0].
  - eexists. split; [reflexivity|].
    destruct (Hfin (set_grid g3 (set_grid g2 (set_grid g1 st))) eq_refl) as (H1 & H2 & H3); [done|].
    split_and!; try done.
    simpl. rewrite Hrem. fold n. lia.
  - eexists. split; [reflexivity|].
    destruct (Hfin (set_score (score st + Z.of_nat n * 150)
                              (set_grid g3 (set_grid g2 (set_grid g1 st)))) eq_refl)
      as (H1 & H2 & H3); [done|].
    split_and!; try done.
    simpl. rewrite Hrem. fold n. done.
Qed.

Lemma consistentb_sound (g : Grid) : consistentb g = true -> consistent g.
Proof.
  unfold consistentb. rewrite forallb_forall. intros H r c b Hb.
  specialize (H (r, c)). simpl in H. rewrite Hb in H.
  assert (Hin : In (r, c) (all_cells g)).
  { apply list_elem_of_In, elem_of_all_cells. by apply cell_in_range in Hb. }
  apply H, andb_true_iff in Hin as [H1%Z.eqb_eq H2%Z.eqb_eq].
  unfold cell_of. congruence.
Qed.

Lemma odd_js_even (n : Z) : odd_js n = negb (Z.even n).
Proof.
  unfold odd_js. f_equal.
  destruct (Z.eqb_spec (Z.rem n 2) 0) as [H|H], (Z.even n) eqn:E; try done.
  - apply Z.rem_divide in H; [|done]. destruct H as [k ->].
    rewrite Z.mul_comm, Z.even_mul in E. done.
  - apply Z.even_spec in E as [k ->]. exfalso. apply H.
    apply Z.rem_divide; [done|]. exists k. lia.
Qed.

Lemma neighbors_of_spec (row col : Z) : neighbors_of row col = spec_neighbors row col.
Proof.
  unfold neighbors_of, spec_neighbors, spec_offsets. rewrite odd_js_even.
  by destruct (Z.even row).
Qed.

(** ** The claims *)

(** C3. After [checkForFloating], every cell that is still occupied is
    reachable from an occupied cell of row 0, going from neighbour to
    neighbour through cells that are still occupied. *)
Theorem checkForFloating_no_orphan (st : Game) :
  exists st',
    checkForFloating st = Ok tt st' /\
    forall p, occupied (grid st') p -> reachable (grid st') p.
Proof.
  destruct (checkForFloating_spec st) as (st' & Hrun & _ & Hkeep & _ & Hsurv & _).
  exists st'. split; [done|].
  assert (Hmono : forall p, reachable (grid st) p -> reachable (grid st') p).
  { induction 1 as [col Hocc|p n Hp IH Hn Hocc].
    - apply reachable_top. unfold occupied.
      rewrite (Hkeep (0, col)); [done|]. by apply reachable_top.
    - apply (reachable_step _ p n IH Hn). unfold occupied.
      rewrite (Hkeep n); [done|]. exact (reachable_step _ p n Hp Hn Hocc). }
  intros p Hocc. by apply Hmono, Hsurv.
Qed.

Lemma Forall2_elem_of_r {A B : Type} (P : A -> B -> Prop) (l : list A) (k : list B) (y : B) :
  Forall2 P l k -> y ∈ k -> exists x, x ∈ l /\ P x y.
Proof.
  induction 1 as [|x y' l k Hxy HF IH]; intros Hy.
  - by apply elem_of_nil in Hy.
  - apply elem_of_cons in Hy as [->|Hy].
    + exists x. split; [by apply elem_of_cons; left|done].
    + destruct (IH Hy) as (x' & ? & ?). exists x'. split; [by apply elem_of_cons; right|done].
Qed.

Lemma Forall2_elem_of_l {A B : Type} (P : A -> B -> Prop) (l : list A) (k : list B) (x : A) :
  Forall2 P l k -> x ∈ l -> exists y, y ∈ k /\ P x y.
Proof.
  induction 1 as [|x' y l k Hxy HF IH]; intros Hx.
  - by apply elem_of_nil in Hx.
  - apply elem_of_cons in Hx as [->|Hx].
    + exists y. split; [by apply elem_of_cons; left|done].
    + destruct (IH Hx) as (y' & ? & ?). exists y'. split; [by apply elem_of_cons; right|done].
Qed.

(** C4. The flood fill from an occupied seed, for the colour of the seed,
    returns only bubbles that are in the grid, at the position they record,
    with that colour; it returns the seed; and every occupied neighbour of a
    returned cell that has the colour is returned too. *)
Theorem collectCluster_maximal (g : Grid) (row col : Z) (origin : GridBubble.t) :
  consistent g ->
  cell g row col = Some origin ->
  exists cluster g',
    collectCluster row col (GridBubble.color origin) g = Ok cluster g' /\
    (forall b, b ∈ cluster ->
               cell g (GridBubble.row b) (GridBubble.col b) = Some b /\
               GridBubble.color b = GridBubble.color origin) /\
    origin ∈ cluster /\
    (forall b n b',
        b ∈ cluster ->
        n ∈ neighbors_of (GridBubble.row b) (GridBubble.col b) ->
        cell g (fst n) (snd n) = Some b' ->
        GridBubble.color b' = GridBubble.color origin ->
        b' ∈ cluster).
Proof.
  intros Hcons Hseed.
  destruct (collectCluster_spec g row col (GridBubble.color origin))
    as (cluster & cells & g' & Hrun & _ & _ & Hf2 & Hcells).
  exists cluster, g'. split; [done|].
  assert (Hmem : forall b, b ∈ cluster ->
            cell_of b ∈ cells /\ cell g (GridBubble.row b) (GridBubble.col b) = Some b).
  { intros b Hb. destruct (Forall2_elem_of_r _ _ _ _ Hf2 Hb) as (p & Hp & Hpb).
    destruct p as [r c]. pose proof (Hcons _ _ _ Hpb) as E. rewrite E.
    unfold cell_of in E. injection E as -> ->. done. }
  assert (Hback : forall p b, p ∈ cells -> cell g (fst p) (snd p) = Some b -> b ∈ cluster).
  { intros p b Hp Hb. destruct (Forall2_elem_of_l _ _ _ _ Hf2 Hp) as (b' & Hb' & Hpb).
    congruence. }
  split_and!.
  - intros b Hb. destruct (Hmem b Hb) as [Hin Hc]. split; [done|].
    apply Hcells in Hin as [(b' & Hb' & Hcol) _]. unfold cell_of in Hb'. simpl in Hb'.
    congruence.
  - apply (Hback (row, col)); [|done]. apply Hcells. split.
    + exists origin. done.
    + apply linked_seed.
  - intros b n b' Hb Hn Hb' Hcol. apply (Hback n); [|done].
    destruct (Hmem b Hb) as [Hin _]. apply Hcells in Hin as [Hm Hl].
    apply Hcells. split.
    + exists b'. done.
    + exact (linked_step _ _ _ (cell_of b) n Hl Hm Hn).
Qed.

(** C5. [getNeighbors(row, col)] returns the cells that the table of offsets
    gives for the parity of the row, those in range only, in the order of
    the table: at most six cells, each with a row that is not negative and a
    column from [0] to [COLUMNS - 1]. *)
Theorem getNeighbors_table (row col : Z) (g : Grid) :
  exists g',
    getNeighbors row col g = Ok (spec_neighbors row col) g' /\
    (length (spec_neighbors row col) <= 6)%nat /\
    Forall (fun n : Cell => 0 <= fst n /\ 0 <= snd n <= COLUMNS - 1)
           (spec_neighbors row col).
Proof.
  destruct (getNeighbors_spec row col g) as (g' & Hrun & _).
  exists g'. rewrite <- neighbors_of_spec. split_and!.
  - done.
  - apply neighbors_of_length.
  - apply Forall_forall. intros n Hn%neighbors_of_range. lia.
Qed.

Lemma removeCluster_spec (cluster : list GridBubble.t) :
  forall g : Grid,
    (forall b, b ∈ cluster -> 0 <= GridBubble.col b < COLUMNS) ->
    exists g',
      removeCluster cluster g = Ok tt g' /\
      length g' = length g /\
      (forall r c, cell g' r c =
                   if decide ((r, c) ∈ cell_of <$> cluster) then None else cell g r c).
Proof.
  induction cluster as [|b rest IH]; intros g Hcols.
  { exists g. split_and!; done. }
  cbn [removeCluster].
  assert (Hb : 0 <= GridBubble.col b < COLUMNS) by (apply Hcols; by apply elem_of_cons; left).
  assert (Hrest : forall b', b' ∈ rest -> 0 <= GridBubble.col b' < COLUMNS)
    by (intros b' Hb'; apply Hcols; by apply elem_of_cons; right).
  destruct (grid_row g (GridBubble.row b)) as [rw|] eqn:Hrow.
  - destruct (grid_set_spec g (GridBubble.row b) (GridBubble.col b) None) as
      (g1 & Hset & Hlen1 & _ & Hcells1); [by rewrite Hrow|done|].
    rewrite (bind_Ok _ _ _ _ _ Hset).
    destruct (IH g1 Hrest) as (g' & Hrun & Hlen & Hcells).
    exists g'. split_and!; [done|congruence|].
    intros r c. rewrite Hcells, Hcells1, fmap_cons.
    destruct (decide ((r, c) ∈ cell_of <$> rest)) as [Hin|Hnin].
    + rewrite decide_True; [done|]. by apply elem_of_cons; right.
    + destruct (decide ((r, c) = (GridBubble.row b, GridBubble.col b))) as [E|Hne].
      * rewrite decide_True; [done|]. apply elem_of_cons. left. done.
      * rewrite decide_False; [done|]. intros [E|?]%elem_of_cons; [|done].
        apply Hne. done.
  - destruct (IH g Hrest) as (g' & Hrun & Hlen & Hcells).
    exists g'. split_and!; try done.
    intros r c. rewrite Hcells, fmap_cons.
    destruct (decide ((r, c) ∈ cell_of <$> rest)) as [Hin|Hnin].
    + rewrite decide_True; [done|]. by apply elem_of_cons; right.
    + destruct (decide ((r, c) ∈ cell_of b :: (cell_of <$> rest)))
        as [[E|?]%elem_of_cons|]; [|done|done].
      unfold cell_of in E. injection E as -> ->.
      unfold cell. rewrite Hrow. by destruct ((_ <? _) || _).
Qed.

(** The positions of the bubbles that the flood fill returns, when the grid
    is consistent. *)
Lemma collectCluster_cells (g : Grid) (row col : Z) (color : string) :
  consistent g ->
  exists cluster g',
    collectCluster row col color g = Ok cluster g' /\
    extends g g' /\
    NoDup (cell_of <$> cluster) /\
    (forall b, b ∈ cluster -> cell g (GridBubble.row b) (GridBubble.col b) = Some b) /\
    (forall p, p ∈ cell_of <$> cluster <->
               matchable g color p /\ linked g color (row, col) p).
Proof.
  intros Hcons.
  destruct (collectCluster_spec g row col color)
    as (cluster & cells & g' & Hrun & Hext & Hnd & Hf2 & Hcells).
  assert (E : cell_of <$> cluster = cells).
  { clear Hnd Hcells Hrun. induction Hf2 as [|[r c] b cells cluster Hpb _ IH]; [done|].
    rewrite fmap_cons, IH. f_equal. by apply Hcons. }
  exists cluster, g'. rewrite E. split_and!; try done.
  intros b Hb. destruct (Forall2_elem_of_r _ _ _ _ Hf2 Hb) as ([r c] & _ & Hpb).
  pose proof (Hcons _ _ _ Hpb) as Hc. unfold cell_of in Hc. injection Hc as -> ->. done.
Qed.

(** C10. [getBubble] returns for every pair of integers, and returns [null]
    for a negative row or column, for a column from [COLUMNS] on and for a
    row from the length of the grid on; the flood fill and the cleanup, which
    read the grid through it or after [ensureRow], return too: they never
    read a cell of a row that is [undefined]. *)
Theorem getBubble_never_fails (row col : Z) (g : Grid) :
  (exists g', getBubble row col g = Ok (cell g row col) g' /\ extends g g') /\
  (row < 0 \/ col < 0 \/ COLUMNS <= col \/ Z.of_nat (length g) <= row ->
   getBubble row col g = Ok None g) /\
  (forall color, exists cluster g', collectCluster row col color g = Ok cluster g') /\
  (forall st, grid st = g -> exists st', checkForFloating st = Ok tt st').
Proof.
  split_and!.
  - destruct (getBubble_spec row col g) as (g' & H & Hext & _). eauto.
  - intros Hout. unfold getBubble.
    destruct (Z.ltb_spec row 0), (Z.ltb_spec col 0),
      (Z.geb_spec row (Z.of_nat (length g))), (Z.geb_spec col COLUMNS);
      simpl; try done; lia.
  - intros color. destruct (collectCluster_spec g row col color) as (cl & _ & g' & H & _).
    eauto.
  - intros st _. destruct (checkForFloating_spec st) as (st' & H & _). eauto.
Qed.

Lemma resolveMatches_cluster (st : Game) (row col : Z) (origin : GridBubble.t) :
  consistent (grid st) ->
  cell (grid st) row col = Some origin ->
  exists cluster st',
    (forall p, p ∈ cell_of <$> cluster <->
               matchable (grid st) (GridBubble.color origin) p /\
               linked (grid st) (GridBubble.color origin) (row, col) p) /\
    NoDup (cell_of <$> cluster) /\
    resolveMatches row col st = Ok tt st' /\
    same_controls st st' /\
    (3 <= Z.of_nat (length cluster) ->
     (forall r c, cell (grid st') r c =
                  if decide ((r, c) ∈ cell_of <$> cluster) then None
                  else cell (grid st) r c) /\
     score st' = score st + Z.of_nat (length cluster) * 100) /\
    (Z.of_nat (length cluster) < 3 ->
     (forall r c, cell (grid st') r c = cell (grid st) r c) /\
     score st' = score st).
Proof.
  intros Hcons Horigin.
  pose proof (cell_in_range _ _ _ _ Horigin) as [Hr Hc].
  assert (Hrow : is_Some (grid_row (grid st) row)).
  { unfold cell in Horigin. destruct ((col <? 0) || (col >=? COLUMNS)); [done|].
    destruct (grid_row (grid st) row); [eauto|done]. }
  destruct (collectCluster_cells (grid st) row col (GridBubble.color origin) Hcons)
    as (cluster & g1 & Hrun & Hext & Hnd & Hin & Hiff).
  unfold resolveMatches.
  rewrite (bind_Ok _ _ _ _ _ (on_grid_Ok _ st _ _ (grid_get_cell _ row col Hrow Hc))).
  rewrite Horigin.
  rewrite (bind_Ok _ _ _ _ _ (on_grid_Ok _ (set_grid (grid st) st) _ _ Hrun)).
  destruct (Z.leb_spec 3 (Z.of_nat (length cluster))) as [Hge|Hlt].
  - destruct (removeCluster_spec cluster g1) as (g2 & Hrem & _ & Hcells).
    { intros b Hb. apply Hin, cell_in_range in Hb. tauto. }
    rewrite (bind_Ok _ _ _ _ _
               (on_grid_Ok _ (set_grid g1 (set_grid (grid st) st)) _ _ Hrem)).
    exists cluster. eexists. split; [exact Hiff|].
    split_and!; [done|reflexivity|done| |lia].
    intros _. split; [|done].
    intros r c. cbn [grid set_score set_grid]. rewrite Hcells.
    by rewrite (extends_cell _ _ _ _ Hext).
  - exists cluster. eexists. split; [exact Hiff|].
    split_and!; [done|reflexivity|done|lia|].
    intros _. split; [|done].
    intros r c. cbn [grid set_grid]. by apply extends_cell.
Qed.

(** C6. For the bubble [origin] at the landing cell, the cluster is the set
    of the cells that hold a bubble of its colour and that a chain of
    neighbouring bubbles of that colour links to the landing cell; [cells]
    lists it, no cell twice. With three cells or more, [resolveMatches]
    empties exactly the cells of the cluster and adds 100 for each of them to
    the score; with fewer it leaves every cell and the score as they are.
    [checkForFloating] adds 150 to the score for each cell it empties. *)
Theorem resolveMatches_scoring (st : Game) (row col : Z) (origin : GridBubble.t)
        (cells : list Cell) :
  consistent (grid st) ->
  cell (grid st) row col = Some origin ->
  NoDup cells ->
  (forall p, p ∈ cells <->
             matchable (grid st) (GridBubble.color origin) p /\
             linked (grid st) (GridBubble.color origin) (row, col) p) ->
  exists st',
    resolveMatches row col st = Ok tt st' /\
    same_controls st st' /\
    (3 <= Z.of_nat (length cells) ->
     (forall r c, cell (grid st') r c =
                  if decide ((r, c) ∈ cells) then None else cell (grid st) r c) /\
     score st' = score st + Z.of_nat (length cells) * 100) /\
    (Z.of_nat (length cells) < 3 ->
     (forall r c, cell (grid st') r c = cell (grid st) r c) /\
     score st' = score st) /\
    (forall st1, exists st2,
        checkForFloating st1 = Ok tt st2 /\
        score st2 = score st1
                    + Z.of_nat (length (removed_cells (grid st1) (grid st2))) * 150).
Proof.
  intros Hcons Horigin Hnd Hcells.
  destruct (resolveMatches_cluster st row col origin Hcons Horigin)
    as (cluster & st' & Hiff & Hndc & Hrun & Hctl & Hbig & Hsmall).
  assert (Hperm : cell_of <$> cluster ≡ₚ cells).
  { apply NoDup_Permutation; [exact Hndc|exact Hnd|].
    intros p. rewrite Hiff, Hcells. reflexivity. }
  assert (Hlen : length cluster = length cells).
  { rewrite <- (length_fmap cell_of cluster). apply Permutation_length, Hperm. }
  rewrite Hlen in Hbig, Hsmall.
  exists st'. split; [exact Hrun|]. split; [exact Hctl|]. split; [|split].
  - intros Hge. destruct (Hbig Hge) as [Hgrid Hscore]. split; [|exact Hscore].
    intros r c. rewrite Hgrid.
    destruct (decide ((r, c) ∈ cell_of <$> cluster)) as [Hin|Hout];
      destruct (decide ((r, c) ∈ cells)) as [Hin'|Hout']; try reflexivity.
    + destruct Hout'. rewrite <- Hperm. exact Hin.
    + destruct Hout. rewrite Hperm. exact Hin'.
  - exact Hsmall.
  - intros st1.
    destruct (checkForFloating_spec st1) as (st2 & Hfl & _ & _ & _ & _ & Hs).
    exists st2. split; [exact Hfl|exact Hs].
Qed.

(** ** Results and the controls *)

Lemma bind_inv {S A B : Type} (m : M S A) (k : A -> M S B) (s s' : S) (b : B) :
  bind m k s = Ok b s' -> exists a s1, m s = Ok a s1 /\ k a s1 = Ok b s'.
Proof. unfold bind. destruct (m s) as [a s1| |]; [eauto|done|done]. Qed.

Lemma on_grid_inv {A : Type} (m : M Grid A) (st st' : Game) (a : A) :
  on_grid m st = Ok a st' -> exists g, m (grid st) = Ok a g /\ st' = set_grid g st.
Proof.
  unfold on_grid. destruct (m (grid st)) as [a' g| |]; [|done|done].
  intros [= -> <-]. eauto.
Qed.

Lemma same_controls_refl (st : Game) : same_controls st st.
Proof. by repeat split. Qed.

Lemma same_controls_trans (st1 st2 st3 : Game) :
  same_controls st1 st2 -> same_controls st2 st3 -> same_controls st1 st3.
Proof.
  unfold same_controls. intros (?&?&?&?&?&?&?&?) (?&?&?&?&?&?&?&?).
  split_and!; congruence.
Qed.

Lemma same_controls_set_grid (g : Grid) (st : Game) : same_controls st (set_grid g st).
Proof. by repeat split. Qed.

Lemma on_grid_controls {A : Type} (m : M Grid A) (st st' : Game) (a : A) :
  on_grid m st = Ok a st' -> same_controls st st'.
Proof. intros (g & _ & ->)%on_grid_inv. apply same_controls_set_grid. Qed.

Lemma resolveMatches_controls (row col : Z) (st st' : Game) :
  resolveMatches row col st = Ok tt st' -> same_controls st st'.
Proof.
  unfold resolveMatches.
  intros (origin & st1 & H1 & H)%bind_inv.
  apply on_grid_controls in H1.
  destruct origin as [origin|]; [|injection H as <-; done].
  apply bind_inv in H as (cluster & st2 & H2 & H).
  apply on_grid_controls in H2.
  destruct (3 <=? Z.of_nat (length cluster)).
  - apply bind_inv in H as ([] & st3 & H3 & H).
    apply on_grid_controls in H3. injection H as <-.
    eapply same_controls_trans; [done|]. eapply same_controls_trans; [done|].
    eapply same_controls_trans; [done|]. by repeat split.
  - injection H as <-. by eapply same_controls_trans.
Qed.

Lemma checkForFloating_controls (st st' : Game) :
  checkForFloating st = Ok tt st' -> same_controls st st'.
Proof.
  intros H. destruct (checkForFloating_spec st) as (st2 & H2 & Hc & _).
  congruence.
Qed.

Lemma snapMovingBubble_pointerAngle (W H rnd : R) (moving : MovingBubble.t)
      (st st' : Game) :
  snapMovingBubble W H rnd moving st = Ok tt st' ->
  pointerAngle st' = pointerAngle st /\ keys st' = keys st /\ lastTime st' = lastTime st.
Proof.
  unfold snapMovingBubble.
  intros ([row col] & st1 & H1 & Hrun)%bind_inv. apply on_grid_controls in H1.
  apply bind_inv in Hrun as ([] & st2 & H2 & Hrun). apply on_grid_controls in H2.
  apply bind_inv in Hrun as ([] & st3 & H3 & Hrun). apply on_grid_controls in H3.
  apply bind_inv in Hrun as ([] & st4 & H4 & Hrun). apply resolveMatches_controls in H4.
  apply bind_inv in Hrun as ([] & st5 & H5 & Hrun). apply checkForFloating_controls in H5.
  assert (Hc : same_controls st st5).
  { repeat (eapply same_controls_trans; [eassumption|]). apply same_controls_refl. }
  destruct Hc as (Ha & _ & _ & _ & Hk & Ht & _).
  destruct (isBoardEmpty (grid st5)); [|destruct (hasReachedLimit H (grid st5))];
    cbn in Hrun; destruct (nextBubble st5); try done; injection Hrun as <-; cbn; done.
Qed.

Lemma updateMovingBubble_pointerAngle (W H delta rnd : R) (st st' : Game) :
  updateMovingBubble W H delta rnd st = Ok tt st' ->
  pointerAngle st' = pointerAngle st /\ keys st' = keys st /\ lastTime st' = lastTime st.
Proof.
  unfold updateMovingBubble. destruct (movingBubble st) as [moving|]; [|by intros [= <-]].
  repeat case_match; try (intros Hs%snapMovingBubble_pointerAngle; exact Hs);
    intros [= <-]; done.
Qed.

(** ** The aim *)

Lemma clamp_range (v lo hi : R) : (lo <= hi)%R -> (lo <= clamp v lo hi <= hi)%R.
Proof.
  intros Hle. unfold clamp, Math_max, Math_min.
  repeat destruct (decide _); lra.
Qed.

Lemma pointer_bounds : (POINTER_MIN <= PI / 2 <= POINTER_MAX)%R.
Proof. unfold POINTER_MIN, POINTER_MAX. pose proof PI_RGT_0. lra. Qed.

Lemma handlePointer_angle (delta : R) (st : Game) :
  (0 <= delta)%R -> angle_ok (pointerAngle st) ->
  angle_ok (pointerAngle (handlePointer delta st)).
Proof.
  intros Hd [Hlo Hhi]. pose proof pointer_bounds as Hb. pose proof PI_RGT_0 as Hpi.
  assert (Hrot : (0 <= 220 * (PI / 180) * delta)%R) by (apply Rmult_le_pos; lra).
  unfold handlePointer, angle_ok.
  destruct (decide ("ArrowLeft"%string ∈ keys st));
    destruct (decide ("ArrowRight"%string ∈ keys _)); cbn [pointerAngle set_pointerAngle];
    unfold Math_max, Math_min; repeat destruct (decide (_ <= _)%R); lra.
Qed.

Lemma init_inv (W H : R) (rnd : nat -> R) (st0 st : Game) :
  init W H rnd st0 = Ok tt st ->
  exists n g, createInitialGrid W rnd [] = Ok n g /\
              st = mkGame g (PI / 2) (Some (createShooterBubble W H (rnd n) g))
                          (Some (createShooterBubble W H (rnd (S n)) g))
                          None ∅ 0 0 false "".
Proof.
  unfold init. destruct (createInitialGrid W rnd []) as [n g| |]; [|done|done].
  intros [= <-]. eauto.
Qed.

Lemma launchBubble_pointerAngle (st : Game) :
  pointerAngle (launchBubble st) = pointerAngle st.
Proof. unfold launchBubble. by repeat case_match. Qed.

(** C8. The aim starts at a right angle, which is within the bounds, and
    every event leaves it within the bounds: a move of the pointer or a
    touch sets it to a clamped angle whatever the position, and a frame
    turns it by the arrow keys and cuts it at the bounds, for every time
    elapsed since the last frame (a time that is not negative). *)
Theorem pointerAngle_always_clamped (W H : R) :
  (forall rnd st0 st,
      init W H rnd st0 = Ok tt st ->
      pointerAngle st = (PI / 2)%R /\ angle_ok (pointerAngle st)) /\
  (forall x y st, angle_ok (pointerAngle (handlePointerMove W H x y st))) /\
  (forall x y st, angle_ok (pointerAngle (handleTouchStart W H x y st))) /\
  (forall e st st',
      angle_ok (pointerAngle st) -> elapsed_ok e st ->
      step W H e st = Ok tt st' -> angle_ok (pointerAngle st')).
Proof.
  pose proof pointer_bounds as Hb.
  assert (Hmm : (POINTER_MIN <= POINTER_MAX)%R) by lra.
  assert (Hmove : forall x y st, angle_ok (pointerAngle (handlePointerMove W H x y st))).
  { intros x y st. unfold handlePointerMove. cbn [pointerAngle set_pointerAngle].
    apply clamp_range. exact Hmm. }
  assert (Htouch : forall x y st, angle_ok (pointerAngle (handleTouchStart W H x y st))).
  { intros x y st. unfold handleTouchStart. rewrite launchBubble_pointerAngle.
    cbn [pointerAngle set_pointerAngle]. apply clamp_range. exact Hmm. }
  assert (Hinit : forall rnd st0 st,
             init W H rnd st0 = Ok tt st ->
             pointerAngle st = (PI / 2)%R /\ angle_ok (pointerAngle st)).
  { intros rnd st0 st (n & g & _ & ->)%init_inv. cbn [pointerAngle].
    split; [reflexivity|exact Hb]. }
  split_and!; [exact Hinit|exact Hmove|exact Htouch|].
  intros e st st' Hok Hel Hstep. destruct e as [ts rnd|key rep rnd|key|x y| |x y|x y];
    cbn [step] in Hstep.
  - unfold loop in Hstep. destruct (gameOver st); [injection Hstep as <-; exact Hok|].
    unfold update in Hstep.
    apply updateMovingBubble_pointerAngle in Hstep as [-> _].
    apply handlePointer_angle.
    + cbn [elapsed_ok lastTime set_lastTime] in *. lra.
    + exact Hok.
  - unfold handleKeyDown in Hstep. destruct rep; [injection Hstep as <-; exact Hok|].
    destruct (String.eqb key "ArrowLeft" || String.eqb key "ArrowRight");
      destruct (String.eqb key " " || String.eqb key "Spacebar");
      (destruct (String.eqb key "Enter" && gameOver _);
       [apply Hinit in Hstep as [_ Hs]; exact Hs
       |injection Hstep as <-; rewrite ?launchBubble_pointerAngle; exact Hok]).
  - injection Hstep as <-. unfold handleKeyUp. case_match; exact Hok.
  - injection Hstep as <-. apply Hmove.
  - injection Hstep as <-. unfold handlePointerDown. rewrite launchBubble_pointerAngle.
    exact Hok.
  - injection Hstep as <-. apply Htouch.
  - injection Hstep as <-. apply Hmove.
Qed.

(** C9. When the game is over, every event but the one that restarts it
    (Enter, not repeated) returns, leaves the game over with its message, and
    leaves the grid, the score, the bubble in flight and the two bubbles of
    the shooter as they are. *)
Theorem gameOver_is_terminal (W H : R) (e : Event) (st : Game) :
  gameOver st = true ->
  is_reset e = false ->
  exists st',
    step W H e st = Ok tt st' /\
    gameOver st' = true /\
    message st' = message st /\
    grid st' = grid st /\
    score st' = score st /\
    movingBubble st' = movingBubble st /\
    currentBubble st' = currentBubble st /\
    nextBubble st' = nextBubble st.
Proof.
  intros Hover Hreset.
  assert (Hlaunch : forall s, gameOver s = true -> launchBubble s = s).
  { intros s Hs. unfold launchBubble. by rewrite Hs. }
  destruct e as [ts rnd|key rep rnd|key|x y| |x y|x y]; cbn [step].
  - exists st. unfold loop. rewrite Hover. done.
  - unfold handleKeyDown. destruct rep; [by exists st|].
    cbn [is_reset negb] in Hreset. rewrite andb_true_r in Hreset. rewrite Hreset.
    cbn [andb].
    destruct (String.eqb key "ArrowLeft" || String.eqb key "ArrowRight");
      destruct (String.eqb key " " || String.eqb key "Spacebar");
      try rewrite Hlaunch by done; eexists; split; try reflexivity; done.
  - eexists. split; [reflexivity|]. unfold handleKeyUp. by case_match.
  - eexists. split; [reflexivity|]. done.
  - eexists. split; [reflexivity|]. unfold handlePointerDown. by rewrite Hlaunch.
  - eexists. split; [reflexivity|]. unfold handleTouchStart. by rewrite Hlaunch.
  - eexists. split; [reflexivity|]. done.
Qed.

(** ** The flight *)

Lemma moveBubble_y (W delta : R) (moving : MovingBubble.t) :
  MovingBubble.y (moveBubble W delta moving)
  = (MovingBubble.y moving + MovingBubble.dy moving * delta)%R.
Proof. unfold moveBubble. case_match; reflexivity. Qed.

Lemma moveBubble_x_inside (W delta : R) (moving : MovingBubble.t) :
  (BUBBLE_RADIUS < MovingBubble.x moving + MovingBubble.dx moving * delta
   < W - BUBBLE_RADIUS)%R ->
  MovingBubble.x (moveBubble W delta moving)
  = (MovingBubble.x moving + MovingBubble.dx moving * delta)%R.
Proof.
  intros [Hlo Hhi]. unfold moveBubble.
  rewrite bool_decide_eq_false_2 by lra. rewrite bool_decide_eq_false_2 by lra.
  reflexivity.
Qed.

Lemma distance_ge_dy (x1 y1 x2 y2 d : R) :
  (0 <= d)%R -> (d <= y2 - y1)%R -> (d <= distance x1 y1 x2 y2)%R.
Proof.
  intros Hd Hdy. unfold distance.
  rewrite <- (sqrt_square d) at 1 by exact Hd.
  assert (H1 : (d * d <= (y2 - y1) * (y2 - y1))%R)
    by (apply Rmult_le_compat; lra).
  pose proof (Rle_0_sqr (x1 - x2)) as H2. unfold Rsqr in H2.
  pose proof (Rle_0_sqr d) as H3. unfold Rsqr in H3.
  apply sqrt_le_1; [lra| |];
    replace ((y1 - y2) * (y1 - y2))%R with ((y2 - y1) * (y2 - y1))%R by ring; lra.
Qed.

(** The bubble in flight goes on when it has not reached the top, touches
    no bubble of the grid and is not below the bottom of the canvas. *)
Lemma updateMovingBubble_in_flight (W H delta rnd : R) (st : Game)
      (moving : MovingBubble.t) :
  movingBubble st = Some moving ->
  (TOP_MARGIN + BUBBLE_RADIUS < MovingBubble.y (moveBubble W delta moving))%R ->
  touches_grid (grid st) (MovingBubble.x (moveBubble W delta moving))
               (MovingBubble.y (moveBubble W delta moving)) = false ->
  (MovingBubble.y (moveBubble W delta moving) <= H - BUBBLE_RADIUS)%R ->
  updateMovingBubble W H delta rnd st
  = Ok tt (set_movingBubble (Some (moveBubble W delta moving)) st).
Proof.
  intros Hm Htop Htouch Hfloor. unfold updateMovingBubble. rewrite Hm.
  rewrite bool_decide_eq_false_2 by lra.
  cbn [grid set_movingBubble]. rewrite Htouch.
  rewrite bool_decide_eq_false_2 by lra. reflexivity.
Qed.

Lemma example_grid_far (x y : R) :
  (200 <= y)%R -> touches_grid example_grid x y = false.
Proof.
  intros Hy. unfold touches_grid, example_grid, grid_bubbles.
  cbn [flat_map omap list_omap replicate app existsb orb].
  rewrite bool_decide_eq_false_2; [reflexivity|].
  unfold makeGridBubble, gridToPixel, odd_js.
  cbn [Z.rem Z.eqb negb fst snd GridBubble.x GridBubble.y].
  intros Hd.
  pose proof (distance_ge_dy
                (LEFT_OFFSET 480 + 0 * BUBBLE_DIAMETER + BUBBLE_RADIUS
                 + (if negb (Z.rem 0 2 =? 0) then BUBBLE_RADIUS else 0))
                (TOP_MARGIN + 0 * VERTICAL_SPACING + BUBBLE_RADIUS) x y 100) as Hfar.
  unfold TOP_MARGIN, BUBBLE_DIAMETER, BUBBLE_RADIUS in *.
  assert (Hle : (100 <= y - (80 + 0 * VERTICAL_SPACING + 16))%R) by lra.
  assert (H0 : (0 <= 100)%R) by lra.
  specialize (Hfar H0 Hle). lra.
Qed.


(** Between the line of the shooter and the bottom of the canvas the
    function goes on: five pixels below the line of the shooter, with no
    bubble near and far from the top, the update moves the bubble on and the
    game is not over. The state is one that no game reaches. *)
Lemma overflow_below_shooter_goes_on :
  (SHOOTER_Y 720
   < MovingBubble.y (moveBubble 480 (1 / 100) (MovingBubble.make 240 655 "#ff6b6b" 0 460)))%R /\
  updateMovingBubble 480 720 (1 / 100) 0 overflow_state
  = Ok tt (set_movingBubble
             (Some (moveBubble 480 (1 / 100) (MovingBubble.make 240 655 "#ff6b6b" 0 460)))
             overflow_state) /\
  gameOver (set_movingBubble
              (Some (moveBubble 480 (1 / 100) (MovingBubble.make 240 655 "#ff6b6b" 0 460)))
              overflow_state) = false.
Proof.
  assert (Hy : MovingBubble.y (moveBubble 480 (1 / 100)
                                 (MovingBubble.make 240 655 "#ff6b6b" 0 460))
               = (655 + 460 * (1 / 100))%R) by apply moveBubble_y.
  split_and!.
  - rewrite Hy. unfold SHOOTER_Y. lra.
  - apply updateMovingBubble_in_flight.
    + reflexivity.
    + rewrite Hy. unfold TOP_MARGIN, BUBBLE_RADIUS. lra.
    + apply example_grid_far. rewrite Hy. lra.
    + rewrite Hy. unfold BUBBLE_RADIUS. lra.
  - reflexivity.
Qed.


(** ** The landing cell *)

Lemma slot_step_extends (W x y : R) (g g' : Grid) (best : option (Z * Z * R)) (p : Cell) :
  extends g g' -> slot_step W x y g' best p = slot_step W x y g best p.
Proof. intros Hext. unfold slot_step. by rewrite (extends_cell _ _ _ _ Hext). Qed.

Lemma fold_left_slot_extends (W x y : R) (g g' : Grid) (l : list Cell)
      (best : option (Z * Z * R)) :
  extends g g' ->
  fold_left (slot_step W x y g') l best = fold_left (slot_step W x y g) l best.
Proof.
  intros Hext. revert best. induction l as [|p l IH]; intros best; [done|].
  cbn [fold_left]. by rewrite IH, (slot_step_extends _ _ _ _ _ _ _ Hext).
Qed.

Lemma findClosestSlot_cols_spec (W x y : R) (row : Z) :
  forall (cols : list Z) (best : option (Z * Z * R)) (g : Grid),
    is_Some (grid_row g row) ->
    (forall c, c ∈ cols -> 0 <= c < COLUMNS) ->
    findClosestSlot_cols W x y row cols best g
    = Ok (fold_left (slot_step W x y g) (cols ≫= fun c => [(row, c)]) best) g.
Proof.
  induction cols as [|col rest IH]; intros best g Hrow Hcols; [done|].
  assert (Hcol : 0 <= col < COLUMNS) by (apply Hcols; by apply elem_of_cons; left).
  cbn [findClosestSlot_cols].
  rewrite (bind_Ok _ _ _ _ _ (grid_get_cell g row col Hrow Hcol)).
  rewrite bind_cons. cbn [app fold_left].
  unfold slot_step at 2. cbn [fst snd].
  destruct (cell g row col) as [b|].
  - apply IH; [done|]. intros c Hc. apply Hcols. by apply elem_of_cons; right.
  - rewrite IH; [|done|intros c Hc; apply Hcols; by apply elem_of_cons; right].
    unfold slot_dist. cbn [fst snd]. by destruct best as [[[? ?] ?]|].
Qed.

Lemma findClosestSlot_rows_spec (W x y : R) (g0 : Grid) (cols : list Z) :
  (forall c, c ∈ cols -> 0 <= c < COLUMNS) ->
  forall (rows : list Z) (best : option (Z * Z * R)) (g : Grid),
    extends g0 g ->
    (forall r, r ∈ rows -> 0 <= r) ->
    exists g',
      findClosestSlot_rows W x y rows cols best g
      = Ok (fold_left (slot_step W x y g0)
                      (rows ≫= fun r => cols ≫= fun c => [(r, c)]) best) g' /\
      extends g0 g'.
Proof.
  intros Hcols. induction rows as [|row rest IH]; intros best g Hext Hrows.
  { exists g. done. }
  cbn [findClosestSlot_rows].
  destruct (ensureRow_spec row g) as (g1 & He & Hext1 & Hsome & _).
  rewrite (bind_Ok _ _ _ _ _ He).
  assert (Hrow : 0 <= row) by (apply Hrows; by apply elem_of_cons; left).
  rewrite (bind_Ok _ _ _ _ _ (findClosestSlot_cols_spec W x y row cols best g1 (Hsome Hrow) Hcols)).
  assert (Hext01 : extends g0 g1) by (by eapply extends_trans).
  destruct (IH (fold_left (slot_step W x y g1) (cols ≫= fun c => [(row, c)]) best) g1 Hext01)
    as (g' & Hrun & Hext').
  { intros r Hr. apply Hrows. by apply elem_of_cons; right. }
  exists g'. split; [|done]. rewrite Hrun.
  rewrite bind_cons, fold_left_app. f_equal. f_equal.
  by apply fold_left_slot_extends.
Qed.

Lemma best_ok_fold (W x y : R) (g : Grid) :
  forall (l2 l1 : list Cell) (best : option (Z * Z * R)),
    best_ok W x y g l1 best ->
    best_ok W x y g (l1 ++ l2) (fold_left (slot_step W x y g) l2 best).
Proof.
  induction l2 as [|p l2 IH]; intros l1 best Hok.
  { by rewrite app_nil_r. }
  cbn [fold_left]. rewrite (cons_middle p l1 l2), app_assoc. apply IH.
  unfold slot_step. destruct (cell g p.1 p.2) as [b|] eqn:Hp.
  - destruct best as [[[r c] d]|]; cbn [best_ok] in *.
    + destruct Hok as (Hin & He & Hd & Hmin). split_and!; try done.
      * apply elem_of_app. by left.
      * intros q [Hq| ->%list_elem_of_singleton]%elem_of_app Hqe; [by apply Hmin|congruence].
    + intros q [Hq| ->%list_elem_of_singleton]%elem_of_app; [by apply Hok|congruence].
  - destruct best as [[[r c] d]|]; cbn [best_ok] in *.
    + destruct Hok as (Hin & He & Hd & Hmin).
      destruct (decide (slot_dist W x y p < d)%R) as [Hlt|Hge]; cbn [best_ok].
      * split_and!.
        -- apply elem_of_app. right. destruct p. by apply list_elem_of_singleton.
        -- done.
        -- by destruct p.
        -- intros q [Hq| ->%list_elem_of_singleton]%elem_of_app Hqe.
           ++ specialize (Hmin q Hq Hqe). lra.
           ++ lra.
      * split_and!; try done.
        -- apply elem_of_app. by left.
        -- intros q [Hq| ->%list_elem_of_singleton]%elem_of_app Hqe; [by apply Hmin|lra].
    + split_and!.
      * apply elem_of_app. right. destruct p. by apply list_elem_of_singleton.
      * done.
      * by destruct p.
      * intros q [Hq| ->%list_elem_of_singleton]%elem_of_app Hqe.
        -- by destruct (Hok q Hq).
        -- lra.
Qed.

Lemma pixelToGrid_range (W x y : R) :
  0 <= fst (pixelToGrid W x y) /\ 0 <= snd (pixelToGrid W x y) <= COLUMNS - 1.
Proof. unfold pixelToGrid, COLUMNS. cbn [fst snd]. lia. Qed.

Lemma elem_of_slot_cells (approx p : Cell) :
  p ∈ slot_cells approx <->
  Z.max 0 (fst approx - 1) <= fst p <= fst approx + 1 /\
  Z.max 0 (snd approx - 1) <= snd p <= Z.min (COLUMNS - 1) (snd approx + 1).
Proof.
  unfold slot_cells, slot_rows, slot_cols. rewrite list_elem_of_bind. split.
  - intros (r & Hp & Hr). apply list_elem_of_bind in Hp as (c & Hp & Hc).
    apply list_elem_of_singleton in Hp as ->. cbn [fst snd].
    apply elem_of_seqZ in Hr, Hc. lia.
  - intros [Hr Hc]. exists (fst p). split.
    + apply list_elem_of_bind. exists (snd p). split.
      * destruct p. by apply list_elem_of_singleton.
      * apply elem_of_seqZ. lia.
    + apply elem_of_seqZ. lia.
Qed.

Lemma neighbors_of_near (row col : Z) (n : Cell) :
  n ∈ neighbors_of row col ->
  row - 1 <= fst n <= row + 1 /\ col - 1 <= snd n <= col + 1.
Proof.
  unfold neighbors_of. rewrite list_elem_of_filter, list_elem_of_fmap.
  intros [_ [o [-> Ho]]]. cbn [fst snd].
  destruct (odd_js row); unfold offsetsOdd, offsetsEven in Ho;
    repeat (apply elem_of_cons in Ho as [->|Ho]; [cbn [fst snd]; lia|]);
    by apply elem_of_nil in Ho.
Qed.

Lemma findClosestSlot_neighbors_spec (g0 : Grid) (approx : Cell) :
  forall (ns : list Cell) (g : Grid),
    extends g0 g ->
    (forall n, n ∈ ns -> 0 <= fst n /\ 0 <= snd n < COLUMNS) ->
    exists g',
      findClosestSlot_neighbors approx ns g
      = Ok (match find (fun n : Cell => bool_decide (cell g0 (fst n) (snd n) = None)) ns with
            | Some n => n
            | None => approx
            end) g' /\
      extends g0 g'.
Proof.
  induction ns as [|[nr nc] rest IH]; intros g Hext Hns.
  { exists g. done. }
  cbn [findClosestSlot_neighbors find fst snd].
  destruct (Hns (nr, nc)) as [Hr Hc]; [by apply elem_of_cons; left|]. cbn [fst snd] in *.
  destruct (ensureRow_spec nr g) as (g1 & He & Hext1 & Hsome & _).
  rewrite (bind_Ok _ _ _ _ _ He).
  assert (Hext01 : extends g0 g1) by (by eapply extends_trans).
  rewrite (bind_Ok _ _ _ _ _ (grid_get_cell g1 nr nc (Hsome Hr) Hc)).
  rewrite (extends_cell _ _ _ _ Hext01).
  destruct (cell g0 nr nc) as [b|] eqn:Hcell.
  - rewrite bool_decide_eq_false_2 by done. apply IH; [done|].
    intros n Hn. apply Hns. by apply elem_of_cons; right.
  - rewrite bool_decide_eq_true_2 by done. exists g1. done.
Qed.

(** C7. [findClosestSlot(x, y)] returns. The cells it looks at are those of
    the grid at most one row and one column away from the approximate cell.
    When one of them is empty, it returns an empty one of them, whose centre
    is no farther from [(x, y)] than the centre of any other empty one. When
    none is empty, it returns what the chain of the specification gives: the
    approximate cell if empty, else the first empty neighbour, else the
    approximate cell. *)
Theorem findClosestSlot_nearest (W x y : R) (g : Grid) :
  exists slot g',
    findClosestSlot W x y g = Ok slot g' /\
    extends g g' /\
    (forall p, p ∈ slot_cells (pixelToGrid W x y) <->
               fst (pixelToGrid W x y) - 1 <= fst p <= fst (pixelToGrid W x y) + 1 /\
               snd (pixelToGrid W x y) - 1 <= snd p <= snd (pixelToGrid W x y) + 1 /\
               0 <= fst p /\ 0 <= snd p <= COLUMNS - 1) /\
    ((exists p, p ∈ slot_cells (pixelToGrid W x y) /\ cell g (fst p) (snd p) = None) ->
     slot ∈ slot_cells (pixelToGrid W x y) /\
     cell g (fst slot) (snd slot) = None /\
     forall p, p ∈ slot_cells (pixelToGrid W x y) -> cell g (fst p) (snd p) = None ->
               (slot_dist W x y slot <= slot_dist W x y p)%R) /\
    ((forall p, p ∈ slot_cells (pixelToGrid W x y) -> cell g (fst p) (snd p) <> None) ->
     slot = spec_fallback g (pixelToGrid W x y)).
Proof.
  unfold findClosestSlot.
  pose proof (pixelToGrid_range W x y) as Hrange.
  destruct (pixelToGrid W x y) as [ar ac]. cbn [fst snd] in Hrange.
  assert (Hcells : forall p, p ∈ slot_cells (ar, ac) <->
             (ar, ac).1 - 1 <= p.1 <= (ar, ac).1 + 1 /\
             (ar, ac).2 - 1 <= p.2 <= (ar, ac).2 + 1 /\
             0 <= p.1 /\ 0 <= p.2 <= COLUMNS - 1).
  { intros p. rewrite elem_of_slot_cells. cbn [fst snd]. lia. }
  destruct (findClosestSlot_rows_spec W x y g (slot_cols (ar, ac))) with
    (rows := slot_rows (ar, ac)) (best := @None (Z * Z * R)) (g := g)
    as (g1 & Hrun & Hext1).
  { intros c Hc. unfold slot_cols in Hc. apply elem_of_seqZ in Hc.
    cbn [fst snd] in Hc. unfold COLUMNS in *. lia. }
  { apply extends_refl. }
  { intros r Hr. unfold slot_rows in Hr. apply elem_of_seqZ in Hr. lia. }
  rewrite (bind_Ok _ _ _ _ _ Hrun).
  assert (Hok : best_ok W x y g (slot_cells (ar, ac))
                        (fold_left (slot_step W x y g)
                                   (slot_rows (ar, ac) ≫= fun r =>
                                      slot_cols (ar, ac) ≫= fun c => [(r, c)]) None)).
  { apply (best_ok_fold W x y g _ [] None). intros p Hp. by apply elem_of_nil in Hp. }
  destruct (fold_left _ _ None) as [[[r c] d]|].
  - cbn [best_ok] in Hok. destruct Hok as (Hin & He & Hd & Hmin).
    exists (r, c), g1. split_and!; try done.
    + intros _. split_and!; try done. intros p Hp Hpe. rewrite <- Hd. by apply Hmin.
    + intros Hall. destruct (Hall (r, c) Hin He).
  - cbn [best_ok] in Hok.
    assert (Hap : (ar, ac) ∈ slot_cells (ar, ac)).
    { apply Hcells. cbn [fst snd]. lia. }
    destruct (ensureRow_spec ar g1) as (g2 & He & Hext2 & Hsome & _).
    rewrite (bind_Ok _ _ _ _ _ He).
    assert (Hext02 : extends g g2) by (by eapply extends_trans).
    rewrite (bind_Ok _ _ _ _ _ (grid_get_cell g2 ar ac (Hsome (proj1 Hrange))
                                              ltac:(unfold COLUMNS in *; lia))).
    rewrite (extends_cell _ _ _ _ Hext02).
    destruct (cell g ar ac) as [b|] eqn:Hcell; [|destruct (Hok (ar, ac) Hap Hcell)].
    destruct (getNeighbors_spec ar ac g2) as (g3 & Hgn & Hext3).
    cbn [fst snd]. rewrite (bind_Ok _ _ _ _ _ Hgn).
    destruct (findClosestSlot_neighbors_spec g (ar, ac) (neighbors_of ar ac) g3)
      as (g4 & Hfb & Hext4).
    { by eapply extends_trans. }
    { intros n Hn. by apply neighbors_of_range in Hn. }
    eexists. exists g4. split_and!; [exact Hfb|done|done| |].
    + intros (p & Hp & Hpe). destruct (Hok p Hp Hpe).
    + intros _. unfold spec_fallback. cbn [fst snd]. rewrite Hcell.
      by rewrite neighbors_of_spec.
Qed.

(** ** The theorems at work *)

Lemma cluster_grid_consistent : consistent cluster_grid.
Proof. apply consistentb_sound. vm_compute. reflexivity. Qed.

Lemma cluster_grid_origin :
  cell cluster_grid 0 0 = Some (makeGridBubble 480 0 0 "#ff6b6b").
Proof. reflexivity. Qed.

Lemma pixelToGrid_gridToPixel_next_row_witness :
  pixelToGrid 480 (fst (gridToPixel 480 0 0)) (snd (gridToPixel 480 0 0)) = (1, 0).
Proof.
  apply (pixelToGrid_gridToPixel_next_row 480 0 0); unfold COLUMNS; lia.
Defined.

Lemma collectCluster_maximal_witness :
  exists cluster g',
    collectCluster 0 0 "#ff6b6b" cluster_grid = Ok cluster g' /\
    (forall b, b ∈ cluster ->
               cell cluster_grid (GridBubble.row b) (GridBubble.col b) = Some b /\
               GridBubble.color b = "#ff6b6b"%string) /\
    makeGridBubble 480 0 0 "#ff6b6b" ∈ cluster /\
    (forall b n b',
        b ∈ cluster ->
        n ∈ neighbors_of (GridBubble.row b) (GridBubble.col b) ->
        cell cluster_grid (fst n) (snd n) = Some b' ->
        GridBubble.color b' = "#ff6b6b"%string ->
        b' ∈ cluster).
Proof.
  exact (collectCluster_maximal cluster_grid 0 0 (makeGridBubble 480 0 0 "#ff6b6b")
           cluster_grid_consistent cluster_grid_origin).
Defined.

Lemma cluster_grid_component (p : Cell) :
  p ∈ [(0, 0); (0, 1); (0, 2)] <->
  matchable cluster_grid "#ff6b6b" p /\ linked cluster_grid "#ff6b6b" (0, 0) p.
Proof.
  destruct (collectCluster_cells cluster_grid 0 0 "#ff6b6b" cluster_grid_consistent)
    as (cluster & g' & Hrun & _ & _ & _ & Hiff).
  rewrite <- Hiff. clear Hiff.
  vm_compute in Hrun. injection Hrun as <- _.
  change (p ∈ [(0, 0); (0, 1); (0, 2)] <-> p ∈ [(0, 0); (0, 1); (0, 2)]).
  reflexivity.
Qed.

Lemma cluster_grid_component_NoDup : NoDup [(0, 0); (0, 1); (0, 2)].
Proof. apply (bool_decide_unpack _). vm_compute. exact I. Qed.

Lemma resolveMatches_scoring_witness :
  exists st',
    resolveMatches 0 0 cluster_state = Ok tt st' /\
    (forall r c, cell (grid st') r c =
                 if decide ((r, c) ∈ [(0, 0); (0, 1); (0, 2)]) then None
                 else cell cluster_grid r c) /\
    score st' = 300.
Proof.
  destruct (resolveMatches_scoring cluster_state 0 0 (makeGridBubble 480 0 0 "#ff6b6b")
              [(0, 0); (0, 1); (0, 2)]
              cluster_grid_consistent cluster_grid_origin
              cluster_grid_component_NoDup cluster_grid_component)
    as (st' & Hrun & _ & Hbig & _).
  exists st'. split; [exact Hrun|].
  destruct Hbig as [Hgrid Hscore]; [cbn [length]; lia|].
  split; [exact Hgrid|exact Hscore].
Defined.

Lemma cell_nil (r c : Z) : cell [] r c = None.
Proof.
  unfold cell, grid_row. destruct ((c <? 0) || (c >=? COLUMNS)); [reflexivity|].
  destruct (r <? 0); reflexivity.
Qed.

Lemma findClosestSlot_nearest_witness :
  exists slot g',
    findClosestSlot 480 100 200 [] = Ok slot g' /\
    slot ∈ slot_cells (pixelToGrid 480 100 200) /\
    cell [] (fst slot) (snd slot) = None.
Proof.
  destruct (findClosestSlot_nearest 480 100 200 [])
    as (slot & g' & Hrun & _ & Hcells & Hsome & _).
  exists slot, g'. split; [exact Hrun|].
  destruct Hsome as (Hin & He & _).
  - exists (pixelToGrid 480 100 200). split; [|apply cell_nil].
    apply Hcells. pose proof (pixelToGrid_range 480 100 200). lia.
  - split; [exact Hin|exact He].
Defined.

Lemma pointerAngle_always_clamped_witness :
  angle_ok (pointerAngle (handlePointerMove 480 720 1000 (-500) over_state)).
Proof.
  destruct (pointerAngle_always_clamped 480 720) as (_ & _ & _ & Hstep).
  apply (Hstep (MouseMove 1000 (-500)) over_state).
  - exact pointer_bounds.
  - exact I.
  - reflexivity.
Defined.

Lemma gameOver_is_terminal_witness :
  exists st',
    step 480 720 Click over_state = Ok tt st' /\
    gameOver st' = true /\
    message st' = message over_state /\
    grid st' = grid over_state /\
    score st' = score over_state /\
    movingBubble st' = movingBubble over_state /\
    currentBubble st' = currentBubble over_state /\
    nextBubble st' = nextBubble over_state.
Proof.
  apply (gameOver_is_terminal 480 720 Click over_state); reflexivity.
Defined.

Lemma getBubble_never_fails_witness :
  getBubble (-1) 0 example_grid = Ok None example_grid /\
  getBubble 5 0 example_grid = Ok None example_grid.
Proof.
  split.
  - destruct (getBubble_never_fails (-1) 0 example_grid) as (_ & Hout & _).
    apply Hout. left. lia.
  - destruct (getBubble_never_fails 5 0 example_grid) as (_ & Hout & _).
    apply Hout. right. right. right. cbn. lia.
Defined.

(** ** More on the grid: writes at any column, removals *)

Lemma grid_set_any (g : Grid) (r c : Z) (v : option GridBubble.t) :
  is_Some (grid_row g r) ->
  exists g', grid_set r c v g = Ok tt g' /\ length g' = length g /\
             (forall r', is_Some (grid_row g' r') <-> is_Some (grid_row g r')) /\
             (forall r' c', cell g' r' c' =
                            if decide ((r', c') = (r, c) /\ 0 <= c < COLUMNS) then v
                            else cell g r' c').
Proof.
  intros [row Hrow]. unfold grid_set. rewrite Hrow.
  destruct (Z.ltb_spec c 0) as [Hneg|Hpos].
  { exists g. split_and!; try done. intros r' c'. rewrite decide_False; [done|]. lia. }
  eexists. split; [done|]. split_and!.
  - by rewrite length_insert.
  - intros r'. rewrite (grid_row_insert _ _ _ _ _ Hrow).
    destruct (decide (r' = r)) as [->|]; [|done]. rewrite Hrow. split; eauto.
  - intros r' c'. unfold cell.
    destruct (Z.ltb_spec c' 0), (Z.geb_spec c' COLUMNS); cbn [orb];
      try (rewrite decide_False; [done|]; intros [[= -> ->] ?]; lia).
    rewrite (grid_row_insert _ _ _ _ _ Hrow).
    destruct (decide (r' = r)) as [->|Hne].
    + rewrite Hrow, row_col_array_set by lia.
      destruct (decide (c' = c)) as [->|Hne].
      * rewrite decide_True; [done|]. split; [done|lia].
      * rewrite decide_False; [done|]. intros [[= ?] _]. done.
    + rewrite decide_False; [done|]. intros [[= ? ?] _]. done.
Qed.

Lemma removeCluster_total (cluster : list GridBubble.t) :
  forall g : Grid,
    exists g',
      removeCluster cluster g = Ok tt g' /\
      length g' = length g /\
      (forall r, is_Some (grid_row g' r) <-> is_Some (grid_row g r)) /\
      (forall r c, cell g' r c = cell g r c \/ cell g' r c = None).
Proof.
  induction cluster as [|b rest IH]; intros g.
  { exists g. split_and!; try done. intros r c. by left. }
  cbn [removeCluster].
  destruct (grid_row g (GridBubble.row b)) as [rw|] eqn:Hrow.
  - destruct (grid_set_any g (GridBubble.row b) (GridBubble.col b) None) as
      (g1 & Hset & Hlen1 & Hrows1 & Hcells1); [by rewrite Hrow|].
    rewrite (bind_Ok _ _ _ _ _ Hset).
    destruct (IH g1) as (g' & Hrun & Hlen & Hrows & Hcells).
    exists g'. split_and!; [done|congruence| |].
    + intros r. rewrite Hrows. apply Hrows1.
    + intros r c. destruct (Hcells r c) as [E|E]; [|by right].
      rewrite E, Hcells1. destruct (decide _); [by right|by left].
  - destruct (IH g) as (g' & Hrun & Hlen & Hrows & Hcells).
    exists g'. done.
Qed.

(** [resolveMatches] on a row that is allocated returns; it changes no
    control, adds to the score what the cluster is worth, and leaves every
    cell as it is or empties it. *)
Lemma resolveMatches_total (row col : Z) (st : Game) :
  is_Some (grid_row (grid st) row) ->
  exists st',
    resolveMatches row col st = Ok tt st' /\
    same_controls st st' /\
    score st <= score st' /\
    (forall r c, cell (grid st') r c = cell (grid st) r c \/ cell (grid st') r c = None).
Proof.
  intros [rw Hrow]. unfold resolveMatches.
  rewrite (bind_Ok _ _ _ _ _ (on_grid_Ok _ st _ _ (grid_get_row _ row col _ Hrow))).
  destruct (row_col rw col) as [origin|].
  2: { eexists. split; [reflexivity|]. split_and!; [done|done|]. intros r c. by left. }
  destruct (collectCluster_spec (grid st) row col (GridBubble.color origin))
    as (cluster & cells & g1 & Hrun & Hext & _).
  rewrite (bind_Ok _ _ _ _ _ (on_grid_Ok _ (set_grid (grid st) st) _ _ Hrun)).
  destruct (Z.leb_spec 3 (Z.of_nat (length cluster))) as [Hge|Hlt].
  - destruct (removeCluster_total cluster g1) as (g2 & Hrem & _ & _ & Hcells).
    rewrite (bind_Ok _ _ _ _ _
               (on_grid_Ok _ (set_grid g1 (set_grid (grid st) st)) _ _ Hrem)).
    eexists. split; [reflexivity|]. split_and!; [done| |].
    + cbn [score set_score set_grid]. lia.
    + intros r c. cbn [grid set_score set_grid].
      rewrite <- (extends_cell _ _ r c Hext). apply Hcells.
  - eexists. split; [reflexivity|]. split_and!; [done|done|].
    intros r c. cbn [grid set_grid]. left. by apply extends_cell.
Qed.

Lemma checkForFloating_total (st : Game) :
  exists st',
    checkForFloating st = Ok tt st' /\
    same_controls st st' /\
    score st <= score st' /\
    (forall r c, cell (grid st') r c = cell (grid st) r c \/ cell (grid st') r c = None).
Proof.
  destruct (checkForFloating_spec st) as (st' & Hrun & Hc & Hkeep & _ & Hsurv & Hs).
  exists st'. split_and!; [done|done|lia|].
  intros r c. destruct (cell (grid st') r c) as [b|] eqn:Hb; [|by right].
  left. rewrite <- Hb. apply (Hkeep (r, c)). apply Hsurv.
  unfold occupied. cbn [fst snd]. rewrite Hb. eauto.
Qed.

Lemma find_none {A : Type} (f : A -> bool) (l : list A) :
  (forall a, a ∈ l -> f a = false) -> find f l = None.
Proof.
  induction l as [|a l IH]; intros Hf; [reflexivity|].
  cbn [find]. rewrite (Hf a) by (by apply elem_of_cons; left).
  apply IH. intros a' Ha'. apply Hf. by apply elem_of_cons; right.
Qed.

(** What [findClosestSlot] returns, for every point and every grid: a cell
    of the neighbourhood of the approximate cell, empty when the
    neighbourhood has an empty cell; when it has none, the approximate cell
    itself, which holds a bubble. *)
Lemma findClosestSlot_result (W x y : R) (g : Grid) :
  exists slot g',
    findClosestSlot W x y g = Ok slot g' /\
    extends g g' /\
    slot ∈ slot_cells (pixelToGrid W x y) /\
    (cell g (fst slot) (snd slot) = None \/
     (slot = pixelToGrid W x y /\
      forall p, p ∈ slot_cells (pixelToGrid W x y) -> cell g (fst p) (snd p) <> None)).
Proof.
  unfold findClosestSlot.
  pose proof (pixelToGrid_range W x y) as Hrange.
  destruct (pixelToGrid W x y) as [ar ac]. cbn [fst snd] in Hrange.
  destruct (findClosestSlot_rows_spec W x y g (slot_cols (ar, ac))) with
    (rows := slot_rows (ar, ac)) (best := @None (Z * Z * R)) (g := g)
    as (g1 & Hrun & Hext1).
  { intros c Hc. unfold slot_cols in Hc. apply elem_of_seqZ in Hc.
    cbn [fst snd] in Hc. unfold COLUMNS in *. lia. }
  { apply extends_refl. }
  { intros r Hr. unfold slot_rows in Hr. apply elem_of_seqZ in Hr. lia. }
  rewrite (bind_Ok _ _ _ _ _ Hrun).
  assert (Hok : best_ok W x y g (slot_cells (ar, ac))
                        (fold_left (slot_step W x y g)
                                   (slot_rows (ar, ac) ≫= fun r =>
                                      slot_cols (ar, ac) ≫= fun c => [(r, c)]) None)).
  { apply (best_ok_fold W x y g _ [] None). intros p Hp. by apply elem_of_nil in Hp. }
  destruct (fold_left _ _ None) as [[[r c] d]|].
  - cbn [best_ok] in Hok. destruct Hok as (Hin & He & _).
    exists (r, c), g1. split_and!; [done|done|done|by left].
  - cbn [best_ok] in Hok.
    assert (Hap : (ar, ac) ∈ slot_cells (ar, ac)).
    { apply elem_of_slot_cells. cbn [fst snd]. lia. }
    destruct (ensureRow_spec ar g1) as (g2 & He & Hext2 & Hsome & _).
    rewrite (bind_Ok _ _ _ _ _ He).
    assert (Hext02 : extends g g2) by (by eapply extends_trans).
    rewrite (bind_Ok _ _ _ _ _ (grid_get_cell g2 ar ac (Hsome (proj1 Hrange))
                                              ltac:(unfold COLUMNS in *; lia))).
    rewrite (extends_cell _ _ _ _ Hext02).
    destruct (cell g ar ac) as [b|] eqn:Hcell; [|destruct (Hok (ar, ac) Hap Hcell)].
    destruct (getNeighbors_spec ar ac g2) as (g3 & Hgn & Hext3).
    cbn [fst snd]. rewrite (bind_Ok _ _ _ _ _ Hgn).
    destruct (findClosestSlot_neighbors_spec g (ar, ac) (neighbors_of ar ac) g3)
      as (g4 & Hfb & Hext4).
    { by eapply extends_trans. }
    { intros n Hn. by apply neighbors_of_range in Hn. }
    rewrite find_none in Hfb.
    2: { intros n Hn. apply bool_decide_eq_false_2. apply Hok.
         apply elem_of_slot_cells. cbn [fst snd].
         pose proof (neighbors_of_near _ _ _ Hn). pose proof (neighbors_of_range _ _ _ Hn).
         lia. }
    exists (ar, ac), g4. split_and!; [done|done|done|]. right. done.
Qed.

Lemma slot_cells_range (approx p : Cell) :
  p ∈ slot_cells approx -> 0 <= fst p /\ 0 <= snd p < COLUMNS.
Proof. rewrite elem_of_slot_cells. unfold COLUMNS. lia. Qed.

Lemma makeGridBubble_cell_of (W : R) (row col : Z) (color : string) :
  cell_of (makeGridBubble W row col color) = (row, col).
Proof. reflexivity. Qed.

Lemma consistent_update (g g' : Grid) :
  consistent g ->
  (forall r c, cell g' r c = cell g r c \/ cell g' r c = None \/
               exists b, cell g' r c = Some b /\ cell_of b = (r, c)) ->
  consistent g'.
Proof.
  intros Hc Hup r c b Hb. destruct (Hup r c) as [E|[E|(b' & E & Hb')]].
  - apply Hc. congruence.
  - congruence.
  - congruence.
Qed.

(** ** The landing *)

Lemma snapMovingBubble_spec (W H rnd : R) (moving : MovingBubble.t) (st : Game)
      (next : ShooterBubble.t) :
  nextBubble st = Some next ->
  exists slot st',
    snapMovingBubble W H rnd moving st = Ok tt st' /\
    slot ∈ slot_cells (pixelToGrid W (MovingBubble.x moving) (MovingBubble.y moving)) /\
    movingBubble st' = None /\
    currentBubble st'
    = Some (ShooterBubble.make (W / 2) (SHOOTER_Y H) (ShooterBubble.color next) 0 0 false) /\
    nextBubble st' = Some (createShooterBubble W H rnd (grid st')) /\
    (pointerAngle st' = pointerAngle st /\ keys st' = keys st /\ lastTime st' = lastTime st) /\
    score st <= score st' /\
    (forall r c,
        cell (grid st') r c = cell (grid st) r c \/
        cell (grid st') r c = None \/
        ((r, c) = slot /\
         cell (grid st') r c
         = Some (makeGridBubble W (fst slot) (snd slot) (MovingBubble.color moving)))) /\
    gameOver st' = gameOver st || isBoardEmpty (grid st') || hasReachedLimit H (grid st') /\
    message st'
    = (if isBoardEmpty (grid st') then "모든 버블 제거!"
       else if hasReachedLimit H (grid st') then "버블이 바닥에 닿았습니다"
            else message st)%string.
Proof.
  intros Hnext. unfold snapMovingBubble.
  destruct (findClosestSlot_result W (MovingBubble.x moving) (MovingBubble.y moving) (grid st))
    as ([row col] & g1 & Hfind & Hext1 & Hin & _).
  pose proof (slot_cells_range _ _ Hin) as [Hrow Hcol]. cbn [fst snd] in Hrow, Hcol.
  rewrite (bind_Ok _ _ _ _ _ (on_grid_Ok _ st _ _ Hfind)). cbv beta iota.
  destruct (ensureRow_spec row g1) as (g2 & He & Hext2 & Hsome & _).
  rewrite (bind_Ok _ _ _ _ _ (on_grid_Ok _ (set_grid g1 st) _ _ He)).
  destruct (grid_set_spec g2 row col
              (Some (makeGridBubble W row col (MovingBubble.color moving)))
              (Hsome Hrow) Hcol) as (g3 & Hset & _ & Hrows3 & Hcells3).
  rewrite (bind_Ok _ _ _ _ _ (on_grid_Ok _ (set_grid g2 (set_grid g1 st)) _ _ Hset)).
  destruct (resolveMatches_total row col (set_grid g3 (set_grid g2 (set_grid g1 st))))
    as (st4 & Hres & Hc4 & Hs4 & Hcells4).
  { cbn [grid set_grid]. apply Hrows3. by apply Hsome. }
  rewrite (bind_Ok _ _ _ _ _ Hres).
  destruct (checkForFloating_total st4) as (st5 & Hfl & Hc5 & Hs5 & Hcells5).
  rewrite (bind_Ok _ _ _ _ _ Hfl).
  assert (Hc : same_controls st st5).
  { eapply same_controls_trans; [|exact Hc5]. eapply same_controls_trans; [|exact Hc4].
    by repeat split. }
  destruct Hc as (Ha & _ & Hn & _ & Hk & Ht & Hg & Hm).
  assert (Hcells : forall r c,
             cell (grid st5) r c = cell (grid st) r c \/
             cell (grid st5) r c = None \/
             ((r, c) = (row, col) /\
              cell (grid st5) r c
              = Some (makeGridBubble W row col (MovingBubble.color moving)))).
  { intros r c. destruct (Hcells5 r c) as [E5|E5]; [|by right; left].
    destruct (Hcells4 r c) as [E4|E4]; [|right; left; congruence].
    cbn [grid set_grid] in E4. rewrite E5, E4, Hcells3.
    destruct (decide ((r, c) = (row, col))) as [E|_].
    - right. right. done.
    - left. rewrite (extends_cell _ _ _ _ Hext2). by apply extends_cell. }
  assert (Hscore : score st <= score st5).
  { cbn [score set_grid] in Hs4. lia. }
  exists (row, col).
  destruct (isBoardEmpty (grid st5)) eqn:Hempty;
    [|destruct (hasReachedLimit H (grid st5)) eqn:Hlimit];
    cbn [nextBubble endGame]; rewrite Hn, Hnext;
    (eexists; split; [reflexivity|]);
    cbn [grid movingBubble currentBubble nextBubble pointerAngle keys lastTime score
         gameOver message set_movingBubble set_nextBubble set_currentBubble endGame
         fst snd];
    rewrite ?Hempty, ?Hlimit, ?orb_true_r, ?orb_false_r;
    split_and!; try done.
Qed.

(** ** The start of a game *)

Lemma createInitialGrid_cols_spec (W : R) (rnd : nat -> R) (row : Z) :
  forall (cols : list Z) (n : nat) (g : Grid),
    is_Some (grid_row g row) ->
    NoDup cols ->
    (forall c, c ∈ cols -> 0 <= c < COLUMNS) ->
    exists g',
      createInitialGrid_cols W rnd row cols n g = Ok (n + length cols)%nat g' /\
      length g' = length g /\
      (forall r, is_Some (grid_row g' r) <-> is_Some (grid_row g r)) /\
      (forall r c, ~ (r = row /\ c ∈ cols) -> cell g' r c = cell g r c) /\
      (forall c, c ∈ cols ->
                 exists k, (n <= k < n + length cols)%nat /\
                           cell g' row c
                           = Some (makeGridBubble W row c (random_pick COLORS (rnd k)))).
Proof.
  induction cols as [|col rest IH]; intros n g Hrow Hnd Hcols.
  { exists g. cbn [createInitialGrid_cols length]. rewrite Nat.add_0_r.
    split_and!; try done. intros c Hc. by apply elem_of_nil in Hc. }
  apply NoDup_cons in Hnd as [Hncol Hnd].
  assert (Hcol : 0 <= col < COLUMNS) by (apply Hcols; by apply elem_of_cons; left).
  cbn [createInitialGrid_cols].
  destruct (grid_set_spec g row col
              (Some (makeGridBubble W row col (random_pick COLORS (rnd n)))) Hrow Hcol)
    as (g1 & Hset & Hlen1 & Hrows1 & Hcells1).
  rewrite (bind_Ok _ _ _ _ _ Hset).
  destruct (IH (S n) g1) as (g' & Hrun & Hlen & Hrows & Hother & Hfilled).
  { by apply Hrows1. }
  { done. }
  { intros c Hc. apply Hcols. by apply elem_of_cons; right. }
  exists g'. split_and!.
  - rewrite Hrun. f_equal. cbn [length]. lia.
  - congruence.
  - intros r. rewrite Hrows. apply Hrows1.
  - intros r c Hn. rewrite Hother, Hcells1.
    + rewrite decide_False; [done|]. intros [= -> ->]. apply Hn.
      split; [done|]. by apply elem_of_cons; left.
    + intros [-> Hc]. apply Hn. split; [done|]. by apply elem_of_cons; right.
  - intros c [->|Hc]%elem_of_cons.
    + exists n. split; [cbn [length]; lia|].
      rewrite Hother by (intros [_ ?]; done). rewrite Hcells1.
      by rewrite decide_True.
    + destruct (Hfilled c Hc) as (k & Hk & E). exists k. split; [cbn [length]; lia|done].
Qed.

Lemma ensureRow_length (row : Z) (g g' : Grid) :
  0 <= row -> ensureRow row g = Ok tt g' ->
  length g' = Nat.max (length g) (S (Z.to_nat row)).
Proof.
  intros Hrow. unfold ensureRow. destruct (grid_row g row) as [rw|] eqn:E.
  - intros [= <-]. apply grid_row_Some in E. lia.
  - destruct (Z.ltb_spec row 0); [lia|]. intros [= <-]. apply array_set_length.
Qed.

Lemma row_limit_range (row : Z) : 13 <= row_limit row <= COLUMNS.
Proof. unfold row_limit, COLUMNS. destruct (odd_js row); lia. Qed.

Lemma createInitialGrid_rows_spec (W : R) (rnd : nat -> R) :
  forall (rows : list Z) (n : nat) (g : Grid),
    NoDup rows ->
    (forall r, r ∈ rows -> 0 <= r) ->
    exists n' g',
      createInitialGrid_rows W rnd rows n g = Ok n' g' /\
      n' = (n + foldr (fun r acc => Z.to_nat (row_limit r) + acc) 0 rows)%nat /\
      length g' = foldl (fun len r => Nat.max len (S (Z.to_nat r))) (length g) rows /\
      (forall r c, ~ (r ∈ rows /\ 0 <= c < row_limit r) -> cell g' r c = cell g r c) /\
      (forall r c, r ∈ rows -> 0 <= c < row_limit r ->
                   exists k, (n <= k < n')%nat /\
                             cell g' r c
                             = Some (makeGridBubble W r c (random_pick COLORS (rnd k)))).
Proof.
  induction rows as [|row rest IH]; intros n g Hnd Hrows.
  { exists n, g. cbn [createInitialGrid_rows foldr foldl]. rewrite Nat.add_0_r.
    split_and!; try done. intros r c Hr. by apply elem_of_nil in Hr. }
  apply NoDup_cons in Hnd as [Hnrow Hnd].
  assert (Hrow : 0 <= row) by (apply Hrows; by apply elem_of_cons; left).
  pose proof (row_limit_range row) as Hlim.
  cbn [createInitialGrid_rows].
  destruct (ensureRow_spec row g) as (g1 & He & Hext & Hsome & _).
  rewrite (bind_Ok _ _ _ _ _ He).
  pose proof (ensureRow_length _ _ _ Hrow He) as Hlen1.
  fold (row_limit row).
  destruct (createInitialGrid_cols_spec W rnd row (seqZ 0 (row_limit row)) n g1)
    as (g2 & Hcols & Hlen2 & Hrows2 & Hother2 & Hfilled2).
  { by apply Hsome. }
  { apply NoDup_seqZ. }
  { intros c Hc%elem_of_seqZ. lia. }
  rewrite (bind_Ok _ _ _ _ _ Hcols). rewrite length_seqZ in *.
  destruct (IH (n + Z.to_nat (row_limit row))%nat g2 Hnd)
    as (n' & g' & Hrun & Hn' & Hlen & Hother & Hfilled).
  { intros r Hr. apply Hrows. by apply elem_of_cons; right. }
  exists n', g'. split_and!.
  - done.
  - cbn [foldr]. lia.
  - cbn [foldl]. rewrite Hlen, Hlen2, Hlen1. done.
  - intros r c Hn. rewrite Hother.
    2: { intros [Hr Hc]. apply Hn. split; [by apply elem_of_cons; right|done]. }
    rewrite Hother2.
    2: { intros [-> Hc%elem_of_seqZ]. apply Hn. split; [by apply elem_of_cons; left|lia]. }
    by apply extends_cell.
  - intros r c [->|Hr]%elem_of_cons Hc.
    + destruct (Hfilled2 c) as (k & Hk & E); [apply elem_of_seqZ; lia|].
      exists k. split; [lia|]. rewrite Hother; [done|]. intros [? _]. done.
    + destruct (Hfilled r c Hr Hc) as (k & Hk & E). exists k. split; [lia|done].
Qed.

Lemma random_pick_in (pool : list string) (rnd : R) :
  pool <> [] -> (0 <= rnd < 1)%R -> random_pick pool rnd ∈ pool.
Proof.
  intros Hne [Hlo Hhi]. unfold random_pick.
  set (len := Z.of_nat (length pool)).
  assert (Hlen : 0 < len) by (destruct pool; [done|cbn [length] in len; lia]).
  assert (HlenR : (0 < IZR len)%R) by (apply IZR_lt; lia).
  pose proof (Zfloor_bound (rnd * IZR len)) as [Hfl Hfu].
  assert (H0 : 0 <= Zfloor (rnd * IZR len)).
  { apply Zfloor_lub. apply Rmult_le_pos; lra. }
  assert (H1 : Zfloor (rnd * IZR len) < len).
  { apply lt_IZR. assert (rnd * IZR len < IZR len)%R by nra. lra. }
  destruct (Z.ltb_spec (Zfloor (rnd * IZR len)) 0); [lia|].
  apply list_elem_of_In, nth_In. unfold len in *. lia.
Qed.

(** [init] returns, whatever [Math.random] gives and whatever the state
    before. *)
Lemma init_spec (W H : R) (rnd : nat -> R) (st0 : Game) :
  exists g,
    init W H rnd st0
    = Ok tt (mkGame g (PI / 2) (Some (createShooterBubble W H (rnd 108%nat) g))
                    (Some (createShooterBubble W H (rnd 109%nat) g))
                    None ∅ 0 0 false "") /\
    length g = 8%nat /\
    (forall r c, ~ (0 <= r < 8 /\ 0 <= c < row_limit r) -> cell g r c = None) /\
    (forall r c, 0 <= r < 8 -> 0 <= c < row_limit r ->
                 exists k, (k < 108)%nat /\
                           cell g r c
                           = Some (makeGridBubble W r c (random_pick COLORS (rnd k)))).
Proof.
  destruct (createInitialGrid_rows_spec W rnd (seqZ 0 8) 0 [])
    as (n & g & Hrun & Hn & Hlen & Hother & Hfilled).
  { apply NoDup_seqZ. }
  { intros r Hr%elem_of_seqZ. lia. }
  assert (En : n = 108%nat) by (rewrite Hn; reflexivity).
  subst n. exists g. split_and!.
  - unfold init, createInitialGrid. rewrite Hrun. reflexivity.
  - rewrite Hlen. reflexivity.
  - intros r c Hn'. rewrite Hother; [apply cell_nil|].
    intros [Hr%elem_of_seqZ Hc]. apply Hn'. lia.
  - intros r c Hr Hc. destruct (Hfilled r c) as (k & Hk & E); [apply elem_of_seqZ; lia|done|].
    exists k. split; [lia|done].
Qed.

Lemma init_consistent (W H : R) (rnd : nat -> R) (st0 st : Game) :
  init W H rnd st0 = Ok tt st -> consistent (grid st).
Proof.
  destruct (init_spec W H rnd st0) as (g & Hrun & _ & Hnone & Hfilled).
  rewrite Hrun. intros [= <-]. cbn [grid]. intros r c b Hb.
  destruct (decide (0 <= r < 8 /\ 0 <= c < row_limit r)) as [[Hr Hc]|Hn].
  - destruct (Hfilled r c Hr Hc) as (k & _ & E). rewrite E in Hb.
    injection Hb as <-. reflexivity.
  - rewrite Hnone in Hb by done. done.
Qed.

(** ** One event *)

Lemma updateMovingBubble_total (W H delta rnd : R) (st : Game) :
  is_Some (nextBubble st) ->
  exists st',
    updateMovingBubble W H delta rnd st = Ok tt st' /\
    is_Some (nextBubble st') /\
    score st <= score st' /\
    (consistent (grid st) -> consistent (grid st')).
Proof.
  intros [next Hnext]. unfold updateMovingBubble.
  destruct (movingBubble st) as [moving|]; [|exists st; split_and!; [done|eauto|lia|done]].
  set (moved := moveBubble W delta moving).
  assert (Hsnap : exists st',
             snapMovingBubble W H rnd moved (set_movingBubble (Some moved) st) = Ok tt st' /\
             is_Some (nextBubble st') /\ score st <= score st' /\
             (consistent (grid st) -> consistent (grid st'))).
  { destruct (snapMovingBubble_spec W H rnd moved (set_movingBubble (Some moved) st) next Hnext)
      as (slot & st' & Hrun & _ & _ & _ & Hn & _ & Hs & Hcells & _).
    exists st'. split_and!; [done|rewrite Hn; eauto|done|].
    intros Hcons. apply (consistent_update (grid st)); [done|].
    intros r c. destruct (Hcells r c) as [E|[E|[E1 E2]]]; [by left|by right; left|].
    right. right. eexists. split; [exact E2|]. rewrite makeGridBubble_cell_of.
    destruct slot. done. }
  destruct (bool_decide (MovingBubble.y moved <= TOP_MARGIN + BUBBLE_RADIUS)%R);
    [exact Hsnap|].
  destruct (touches_grid _ _ _); [exact Hsnap|].
  destruct (bool_decide _); eexists; (split; [reflexivity|]);
    (split_and!; [cbn [nextBubble endGame set_movingBubble]; rewrite Hnext; eauto
                 |cbn [score endGame set_movingBubble]; lia|done]).
Qed.

Lemma handlePointer_frame (delta : R) (st : Game) :
  nextBubble (handlePointer delta st) = nextBubble st /\
  grid (handlePointer delta st) = grid st /\
  score (handlePointer delta st) = score st /\
  movingBubble (handlePointer delta st) = movingBubble st.
Proof. unfold handlePointer. by repeat case_match. Qed.

Lemma launchBubble_frame (st : Game) :
  nextBubble (launchBubble st) = nextBubble st /\
  grid (launchBubble st) = grid st /\
  score (launchBubble st) = score st /\
  gameOver (launchBubble st) = gameOver st.
Proof. unfold launchBubble. by repeat case_match. Qed.

Lemma step_spec (W H : R) (e : Event) (st : Game) :
  is_Some (nextBubble st) ->
  exists st',
    step W H e st = Ok tt st' /\
    is_Some (nextBubble st') /\
    (consistent (grid st) -> consistent (grid st')) /\
    (is_reset e && gameOver st = false -> score st <= score st').
Proof.
  intros Hnext.
  destruct e as [ts rnd|key rep rnd|key|x y| |x y|x y]; cbn [step].
  - unfold loop. destruct (gameOver st); [exists st; split_and!; [done|done|done|lia]|].
    unfold update.
    set (delta := ((ts - lastTime st) / 1000)%R).
    pose proof (handlePointer_frame delta (set_lastTime ts st)) as (Hn & Hg & Hsc & _).
    destruct (updateMovingBubble_total W H delta rnd (handlePointer delta (set_lastTime ts st)))
      as (st' & Hrun & Hn' & Hs & Hc).
    { rewrite Hn. exact Hnext. }
    exists st'. rewrite Hg in Hc. rewrite Hsc in Hs. done.
  - unfold handleKeyDown. destruct rep.
    { exists st. split_and!; [done|done|done|lia]. }
    set (st1 := if String.eqb key "ArrowLeft" || String.eqb key "ArrowRight"
                then set_keys ({[key]} ∪ keys st) st else st).
    assert (H1 : nextBubble st1 = nextBubble st /\ grid st1 = grid st /\
                 score st1 = score st /\ gameOver st1 = gameOver st).
    { unfold st1. by case_match. }
    set (st2 := if String.eqb key " " || String.eqb key "Spacebar"
                then launchBubble st1 else st1).
    assert (H2 : nextBubble st2 = nextBubble st /\ grid st2 = grid st /\
                 score st2 = score st /\ gameOver st2 = gameOver st).
    { unfold st2. destruct H1 as (? & ? & ? & ?).
      pose proof (launchBubble_frame st1) as (? & ? & ? & ?).
      case_match; split_and!; congruence. }
    destruct H2 as (Hn2 & Hg2 & Hs2 & Ho2).
    cbn [is_reset negb]. rewrite andb_true_r, Ho2.
    destruct (String.eqb key "Enter" && gameOver st) eqn:Hreset.
    + destruct (init_spec W H rnd st2) as (g & Hrun & _).
      eexists. split; [exact Hrun|]. split_and!; [cbn; eauto| |done].
      intros _. eapply init_consistent. exact Hrun.
    + exists st2. rewrite Hn2, Hg2, Hs2. split_and!; [done|done|done|lia].
  - eexists. split; [reflexivity|]. unfold handleKeyUp.
    case_match; split_and!; try done; cbn; lia.
  - eexists. split; [reflexivity|]. split_and!; try done; cbn; lia.
  - eexists. split; [reflexivity|]. unfold handlePointerDown.
    pose proof (launchBubble_frame st) as (-> & -> & -> & _).
    split_and!; try done; lia.
  - eexists. split; [reflexivity|]. unfold handleTouchStart.
    pose proof (launchBubble_frame
                  (set_pointerAngle
                     (clamp (Math_atan2 (SHOOTER_Y H - y) (x - W / 2)) POINTER_MIN POINTER_MAX)
                     st)) as (-> & -> & -> & _).
    split_and!; try done; cbn; lia.
  - eexists. split; [reflexivity|]. split_and!; try done; cbn; lia.
Qed.

(** ** Further properties of the game *)

(** X1. A game never throws: [init] returns, and from the state it returns
    every sequence of events is handled to its end; the next bubble of the
    shooter is always there, so the landing never reads a property of
    [null]. *)
Theorem game_never_throws (W H : R) (rnd : nat -> R) (st0 : Game) (events : list Event) :
  exists st st',
    init W H rnd st0 = Ok tt st /\
    run W H events st = Ok tt st' /\
    is_Some (nextBubble st').
Proof.
  destruct (init_spec W H rnd st0) as (g & Hinit & _).
  assert (Hrun : forall es s, is_Some (nextBubble s) ->
             exists s', run W H es s = Ok tt s' /\ is_Some (nextBubble s')).
  { induction es as [|e es IH]; intros s Hs.
    - exists s. split; [reflexivity|exact Hs].
    - destruct (step_spec W H e s Hs) as (s1 & Hstep & Hn1 & _).
      destruct (IH s1 Hn1) as (s' & Hrest & Hn').
      exists s'. cbn [run]. rewrite (bind_Ok _ _ _ _ _ Hstep).
      split; [exact Hrest|exact Hn']. }
  set (st := mkGame _ _ _ _ _ _ _ _ _ _) in Hinit.
  destruct (Hrun events st) as (s' & Hr & Hn).
  { subst st. cbn [nextBubble]. eexists. reflexivity. }
  exists st, s'. split; [exact Hinit|]. split; [exact Hr|exact Hn].
Qed.

(** X2. Every event keeps the invariant of the data model: when every
    bubble of the grid records the position it is stored at, the same holds
    after the event, be it a frame in which the bubble in flight lands, or
    the restart. *)
Theorem step_keeps_consistent (W H : R) (e : Event) (st : Game) :
  is_Some (nextBubble st) ->
  consistent (grid st) ->
  exists st', step W H e st = Ok tt st' /\ consistent (grid st').
Proof.
  intros Hnext Hcons.
  destruct (step_spec W H e st Hnext) as (st' & Hstep & _ & Hc & _).
  exists st'. split; [exact Hstep|exact (Hc Hcons)].
Qed.

(** X3. The score never goes down, but for the restart of a game that is
    over, which sets it to 0. *)
Theorem score_never_decreases (W H : R) (e : Event) (st : Game) :
  is_Some (nextBubble st) ->
  is_reset e && gameOver st = false ->
  exists st', step W H e st = Ok tt st' /\ score st <= score st'.
Proof.
  intros Hnext Hreset.
  destruct (step_spec W H e st Hnext) as (st' & Hstep & _ & _ & Hs).
  exists st'. split; [exact Hstep|exact (Hs Hreset)].
Qed.

(** X4. [init] returns a state whose grid has eight rows; the cells that
    hold a bubble are those of the rows 0 to 7 and of the columns 0 to 13 on
    the even rows, 0 to 12 on the odd rows; every bubble records its
    position, and has a colour of the palette when the values of
    [Math.random] lie in [0, 1). The score is 0, no bubble is in flight, the
    game is not over, and the shooter holds two bubbles. *)
Theorem init_fills_eight_rows (W H : R) (rnd : nat -> R) (st0 : Game) :
  exists st,
    init W H rnd st0 = Ok tt st /\
    length (grid st) = 8%nat /\
    (forall r c, occupied (grid st) (r, c) <-> 0 <= r < 8 /\ 0 <= c < row_limit r) /\
    consistent (grid st) /\
    ((forall k, (0 <= rnd k < 1)%R) ->
     forall r c b, cell (grid st) r c = Some b -> GridBubble.color b ∈ COLORS) /\
    score st = 0 /\ gameOver st = false /\ movingBubble st = None /\
    is_Some (currentBubble st) /\ is_Some (nextBubble st).
Proof.
  destruct (init_spec W H rnd st0) as (g & Hrun & Hlen & Hnone & Hfilled).
  eexists. split; [exact Hrun|]. cbn [grid score gameOver movingBubble currentBubble nextBubble].
  split; [exact Hlen|]. split; [|split; [|split; [|split; [reflexivity|split; [reflexivity|
    split; [reflexivity|split; eexists; reflexivity]]]]]].
  - intros r c. unfold occupied. cbn [fst snd]. split.
    + intros [b Hb]. destruct (decide (0 <= r < 8 /\ 0 <= c < row_limit r)) as [|Hn]; [done|].
      rewrite Hnone in Hb by done. done.
    + intros [Hr Hc]. destruct (Hfilled r c Hr Hc) as (k & _ & E). rewrite E. eauto.
  - exact (init_consistent W H rnd st0 _ Hrun).
  - intros Hrnd r c b Hb.
    destruct (decide (0 <= r < 8 /\ 0 <= c < row_limit r)) as [[Hr Hc]|Hn].
    + destruct (Hfilled r c Hr Hc) as (k & _ & E). rewrite E in Hb. injection Hb as <-.
      cbn [makeGridBubble GridBubble.color]. unfold makeGridBubble.
      destruct (gridToPixel W r c). cbn [GridBubble.color].
      apply random_pick_in; [done|apply Hrnd].
    + rewrite Hnone in Hb by done. done.
Qed.

Lemma step_keeps_consistent_witness :
  exists st', step 480 720 (Frame 16 0) cluster_state = Ok tt st' /\ consistent (grid st').
Proof.
  apply (step_keeps_consistent 480 720 (Frame 16 0) cluster_state).
  - eexists. reflexivity.
  - exact cluster_grid_consistent.
Defined.

Lemma score_never_decreases_witness :
  exists st', step 480 720 (Frame 16 0) cluster_state = Ok tt st' /\
              score cluster_state <= score st'.
Proof.
  apply (score_never_decreases 480 720 (Frame 16 0) cluster_state).
  - eexists. reflexivity.
  - reflexivity.
Defined.

(** ** What [checkForFloating] keeps *)

Lemma reachable_kept (g g' : Grid) :
  (forall p, reachable g p -> cell g' (fst p) (snd p) = cell g (fst p) (snd p)) ->
  forall p, reachable g p -> reachable g' p.
Proof.
  intros Hkeep. induction 1 as [col Hocc|p n Hp IH Hn Hocc].
  - apply reachable_top. unfold occupied.
    rewrite (Hkeep (0, col)); [exact Hocc|]. apply reachable_top, Hocc.
  - apply (reachable_step _ p n IH Hn). unfold occupied.
    rewrite (Hkeep n); [exact Hocc|]. exact (reachable_step _ p n Hp Hn Hocc).
Qed.

Lemma occupied_all_cells (g : Grid) (p : Cell) : occupied g p -> p ∈ all_cells g.
Proof.
  intros [b Hb]. apply elem_of_all_cells. exact (cell_in_range _ _ _ _ Hb).
Qed.

(** X5. [checkForFloating] removes no bubble that hangs from the ceiling and
    changes none: the cells linked to row 0 hold what they held, every other
    cell is empty afterwards, and the score grows by 150 for each bubble that
    was not linked, whatever the way they are counted. Nothing else of the
    game changes. *)
Theorem checkForFloating_keeps_anchored (st : Game) :
  exists st',
    checkForFloating st = Ok tt st' /\
    same_controls st st' /\
    (forall p, reachable (grid st) p ->
               cell (grid st') (fst p) (snd p) = cell (grid st) (fst p) (snd p)) /\
    (forall p, ~ reachable (grid st) p -> cell (grid st') (fst p) (snd p) = None) /\
    (forall dropped : list Cell,
        NoDup dropped ->
        (forall p, p ∈ dropped <-> occupied (grid st) p /\ ~ reachable (grid st) p) ->
        score st' = score st + Z.of_nat (length dropped) * 150).
Proof.
  destruct (checkForFloating_spec st) as (st' & Hrun & Hctl & Hkeep & Hdrop & _ & Hscore).
  exists st'. split; [exact Hrun|]. split; [exact Hctl|]. split; [exact Hkeep|].
  split; [exact Hdrop|].
  intros dropped Hnd Hdropped. rewrite Hscore. do 3 f_equal.
  apply Permutation_length, NoDup_Permutation.
  - apply NoDup_filter, all_cells_NoDup.
  - exact Hnd.
  - intros p. unfold removed_cells. rewrite list_elem_of_filter, Hdropped. split.
    + intros [[Hocc Hgone] _]. split; [exact Hocc|].
      intros Hreach. apply Hgone. unfold occupied. rewrite (Hkeep p Hreach). exact Hocc.
    + intros [Hocc Hfloat]. split; [split; [exact Hocc|]|apply occupied_all_cells, Hocc].
      unfold occupied. rewrite (Hdrop p Hfloat). intros [b Hb]. discriminate Hb.
Qed.

(** X6. [checkForFloating] is idempotent: a second run right after the
    first one finds every bubble linked to the ceiling, empties no cell and
    leaves the score as it is. *)
Theorem checkForFloating_idempotent (st : Game) :
  exists st' st'',
    checkForFloating st = Ok tt st' /\
    checkForFloating st' = Ok tt st'' /\
    (forall r c, cell (grid st'') r c = cell (grid st') r c) /\
    score st'' = score st' /\
    same_controls st' st''.
Proof.
  destruct (checkForFloating_spec st) as (st' & Hrun & _ & Hkeep & _ & Hsurv & _).
  destruct (checkForFloating_spec st') as (st'' & Hrun' & Hctl' & Hkeep' & Hdrop' & _ & Hscore').
  exists st', st''. split; [exact Hrun|]. split; [exact Hrun'|].
  assert (Hanch : forall p, occupied (grid st') p -> reachable (grid st') p).
  { intros p Hocc. apply (reachable_kept (grid st) (grid st') Hkeep), Hsurv, Hocc. }
  assert (Hsame : forall r c, cell (grid st'') r c = cell (grid st') r c).
  { intros r c. destruct (cell (grid st') r c) as [b|] eqn:E.
    - rewrite <- E. apply (Hkeep' (r, c)). apply Hanch. exists b. exact E.
    - apply (Hdrop' (r, c)). intros Hreach.
      destruct (reachable_occupied _ _ Hreach) as [b Hb]. cbn [fst snd] in Hb.
      rewrite E in Hb. discriminate Hb. }
  split; [exact Hsame|]. split; [|exact Hctl'].
  rewrite Hscore'. unfold removed_cells. rewrite filter_none; [cbn [length]; lia|].
  intros p _ [Hocc Hgone]. apply Hgone. unfold occupied. rewrite Hsame. exact Hocc.
Qed.

(** ** What [collectCluster] returns *)

Lemma linked_from_unmatchable (g : Grid) (color : string) (seed p : Cell) :
  ~ matchable g color seed -> linked g color seed p -> p = seed.
Proof.
  intros Hseed. induction 1 as [|p n Hp IH Hm Hn]; [reflexivity|].
  subst p. destruct (Hseed Hm).
Qed.

(** X7. On a grid whose bubbles record their position, [collectCluster]
    returns each bubble once, and returns exactly the bubbles of the asked
    colour that a chain of neighbouring bubbles of that colour links to the
    start cell; it returns nothing when the start cell is empty or holds
    another colour, and it changes no cell. *)
Theorem collectCluster_connected (g : Grid) (row col : Z) (color : string) :
  consistent g ->
  exists cluster g',
    collectCluster row col color g = Ok cluster g' /\
    NoDup cluster /\
    (forall b, b ∈ cluster <->
               cell g (GridBubble.row b) (GridBubble.col b) = Some b /\
               GridBubble.color b = color /\
               linked g color (row, col) (cell_of b)) /\
    (~ matchable g color (row, col) -> cluster = []) /\
    (forall r c, cell g' r c = cell g r c).
Proof.
  intros Hcons.
  destruct (collectCluster_cells g row col color Hcons)
    as (cluster & g' & Hrun & Hext & Hnd & Hat & Hcells).
  exists cluster, g'. split; [exact Hrun|].
  split; [exact (NoDup_fmap_1 _ _ Hnd)|].
  split; [|split].
  - intros b. split.
    + intros Hb. pose proof (Hat b Hb) as Hcell.
      assert (Hin : cell_of b ∈ cell_of <$> cluster).
      { apply list_elem_of_fmap. exists b. split; [reflexivity|exact Hb]. }
      apply Hcells in Hin as [(b' & Hb' & Hcol) Hlink].
      cbn [cell_of fst snd] in Hb'. rewrite Hcell in Hb'. injection Hb' as <-.
      split; [exact Hcell|]. split; [exact Hcol|exact Hlink].
    + intros (Hcell & Hcol & Hlink).
      assert (Hin : cell_of b ∈ cell_of <$> cluster).
      { apply Hcells. split; [|exact Hlink]. exists b. split; [exact Hcell|exact Hcol]. }
      apply list_elem_of_fmap in Hin as (b' & Heq & Hb').
      pose proof (Hat b' Hb') as Hcell'.
      assert (E : Some b' = Some b).
      { rewrite <- Hcell', <- Hcell.
        change (cell g (fst (cell_of b')) (snd (cell_of b'))
                = cell g (fst (cell_of b)) (snd (cell_of b))).
        rewrite Heq. reflexivity. }
      injection E as <-. exact Hb'.
  - intros Hseed. destruct cluster as [|b rest]; [reflexivity|].
    assert (Hin : cell_of b ∈ cell_of <$> b :: rest).
    { apply list_elem_of_fmap. exists b. split; [reflexivity|apply elem_of_cons; left; reflexivity]. }
    apply Hcells in Hin as [Hm Hlink].
    rewrite (linked_from_unmatchable _ _ _ _ Hseed Hlink) in Hm. destruct (Hseed Hm).
  - intros r c. apply extends_cell, Hext.
Qed.

Lemma collectCluster_connected_witness :
  exists cluster g',
    collectCluster 0 0 "#ff6b6b" cluster_grid = Ok cluster g' /\
    NoDup cluster /\
    (forall b, b ∈ cluster <->
               cell cluster_grid (GridBubble.row b) (GridBubble.col b) = Some b /\
               GridBubble.color b = "#ff6b6b"%string /\
               linked cluster_grid "#ff6b6b" (0, 0) (cell_of b)) /\
    (~ matchable cluster_grid "#ff6b6b" (0, 0) -> cluster = []) /\
    (forall r c, cell g' r c = cell cluster_grid r c).
Proof.
  exact (collectCluster_connected cluster_grid 0 0 "#ff6b6b" cluster_grid_consistent).
Defined.

(** ** The geometry of the neighbours *)

Lemma elem_of_neighbors_of (row col : Z) (n : Cell) :
  n ∈ neighbors_of row col <->
  (0 <= fst n /\ 0 <= snd n < COLUMNS) /\
  ((fst n = row /\ (snd n = col - 1 \/ snd n = col + 1)) \/
   ((fst n = row - 1 \/ fst n = row + 1) /\
    (snd n = col \/ snd n = if Z.even row then col - 1 else col + 1))).
Proof.
  rewrite neighbors_of_spec. unfold spec_neighbors, spec_offsets.
  rewrite list_elem_of_filter. destruct n as [nr nc]. cbn [fst snd].
  destruct (Z.even row); cbn [map fst snd];
    rewrite !elem_of_cons, elem_of_nil;
    (split; intros [Hrange Hn]; (split; [exact Hrange|]));
    [ destruct Hn as [E|[E|[E|[E|[E|[E|[]]]]]]]; injection E as -> ->; lia
    | assert (Hc : (nr = row - 1 /\ nc = col) \/ (nr = row - 1 /\ nc = col - 1) \/
                   (nr = row /\ nc = col - 1) \/ (nr = row /\ nc = col + 1) \/
                   (nr = row + 1 /\ nc = col) \/ (nr = row + 1 /\ nc = col - 1)) by lia;
      destruct Hc as [[-> ->]|[[-> ->]|[[-> ->]|[[-> ->]|[[-> ->]|[-> ->]]]]]];
      [ left | right; left | do 2 right; left | do 3 right; left | do 4 right; left
      | do 5 right; left ]; f_equal; lia
    | destruct Hn as [E|[E|[E|[E|[E|[E|[]]]]]]]; injection E as -> ->; lia
    | assert (Hc : (nr = row - 1 /\ nc = col) \/ (nr = row - 1 /\ nc = col + 1) \/
                   (nr = row /\ nc = col - 1) \/ (nr = row /\ nc = col + 1) \/
                   (nr = row + 1 /\ nc = col) \/ (nr = row + 1 /\ nc = col + 1)) by lia;
      destruct Hc as [[-> ->]|[[-> ->]|[[-> ->]|[[-> ->]|[[-> ->]|[-> ->]]]]]];
      [ left | right; left | do 2 right; left | do 3 right; left | do 4 right; left
      | do 5 right; left ]; f_equal; lia ].
Qed.

Lemma even_neighbour_row (row nr : Z) :
  nr = row - 1 \/ nr = row + 1 -> Z.even nr = negb (Z.even row).
Proof.
  intros [-> | ->].
  - rewrite Z.even_sub. destruct (Z.even row); reflexivity.
  - rewrite Z.even_add. destruct (Z.even row); reflexivity.
Qed.

(** X8. The adjacency of [getNeighbors] is symmetric: a cell that
    [getNeighbors] returns for a cell of the grid has that cell among its own
    neighbours. The flood fill and the search for floating bubbles therefore
    cross each link in both directions. *)
Theorem getNeighbors_symmetric (row col : Z) (n : Cell) (g : Grid) :
  0 <= row -> 0 <= col < COLUMNS ->
  exists ns g1,
    getNeighbors row col g = Ok ns g1 /\
    (n ∈ ns ->
     exists ns' g2,
       getNeighbors (fst n) (snd n) g1 = Ok ns' g2 /\ (row, col) ∈ ns').
Proof.
  intros Hrow Hcol.
  destruct (getNeighbors_spec row col g) as (g1 & Hrun & _).
  exists (neighbors_of row col), g1. split; [exact Hrun|]. intros Hn.
  destruct (getNeighbors_spec (fst n) (snd n) g1) as (g2 & Hrun' & _).
  exists (neighbors_of (fst n) (snd n)), g2. split; [exact Hrun'|].
  apply elem_of_neighbors_of in Hn as [Hrange Hn].
  apply elem_of_neighbors_of. cbn [fst snd]. split; [lia|].
  destruct Hn as [[Hr Hc]|[Hr Hc]].
  - left. lia.
  - right. rewrite (even_neighbour_row row (fst n) Hr).
    destruct (Z.even row); cbn [negb]; lia.
Qed.

Lemma getNeighbors_symmetric_witness :
  exists ns g1,
    getNeighbors 1 3 cluster_grid = Ok ns g1 /\
    ((0, 4) ∈ ns ->
     exists ns' g2, getNeighbors 0 4 g1 = Ok ns' g2 /\ (1, 3) ∈ ns').
Proof.
  apply (getNeighbors_symmetric 1 3 (0, 4) cluster_grid); unfold COLUMNS; lia.
Defined.

Lemma sqrt_1024 : sqrt (32 * 32) = 32%R.
Proof. apply sqrt_square. lra. Qed.

Lemma gridToPixel_x (W : R) (row col : Z) :
  fst (gridToPixel W row col)
  = (LEFT_OFFSET W + IZR col * 32 + 16 + (if Z.even row then 0 else 16))%R.
Proof.
  unfold gridToPixel. cbn [fst]. rewrite odd_js_even.
  unfold BUBBLE_DIAMETER, BUBBLE_RADIUS. destruct (Z.even row); cbn [negb]; lra.
Qed.

Lemma gridToPixel_y (W : R) (row col : Z) :
  snd (gridToPixel W row col) = (80 + IZR row * (sqrt 3 * 16) + 16)%R.
Proof.
  unfold gridToPixel. cbn [snd]. unfold TOP_MARGIN, VERTICAL_SPACING, BUBBLE_RADIUS. lra.
Qed.

(** X9. The table of [getNeighbors] agrees with the layout of
    [gridToPixel]. With the numbers of the script taken as real numbers, as
    everywhere in this file, the centre of every neighbour of a cell lies one
    bubble diameter from the centre of the cell: [sqrt 3 * sqrt 3] is 3
    there, which the doubles of the script give up to rounding only. *)
Theorem neighbors_one_diameter_apart (W : R) (row col : Z) (n : Cell) (g : Grid) :
  exists ns g',
    getNeighbors row col g = Ok ns g' /\
    (n ∈ ns ->
     distance (fst (gridToPixel W row col)) (snd (gridToPixel W row col))
              (fst (gridToPixel W (fst n) (snd n))) (snd (gridToPixel W (fst n) (snd n)))
     = BUBBLE_DIAMETER).
Proof.
  destruct (getNeighbors_spec row col g) as (g' & Hrun & _).
  exists (neighbors_of row col), g'. split; [exact Hrun|]. intros Hn.
  apply elem_of_neighbors_of in Hn as [_ Hn].
  unfold distance. rewrite !gridToPixel_x, !gridToPixel_y.
  unfold BUBBLE_DIAMETER, BUBBLE_RADIUS.
  replace (16 * 2)%R with 32%R by lra.
  etransitivity; [|exact sqrt_1024]. f_equal.
  pose proof (sqrt_sqrt 3 ltac:(lra)) as H3.
  destruct n as [nr nc]. cbn [fst snd] in *.
  destruct Hn as [[-> Hc]|[Hr Hc]].
  - destruct Hc as [-> | ->]; rewrite ?minus_IZR, ?plus_IZR; destruct (Z.even row); ring.
  - rewrite (even_neighbour_row row nr Hr).
    destruct Hr as [-> | ->]; rewrite ?minus_IZR, ?plus_IZR;
      destruct (Z.even row); cbn [negb]; destruct Hc as [-> | ->];
      rewrite ?minus_IZR, ?plus_IZR;
      (transitivity (256 + 256 * (sqrt 3 * sqrt 3))%R; [ring|rewrite H3; lra]).
Qed.

(** ** The shot *)

(** X10. A launch from a game that goes on, with no bubble in flight, a
    bubble in the shooter and the aim within its bounds, sends a bubble of
    the colour of the shooter from the place of the shooter, upwards; a
    second launch while that bubble is in flight changes nothing. With the
    numbers of the script taken as real numbers, the speed of the bubble is
    [LAUNCH_SPEED]: the squares of [sin] and [cos] add up to 1 there, which
    the doubles of the script give up to rounding only. *)
Theorem launchBubble_shoots_upwards (st : Game) (current : ShooterBubble.t) :
  gameOver st = false ->
  movingBubble st = None ->
  currentBubble st = Some current ->
  angle_ok (pointerAngle st) ->
  exists moving,
    movingBubble (launchBubble st) = Some moving /\
    MovingBubble.x moving = ShooterBubble.x current /\
    MovingBubble.y moving = ShooterBubble.y current /\
    MovingBubble.color moving = ShooterBubble.color current /\
    (MovingBubble.dx moving * MovingBubble.dx moving
     + MovingBubble.dy moving * MovingBubble.dy moving = LAUNCH_SPEED * LAUNCH_SPEED)%R /\
    (MovingBubble.dy moving < 0)%R /\
    launchBubble (launchBubble st) = launchBubble st.
Proof.
  intros Hover Hmov Hcur [Hlo Hhi].
  unfold launchBubble at 1 3 4. rewrite Hover, Hmov, Hcur.
  eexists. split; [reflexivity|]. cbn [MovingBubble.x MovingBubble.y MovingBubble.color
                                        MovingBubble.dx MovingBubble.dy].
  split; [reflexivity|]. split; [reflexivity|]. split; [reflexivity|].
  split; [|split].
  - pose proof (sin2_cos2 (pointerAngle st)) as Hsc. unfold Rsqr in Hsc.
    transitivity (LAUNCH_SPEED * LAUNCH_SPEED
                  * (sin (pointerAngle st) * sin (pointerAngle st)
                     + cos (pointerAngle st) * cos (pointerAngle st)))%R; [ring|].
    rewrite Hsc. ring.
  - assert (Hsin : (0 < sin (pointerAngle st))%R).
    { apply sin_gt_0; unfold POINTER_MIN, POINTER_MAX in *; pose proof PI_RGT_0; lra. }
    unfold LAUNCH_SPEED. lra.
  - unfold launchBubble. cbn [gameOver movingBubble set_currentBubble set_movingBubble].
    rewrite Hover. reflexivity.
Qed.

Lemma launchBubble_shoots_upwards_witness :
  exists moving,
    movingBubble (launchBubble cluster_state) = Some moving /\
    MovingBubble.x moving = ShooterBubble.x example_shooter /\
    MovingBubble.y moving = ShooterBubble.y example_shooter /\
    MovingBubble.color moving = ShooterBubble.color example_shooter /\
    (MovingBubble.dx moving * MovingBubble.dx moving
     + MovingBubble.dy moving * MovingBubble.dy moving = LAUNCH_SPEED * LAUNCH_SPEED)%R /\
    (MovingBubble.dy moving < 0)%R /\
    launchBubble (launchBubble cluster_state) = launchBubble cluster_state.
Proof.
  apply (launchBubble_shoots_upwards cluster_state example_shooter).
  - reflexivity.
  - reflexivity.
  - reflexivity.
  - exact pointer_bounds.
Defined.

(** X11. The move of the bubble in flight and its bounce, on a canvas at
    least one bubble wide: the bubble stays between the side walls, its
    speed is the same, its vertical speed and its colour are the same, and
    its horizontal speed changes sign exactly when the bubble has reached a
    wall. *)
Theorem moveBubble_stays_inside (W delta : R) (moving : MovingBubble.t) :
  (2 * BUBBLE_RADIUS <= W)%R ->
  (BUBBLE_RADIUS <= MovingBubble.x (moveBubble W delta moving) <= W - BUBBLE_RADIUS)%R /\
  MovingBubble.y (moveBubble W delta moving)
  = (MovingBubble.y moving + MovingBubble.dy moving * delta)%R /\
  MovingBubble.dy (moveBubble W delta moving) = MovingBubble.dy moving /\
  MovingBubble.color (moveBubble W delta moving) = MovingBubble.color moving /\
  MovingBubble.dx (moveBubble W delta moving)
  = (if decide (BUBBLE_RADIUS < MovingBubble.x moving + MovingBubble.dx moving * delta
                < W - BUBBLE_RADIUS)%R
     then MovingBubble.dx moving else - MovingBubble.dx moving)%R /\
  (MovingBubble.dx (moveBubble W delta moving) * MovingBubble.dx (moveBubble W delta moving)
   + MovingBubble.dy (moveBubble W delta moving) * MovingBubble.dy (moveBubble W delta moving)
   = MovingBubble.dx moving * MovingBubble.dx moving
     + MovingBubble.dy moving * MovingBubble.dy moving)%R.
Proof.
  intros HW. unfold moveBubble.
  set (x := (MovingBubble.x moving + MovingBubble.dx moving * delta)%R).
  pose proof (clamp_range x BUBBLE_RADIUS (W - BUBBLE_RADIUS) ltac:(lra)) as Hclamp.
  destruct (bool_decide (x <= BUBBLE_RADIUS)%R) eqn:E1;
    destruct (bool_decide (x >= W - BUBBLE_RADIUS)%R) eqn:E2;
    cbn [orb MovingBubble.x MovingBubble.y MovingBubble.dx MovingBubble.dy MovingBubble.color];
    try apply bool_decide_eq_true in E1; try apply bool_decide_eq_false in E1;
    try apply bool_decide_eq_true in E2; try apply bool_decide_eq_false in E2;
    destruct (decide (BUBBLE_RADIUS < x < W - BUBBLE_RADIUS)%R) as [Hin|Hout];
    (split; [lra|]); (split; [reflexivity|]); (split; [reflexivity|]);
    (split; [reflexivity|]); (split; [lra|ring]).
Qed.

Lemma moveBubble_stays_inside_witness :
  (BUBBLE_RADIUS
   <= MovingBubble.x (moveBubble 480 1 (MovingBubble.make 240 655 "#ff6b6b" 460 0))
   <= 480 - BUBBLE_RADIUS)%R.
Proof.
  apply (moveBubble_stays_inside 480 1 (MovingBubble.make 240 655 "#ff6b6b" 460 0)).
  unfold BUBBLE_RADIUS. lra.
Defined.

(** ** The landing *)

(** X12. [findClosestSlot] returns a cell within the columns, next to the
    cell of the point, and changes no cell; the cell it returns is empty,
    unless the cell of the point and all the cells around it hold a bubble:
    then it returns the cell of the point, whose bubble the landing
    overwrites. *)
Theorem findClosestSlot_free_unless_full (W x y : R) (g : Grid) :
  exists slot g',
    findClosestSlot W x y g = Ok slot g' /\
    (forall r c, cell g' r c = cell g r c) /\
    (0 <= fst slot /\ 0 <= snd slot < COLUMNS) /\
    (fst (pixelToGrid W x y) - 1 <= fst slot <= fst (pixelToGrid W x y) + 1 /\
     snd (pixelToGrid W x y) - 1 <= snd slot <= snd (pixelToGrid W x y) + 1) /\
    (occupied g slot ->
     slot = pixelToGrid W x y /\
     forall p, p ∈ slot_cells (pixelToGrid W x y) -> occupied g p).
Proof.
  destruct (findClosestSlot_result W x y g) as (slot & g' & Hrun & Hext & Hin & Hfree).
  exists slot, g'. split; [exact Hrun|].
  split; [intros r c; apply extends_cell, Hext|].
  split; [exact (slot_cells_range _ _ Hin)|].
  split; [apply elem_of_slot_cells in Hin; lia|].
  intros [b Hb]. destruct Hfree as [Hnone|[-> Hfull]].
  - rewrite Hnone in Hb. discriminate Hb.
  - split; [reflexivity|]. intros p Hp. specialize (Hfull p Hp). unfold occupied.
    destruct (cell g (fst p) (snd p)); [eexists; reflexivity|destruct (Hfull eq_refl)].
Qed.

(** X13. The landing of the bubble in flight, when the shooter has a next
    bubble: no bubble is in flight afterwards, the next bubble has moved to
    the shooter, at rest, and a new next bubble has been drawn for the grid
    as it is after the landing; each cell holds what it held, or nothing, or
    the bubble that landed; the score has not gone down; the game is over
    afterwards if it was, if the board is empty or if a bubble has reached
    the limit line, and the message of the cleared board wins over the other
    one. *)
Theorem snapMovingBubble_reloads (W H rnd : R) (moving : MovingBubble.t) (st : Game)
        (next : ShooterBubble.t) :
  nextBubble st = Some next ->
  exists st',
    snapMovingBubble W H rnd moving st = Ok tt st' /\
    movingBubble st' = None /\
    currentBubble st'
    = Some (ShooterBubble.make (W / 2) (SHOOTER_Y H) (ShooterBubble.color next) 0 0 false) /\
    nextBubble st' = Some (createShooterBubble W H rnd (grid st')) /\
    (forall r c,
        cell (grid st') r c = cell (grid st) r c \/
        cell (grid st') r c = None \/
        cell (grid st') r c = Some (makeGridBubble W r c (MovingBubble.color moving))) /\
    score st <= score st' /\
    gameOver st' = gameOver st || isBoardEmpty (grid st') || hasReachedLimit H (grid st') /\
    message st'
    = (if isBoardEmpty (grid st') then "모든 버블 제거!"
       else if hasReachedLimit H (grid st') then "버블이 바닥에 닿았습니다"
            else message st)%string.
Proof.
  intros Hnext.
  destruct (snapMovingBubble_spec W H rnd moving st next Hnext)
    as (slot & st' & Hrun & _ & Hmov & Hcur & Hnx & _ & Hscore & Hcells & Hover & Hmsg).
  exists st'. split; [exact Hrun|]. split; [exact Hmov|]. split; [exact Hcur|].
  split; [exact Hnx|]. split; [|split; [exact Hscore|split; [exact Hover|exact Hmsg]]].
  intros r c. destruct (Hcells r c) as [E|[E|[Hslot E]]].
  - left. exact E.
  - right. left. exact E.
  - right. right. rewrite E. subst slot. reflexivity.
Qed.

Lemma snapMovingBubble_reloads_witness :
  exists st',
    snapMovingBubble 480 720 0 (MovingBubble.make 240 90 "#ff6b6b" 0 (-460)) cluster_state
    = Ok tt st' /\
    movingBubble st' = None.
Proof.
  destruct (snapMovingBubble_reloads 480 720 0 (MovingBubble.make 240 90 "#ff6b6b" 0 (-460))
              cluster_state example_shooter eq_refl) as (st' & Hrun & Hmov & _).
  exists st'. split; [exact Hrun|exact Hmov].
Defined.

(** ** The colours in play *)

Lemma elem_of_grid_bubbles (g : Grid) (b : GridBubble.t) :
  b ∈ grid_bubbles g <-> exists row : Row, Some row ∈ g /\ Some b ∈ row.
Proof.
  unfold grid_bubbles. rewrite list_elem_of_In, in_flat_map. split.
  - intros ([row|] & Hrow & Hb); [|destruct Hb].
    apply list_elem_of_In in Hrow. apply list_elem_of_In, list_elem_of_omap in Hb.
    destruct Hb as (x & Hx & ->). exists row. split; [exact Hrow|exact Hx].
  - intros (row & Hrow & Hb). exists (Some row). split; [apply list_elem_of_In, Hrow|].
    apply list_elem_of_In, list_elem_of_omap. exists (Some b). split; [exact Hb|reflexivity].
Qed.

Lemma cell_grid_bubbles (g : Grid) (r c : Z) (b : GridBubble.t) :
  cell g r c = Some b -> b ∈ grid_bubbles g.
Proof.
  unfold cell, grid_row, row_col. intros Hb. apply elem_of_grid_bubbles.
  destruct ((c <? 0) || (c >=? COLUMNS)); [discriminate Hb|].
  destruct (r <? 0); [discriminate Hb|].
  destruct (g !! Z.to_nat r) as [[row|]|] eqn:Eg; try discriminate Hb.
  destruct (c <? 0); [discriminate Hb|].
  destruct (row !! Z.to_nat c) as [[b'|]|] eqn:Er; try discriminate Hb.
  injection Hb as ->. exists row.
  split; [exact (list_elem_of_lookup_2 _ _ _ Eg)|exact (list_elem_of_lookup_2 _ _ _ Er)].
Qed.

Lemma colorSet_fold (l : list GridBubble.t) :
  forall acc : list string,
    NoDup acc ->
    NoDup (fold_left (fun colorSet bubble =>
                        if decide (GridBubble.color bubble ∈ colorSet) then colorSet
                        else colorSet ++ [GridBubble.color bubble]) l acc) /\
    forall color,
      color ∈ fold_left (fun colorSet bubble =>
                           if decide (GridBubble.color bubble ∈ colorSet) then colorSet
                           else colorSet ++ [GridBubble.color bubble]) l acc
      <-> color ∈ acc \/ exists b, b ∈ l /\ GridBubble.color b = color.
Proof.
  induction l as [|b l IH]; intros acc Hnd; cbn [fold_left].
  - split; [exact Hnd|]. intros color. split; [intros Hc; left; exact Hc|].
    intros [Hc|(b & Hb & _)]; [exact Hc|]. apply elem_of_nil in Hb. destruct Hb.
  - destruct (decide (GridBubble.color b ∈ acc)) as [Hin|Hnin].
    + destruct (IH acc Hnd) as [Hnd' Hiff]. split; [exact Hnd'|].
      intros color. rewrite Hiff. split.
      * intros [Hc|(b' & Hb' & E)]; [left; exact Hc|].
        right. exists b'. split; [apply elem_of_cons; right; exact Hb'|exact E].
      * intros [Hc|(b' & Hb' & E)]; [left; exact Hc|].
        apply elem_of_cons in Hb' as [->|Hb'].
        -- left. rewrite <- E. exact Hin.
        -- right. exists b'. split; [exact Hb'|exact E].
    + assert (Hnd1 : NoDup (acc ++ [GridBubble.color b])).
      { apply NoDup_app. split; [exact Hnd|]. split; [|apply NoDup_singleton].
        intros x Hx Hx'. apply list_elem_of_singleton in Hx'. subst x. exact (Hnin Hx). }
      destruct (IH _ Hnd1) as [Hnd' Hiff]. split; [exact Hnd'|].
      intros color. rewrite Hiff, elem_of_app, list_elem_of_singleton. split.
      * intros [[Hc| ->]|(b' & Hb' & E)].
        -- left. exact Hc.
        -- right. exists b. split; [apply elem_of_cons; left; reflexivity|reflexivity].
        -- right. exists b'. split; [apply elem_of_cons; right; exact Hb'|exact E].
      * intros [Hc|(b' & Hb' & E)]; [left; left; exact Hc|].
        apply elem_of_cons in Hb' as [->|Hb'].
        -- left. right. symmetry. exact E.
        -- right. exists b'. split; [exact Hb'|exact E].
Qed.

(** X14. [getColorsInPlay] returns each colour once, and returns exactly
    the colours of the bubbles of the grid: the colour of every bubble that
    a lookup finds is there, and the result is empty exactly when
    [isBoardEmpty] holds. *)
Theorem getColorsInPlay_exact (g : Grid) :
  NoDup (getColorsInPlay g) /\
  (forall color, color ∈ getColorsInPlay g <->
                 exists b, b ∈ grid_bubbles g /\ GridBubble.color b = color) /\
  (forall r c b, cell g r c = Some b -> GridBubble.color b ∈ getColorsInPlay g) /\
  (getColorsInPlay g = [] <-> isBoardEmpty g = true).
Proof.
  destruct (colorSet_fold (grid_bubbles g) [] (NoDup_nil_2)) as [Hnd Hiff].
  fold (getColorsInPlay g) in Hnd, Hiff.
  assert (Hexact : forall color, color ∈ getColorsInPlay g <->
                     exists b, b ∈ grid_bubbles g /\ GridBubble.color b = color).
  { intros color. rewrite Hiff. split; [|intros Hb; right; exact Hb].
    intros [Hc|Hb]; [apply elem_of_nil in Hc; destruct Hc|exact Hb]. }
  split; [exact Hnd|]. split; [exact Hexact|]. split.
  - intros r c b Hb. apply Hexact. exists b. split; [exact (cell_grid_bubbles _ _ _ _ Hb)|reflexivity].
  - unfold isBoardEmpty. destruct (grid_bubbles g) as [|b l] eqn:E.
    + split; [reflexivity|]. intros _. unfold getColorsInPlay. rewrite E. reflexivity.
    + split; [|intros Hf; discriminate Hf]. intros Hnil.
      assert (Hin : GridBubble.color b ∈ getColorsInPlay g).
      { apply Hexact. exists b. split; [apply elem_of_cons; left; reflexivity|reflexivity]. }
      rewrite Hnil in Hin. apply elem_of_nil in Hin. destruct Hin.
Qed.

(** X15. The bubble that [createShooterBubble] makes lies at the shooter,
    at rest; for a value of [Math.random] in [0, 1) its colour is the colour
    of a bubble of the grid when the grid holds one, and a colour of the
    palette when the grid is empty: the player never gets a colour that no
    bubble of the board has. *)
Theorem createShooterBubble_color_in_play (W H rnd : R) (g : Grid) :
  (0 <= rnd < 1)%R ->
  ShooterBubble.x (createShooterBubble W H rnd g) = (W / 2)%R /\
  ShooterBubble.y (createShooterBubble W H rnd g) = SHOOTER_Y H /\
  ShooterBubble.active (createShooterBubble W H rnd g) = false /\
  (isBoardEmpty g = false ->
   exists b, b ∈ grid_bubbles g /\
             GridBubble.color b = ShooterBubble.color (createShooterBubble W H rnd g)) /\
  (isBoardEmpty g = true ->
   ShooterBubble.color (createShooterBubble W H rnd g) ∈ COLORS).
Proof.
  intros Hrnd. split; [reflexivity|]. split; [reflexivity|]. split; [reflexivity|].
  destruct (colorSet_fold (grid_bubbles g) [] (NoDup_nil_2)) as [_ Hiff].
  fold (getColorsInPlay g) in Hiff.
  unfold createShooterBubble. cbn [ShooterBubble.color].
  destruct (getColorsInPlay g) as [|c0 pool] eqn:E; split.
  - intros Hne. unfold isBoardEmpty in Hne.
    destruct (grid_bubbles g) as [|b l] eqn:Eb; [discriminate Hne|].
    assert (Hin : GridBubble.color b ∈ @nil string).
    { apply Hiff. right. exists b. split; [apply elem_of_cons; left; reflexivity|reflexivity]. }
    apply elem_of_nil in Hin. destruct Hin.
  - intros _. apply random_pick_in; [discriminate|exact Hrnd].
  - intros _.
    assert (Hin : random_pick (c0 :: pool) rnd ∈ c0 :: pool)
      by (apply random_pick_in; [discriminate|exact Hrnd]).
    apply Hiff in Hin as [Hin|Hb]; [apply elem_of_nil in Hin; destruct Hin|exact Hb].
  - intros Hempty. unfold isBoardEmpty in Hempty.
    destruct (grid_bubbles g) as [|b l] eqn:Eb; [|discriminate Hempty].
    unfold getColorsInPlay in E. rewrite Eb in E. discriminate E.
Qed.

Lemma createShooterBubble_color_in_play_witness :
  exists b, b ∈ grid_bubbles cluster_grid /\
            GridBubble.color b
            = ShooterBubble.color (createShooterBubble 480 720 (1 / 2) cluster_grid).
Proof.
  destruct (createShooterBubble_color_in_play 480 720 (1 / 2) cluster_grid ltac:(lra))
    as (_ & _ & _ & Hplay & _).
  apply Hplay. reflexivity.
Defined.

(** ** The layout leaves room for every bubble *)

Lemma IZR_diff_ge (a b k : Z) : k <= a - b -> (IZR k <= IZR a - IZR b)%R.
Proof. intros Hk. rewrite <- minus_IZR. apply IZR_le, Hk. Qed.

Lemma IZR_diff_le (a b k : Z) : a - b <= k -> (IZR a - IZR b <= IZR k)%R.
Proof. intros Hk. rewrite <- minus_IZR. apply IZR_le, Hk. Qed.

Lemma sq_ge (x k : R) : (0 <= k)%R -> (k <= x \/ x <= - k)%R -> (k * k <= x * x)%R.
Proof. intros Hk [Hx|Hx]; nra. Qed.

(** X16. With the numbers of the script taken as real numbers, the centres
    that [gridToPixel] gives to two different cells lie at least one bubble
    diameter from each other: bubbles in different cells do not overlap. In
    the doubles of the script the bound holds up to rounding only. *)
Theorem gridToPixel_no_overlap (W : R) (r1 c1 r2 c2 : Z) :
  (r1, c1) <> (r2, c2) ->
  (BUBBLE_DIAMETER
   <= distance (fst (gridToPixel W r1 c1)) (snd (gridToPixel W r1 c1))
               (fst (gridToPixel W r2 c2)) (snd (gridToPixel W r2 c2)))%R.
Proof.
  intros Hne. unfold distance. rewrite !gridToPixel_x, !gridToPixel_y.
  unfold BUBBLE_DIAMETER, BUBBLE_RADIUS. replace (16 * 2)%R with 32%R by lra.
  apply Rle_trans with (sqrt (32 * 32)); [rewrite sqrt_1024; lra|].
  apply sqrt_le_1_alt.
  pose proof (sqrt_sqrt 3 ltac:(lra)) as H3.
  assert (Hdy : forall a b : R,
             ((80 + a * (sqrt 3 * 16) + 16 - (80 + b * (sqrt 3 * 16) + 16))
              * (80 + a * (sqrt 3 * 16) + 16 - (80 + b * (sqrt 3 * 16) + 16))
              = 768 * ((a - b) * (a - b)))%R).
  { intros a b. transitivity (256 * (sqrt 3 * sqrt 3) * ((a - b) * (a - b)))%R; [ring|].
    rewrite H3. ring. }
  rewrite Hdy. clear Hdy H3.
  set (L := LEFT_OFFSET W).
  pose proof (Rle_0_sqr (IZR r1 - IZR r2)) as Hrow. unfold Rsqr in Hrow.
  destruct (Z.eq_dec r1 r2) as [Er|Hr].
  - assert (Hc : c1 <> c2) by congruence. rewrite Er.
    assert (Hcases : 1 <= c1 - c2 \/ c1 - c2 <= -1) by lia.
    destruct (Z.even r2); destruct Hcases as [Hd|Hd];
      [apply IZR_diff_ge in Hd|apply IZR_diff_le in Hd
      |apply IZR_diff_ge in Hd|apply IZR_diff_le in Hd];
      match goal with
      | |- (_ <= ?X * ?X + _)%R =>
          first [ pose proof (sq_ge X 32 ltac:(lra) ltac:(left; lra)) as Hsq
                | pose proof (sq_ge X 32 ltac:(lra) ltac:(right; lra)) as Hsq ]
      end; nra.
  - assert (Hcases : 2 <= r1 - r2 \/ r1 - r2 <= -2 \/ r1 = r2 - 1 \/ r1 = r2 + 1) by lia.
    destruct Hcases as [Hd|[Hd|Hd]].
    + apply IZR_diff_ge in Hd.
      pose proof (sq_ge (IZR r1 - IZR r2) 2 ltac:(lra) ltac:(left; lra)) as H4.
      match goal with
      | |- (_ <= ?X * ?X + _)%R => pose proof (Rle_0_sqr X) as Hsq; unfold Rsqr in Hsq
      end; lra.
    + apply IZR_diff_le in Hd.
      pose proof (sq_ge (IZR r1 - IZR r2) 2 ltac:(lra) ltac:(right; lra)) as H4.
      match goal with
      | |- (_ <= ?X * ?X + _)%R => pose proof (Rle_0_sqr X) as Hsq; unfold Rsqr in Hsq
      end; lra.
    + rewrite (even_neighbour_row r2 r1 Hd).
      assert (H1 : ((IZR r1 - IZR r2) * (IZR r1 - IZR r2) = 1)%R).
      { destruct Hd as [-> | ->]; rewrite ?minus_IZR, ?plus_IZR; ring. }
      rewrite H1. clear H1 Hrow.
      assert (Hcases : (0 <= c1 - c2 \/ c1 - c2 <= -1) /\ (1 <= c1 - c2 \/ c1 - c2 <= 0))
        by lia.
      destruct Hcases as [[Ha|Ha] [Hb|Hb]]; try lia;
        first [apply IZR_diff_ge in Ha|apply IZR_diff_le in Ha];
        first [apply IZR_diff_ge in Hb|apply IZR_diff_le in Hb];
        destruct (Z.even r2); cbn [negb];
        match goal with
        | |- (_ <= ?X * ?X + _)%R =>
            first [ pose proof (sq_ge X 16 ltac:(lra) ltac:(left; lra)) as Hsq
                  | pose proof (sq_ge X 16 ltac:(lra) ltac:(right; lra)) as Hsq ]
        end; lra.
Qed.

Lemma gridToPixel_no_overlap_witness :
  (BUBBLE_DIAMETER
   <= distance (fst (gridToPixel 480 0 0)) (snd (gridToPixel 480 0 0))
               (fst (gridToPixel 480 2 1)) (snd (gridToPixel 480 2 1)))%R.
Proof.
  apply (gridToPixel_no_overlap 480 0 0 2 1). intros E. discriminate E.
Defined.

(** ** No bubble ever floats *)

Lemma checkForFloating_anchored (st : Game) :
  exists st', checkForFloating st = Ok tt st' /\ same_controls st st' /\ anchored (grid st').
Proof.
  destruct (checkForFloating_spec st) as (st' & Hrun & Hctl & Hkeep & _ & Hsurv & _).
  exists st'. split; [exact Hrun|]. split; [exact Hctl|].
  intros p Hocc. apply (reachable_kept (grid st) (grid st') Hkeep), Hsurv, Hocc.
Qed.

Lemma snapMovingBubble_anchored (W H rnd : R) (moving : MovingBubble.t) (st : Game) :
  is_Some (nextBubble st) ->
  exists st', snapMovingBubble W H rnd moving st = Ok tt st' /\ anchored (grid st').
Proof.
  intros [next Hnext]. unfold snapMovingBubble.
  destruct (findClosestSlot_result W (MovingBubble.x moving) (MovingBubble.y moving) (grid st))
    as ([row col] & g1 & Hfind & Hext1 & Hin & _).
  pose proof (slot_cells_range _ _ Hin) as [Hrow Hcol]. cbn [fst snd] in Hrow, Hcol.
  rewrite (bind_Ok _ _ _ _ _ (on_grid_Ok _ st _ _ Hfind)). cbv beta iota.
  destruct (ensureRow_spec row g1) as (g2 & He & Hext2 & Hsome & _).
  rewrite (bind_Ok _ _ _ _ _ (on_grid_Ok _ (set_grid g1 st) _ _ He)).
  destruct (grid_set_spec g2 row col
              (Some (makeGridBubble W row col (MovingBubble.color moving)))
              (Hsome Hrow) Hcol) as (g3 & Hset & _ & Hrows3 & _).
  rewrite (bind_Ok _ _ _ _ _ (on_grid_Ok _ (set_grid g2 (set_grid g1 st)) _ _ Hset)).
  destruct (resolveMatches_total row col (set_grid g3 (set_grid g2 (set_grid g1 st))))
    as (st4 & Hres & Hc4 & _).
  { cbn [grid set_grid]. apply Hrows3. apply Hsome, Hrow. }
  rewrite (bind_Ok _ _ _ _ _ Hres).
  destruct (checkForFloating_anchored st4) as (st5 & Hfl & Hc5 & Hanch).
  rewrite (bind_Ok _ _ _ _ _ Hfl).
  destruct Hc4 as (_ & _ & Hn4 & _). destruct Hc5 as (_ & _ & Hn5 & _).
  cbn [nextBubble set_grid] in Hn4. rewrite Hn4 in Hn5. rewrite Hnext in Hn5.
  destruct (isBoardEmpty (grid st5)); [|destruct (hasReachedLimit H (grid st5))];
    cbn [nextBubble endGame]; rewrite Hn5;
    (eexists; split; [reflexivity|]);
    cbn [grid set_movingBubble set_nextBubble set_currentBubble endGame];
    exact Hanch.
Qed.

Lemma updateMovingBubble_anchored (W H delta rnd : R) (st : Game) :
  is_Some (nextBubble st) ->
  anchored (grid st) ->
  exists st', updateMovingBubble W H delta rnd st = Ok tt st' /\ anchored (grid st').
Proof.
  intros Hnext Hanch. unfold updateMovingBubble.
  destruct (movingBubble st) as [moving|]; [|exists st; split; [reflexivity|exact Hanch]].
  set (moved := moveBubble W delta moving).
  pose proof (snapMovingBubble_anchored W H rnd moved (set_movingBubble (Some moved) st) Hnext)
    as Hsnap.
  destruct (bool_decide (MovingBubble.y moved <= TOP_MARGIN + BUBBLE_RADIUS)%R);
    [exact Hsnap|].
  destruct (touches_grid _ _ _); [exact Hsnap|].
  destruct (bool_decide _); eexists; (split; [reflexivity|exact Hanch]).
Qed.

Lemma row_limit_even (row : Z) : row_limit row = if Z.even row then 14 else 13.
Proof. unfold row_limit, COLUMNS. rewrite odd_js_even. destruct (Z.even row); reflexivity. Qed.

Lemma full_rows_anchored (g : Grid) (n : Z) :
  (forall r c, 0 <= r < n -> 0 <= c < row_limit r -> occupied g (r, c)) ->
  forall r c, 0 <= r < n -> 0 <= c < row_limit r -> reachable g (r, c).
Proof.
  intros Hfull.
  assert (Hind : forall k : nat, forall c,
             Z.of_nat k < n -> 0 <= c < row_limit (Z.of_nat k) ->
             reachable g (Z.of_nat k, c)).
  { induction k as [|k IH]; intros c Hk Hc.
    - apply reachable_top. apply Hfull; [lia|exact Hc].
    - assert (Hocc : occupied g (Z.of_nat (S k), c)) by (apply Hfull; [lia|exact Hc]).
      rewrite row_limit_even in Hc.
      assert (Hpar : Z.even (Z.of_nat (S k)) = negb (Z.even (Z.of_nat k))).
      { apply even_neighbour_row. right. lia. }
      rewrite Hpar in Hc.
      destruct (Z.even (Z.of_nat k)) eqn:Ek; cbn [negb] in Hc.
      + apply (reachable_step g (Z.of_nat k, c) (Z.of_nat (S k), c)); [| |exact Hocc].
        * apply IH; [lia|]. rewrite row_limit_even, Ek. lia.
        * apply elem_of_neighbors_of. cbn [fst snd]. unfold COLUMNS. split; [lia|].
          right. split; [right; lia|left; reflexivity].
      + destruct (decide (c < 13)) as [Hlt|Hge].
        * apply (reachable_step g (Z.of_nat k, c) (Z.of_nat (S k), c)); [| |exact Hocc].
          -- apply IH; [lia|]. rewrite row_limit_even, Ek. lia.
          -- apply elem_of_neighbors_of. cbn [fst snd]. unfold COLUMNS. split; [lia|].
             right. split; [right; lia|left; reflexivity].
        * apply (reachable_step g (Z.of_nat k, c - 1) (Z.of_nat (S k), c)); [| |exact Hocc].
          -- apply IH; [lia|]. rewrite row_limit_even, Ek. lia.
          -- apply elem_of_neighbors_of. cbn [fst snd]. unfold COLUMNS. split; [lia|].
             right. split; [right; lia|right; rewrite Ek; lia]. }
  intros r c Hr Hc. rewrite <- (Z2Nat.id r) by lia. apply Hind; rewrite Z2Nat.id by lia.
  - lia.
  - exact Hc.
Qed.

Lemma init_anchored (W H : R) (rnd : nat -> R) (st0 st : Game) :
  init W H rnd st0 = Ok tt st -> anchored (grid st).
Proof.
  destruct (init_spec W H rnd st0) as (g & Hrun & _ & Hnone & Hfilled).
  rewrite Hrun. intros E. injection E as <-. cbn [grid].
  assert (Hfull : forall r c, 0 <= r < 8 -> 0 <= c < row_limit r -> occupied g (r, c)).
  { intros r c Hr Hc. destruct (Hfilled r c Hr Hc) as (k & _ & Ek).
    unfold occupied. cbn [fst snd]. rewrite Ek. eexists. reflexivity. }
  intros [r c] [b Hb]. cbn [fst snd] in Hb.
  destruct (decide (0 <= r < 8 /\ 0 <= c < row_limit r)) as [[Hr Hc]|Hn].
  - exact (full_rows_anchored g 8 Hfull r c Hr Hc).
  - rewrite (Hnone r c Hn) in Hb. discriminate Hb.
Qed.

Lemma step_anchored (W H : R) (e : Event) (st : Game) :
  is_Some (nextBubble st) ->
  anchored (grid st) ->
  exists st', step W H e st = Ok tt st' /\ anchored (grid st').
Proof.
  intros Hnext Hanch.
  destruct e as [ts rnd|key rep rnd|key|x y| |x y|x y]; cbn [step].
  - unfold loop. destruct (gameOver st); [exists st; split; [reflexivity|exact Hanch]|].
    unfold update.
    set (delta := ((ts - lastTime st) / 1000)%R).
    pose proof (handlePointer_frame delta (set_lastTime ts st)) as (Hn & Hg & _).
    apply updateMovingBubble_anchored.
    + rewrite Hn. exact Hnext.
    + rewrite Hg. exact Hanch.
  - unfold handleKeyDown. destruct rep; [exists st; split; [reflexivity|exact Hanch]|].
    set (st1 := if String.eqb key "ArrowLeft" || String.eqb key "ArrowRight"
                then set_keys ({[key]} ∪ keys st) st else st).
    assert (H1 : grid st1 = grid st) by (unfold st1; destruct (_ || _); reflexivity).
    set (st2 := if String.eqb key " " || String.eqb key "Spacebar"
                then launchBubble st1 else st1).
    assert (H2 : grid st2 = grid st).
    { unfold st2. pose proof (launchBubble_frame st1) as (_ & Hg & _).
      destruct (String.eqb key " " || String.eqb key "Spacebar"); [rewrite Hg|]; exact H1. }
    destruct (String.eqb key "Enter" && gameOver st2).
    + destruct (init_spec W H rnd st2) as (g & Hrun & _).
      eexists. split; [exact Hrun|]. exact (init_anchored W H rnd st2 _ Hrun).
    + exists st2. split; [reflexivity|]. rewrite H2. exact Hanch.
  - eexists. split; [reflexivity|]. unfold handleKeyUp.
    destruct (_ || _); exact Hanch.
  - eexists. split; [reflexivity|]. exact Hanch.
  - eexists. split; [reflexivity|]. unfold handlePointerDown.
    pose proof (launchBubble_frame st) as (_ & -> & _). exact Hanch.
  - eexists. split; [reflexivity|]. unfold handleTouchStart.
    pose proof (launchBubble_frame
                  (set_pointerAngle
                     (clamp (Math_atan2 (SHOOTER_Y H - y) (x - W / 2)) POINTER_MIN POINTER_MAX)
                     st)) as (_ & -> & _).
    exact Hanch.
  - eexists. split; [reflexivity|]. exact Hanch.
Qed.

(** X17. In a game, from its start on and after every event, every bubble
    of the grid is linked to the ceiling by a chain of neighbouring bubbles:
    no bubble floats, whatever the player does. *)
Theorem bubbles_always_anchored (W H : R) (rnd : nat -> R) (st0 : Game)
        (events : list Event) :
  exists st st',
    init W H rnd st0 = Ok tt st /\
    run W H events st = Ok tt st' /\
    forall p, occupied (grid st') p -> reachable (grid st') p.
Proof.
  destruct (init_spec W H rnd st0) as (g & Hinit & _).
  pose proof (init_anchored W H rnd st0 _ Hinit) as Hanch0.
  set (st := mkGame _ _ _ _ _ _ _ _ _ _) in Hinit, Hanch0.
  assert (Hnext0 : is_Some (nextBubble st)) by (subst st; cbn [nextBubble]; eexists; reflexivity).
  clearbody st.
  exists st. revert st Hnext0 Hanch0 Hinit.
  assert (Hrun : forall es s, is_Some (nextBubble s) -> anchored (grid s) ->
             exists s', run W H es s = Ok tt s' /\ anchored (grid s')).
  { induction es as [|e es IH]; intros s Hs Ha.
    - exists s. split; [reflexivity|exact Ha].
    - destruct (step_spec W H e s Hs) as (s1 & Hstep & Hn1 & _).
      destruct (step_anchored W H e s Hs Ha) as (s1' & Hstep' & Ha1).
      rewrite Hstep in Hstep'. injection Hstep' as <-.
      destruct (IH s1 Hn1 Ha1) as (s' & Hrest & Ha').
      exists s'. cbn [run]. rewrite (bind_Ok _ _ _ _ _ Hstep).
      split; [exact Hrest|exact Ha']. }
  intros st Hnext0 Hanch0 Hinit.
  destruct (Hrun events st Hnext0 Hanch0) as (s' & Hr & Ha).
  exists s'. split; [exact Hinit|]. split; [exact Hr|exact Ha].
Qed.

(** * The answer printer *)

(** ** [decompose] *)

Lemma table_get_CHO (i : Z) :
  0 <= i < 19 -> Printer.table_get Printer.CHO i = Some [0x1100 + i].
Proof.
  intros Hi. remember (Z.to_nat i) as n eqn:En.
  assert (E : i = Z.of_nat n) by lia. subst i. clear En.
  do 19 (destruct n as [|n]; [reflexivity|]). lia.
Qed.

Lemma table_get_JUNG (i : Z) :
  0 <= i < 21 -> Printer.table_get Printer.JUNG i = Some [0x1161 + i].
Proof.
  intros Hi. remember (Z.to_nat i) as n eqn:En.
  assert (E : i = Z.of_nat n) by lia. subst i. clear En.
  do 21 (destruct n as [|n]; [reflexivity|]). lia.
Qed.

Lemma table_get_JONG (i : Z) :
  0 <= i < 28 ->
  Printer.table_get Printer.JONG i = Some (if i =? 0 then [] else [0x11a7 + i]).
Proof.
  intros Hi. remember (Z.to_nat i) as n eqn:En.
  assert (E : i = Z.of_nat n) by lia. subst i. clear En.
  do 28 (destruct n as [|n]; [reflexivity|]). lia.
Qed.

Lemma decompose_parts (code : Z) :
  Printer.HANGUL_BASE <= code <= Printer.HANGUL_LAST ->
  exists cho jung jong,
    0 <= cho < 19 /\ 0 <= jung < 21 /\ 0 <= jong < 28 /\
    code = Printer.HANGUL_BASE + (cho * 21 + jung) * 28 + jong /\
    Printer.decompose code
    = [Some [0x1100 + cho]; Some [0x1161 + jung]]
      ++ (if jong =? 0 then [] else [Some [0x11a7 + jong]]).
Proof.
  unfold Printer.HANGUL_BASE, Printer.HANGUL_LAST. intros Hcode.
  unfold Printer.decompose, Printer.HANGUL_BASE, Printer.HANGUL_LAST.
  replace ((code >=? 44032) && (code <=? 55203)) with true
    by (symmetry; apply andb_true_intro; split; lia).
  set (s := code - 44032).
  assert (Hs : 0 <= s < 11172) by (unfold s; lia).
  rewrite !Z.rem_mod_nonneg by lia.
  exists (s / (21 * 28)), (s mod (21 * 28) / 28), (s mod 28).
  assert (Hcho : 0 <= s / (21 * 28) < 19) by (Z.to_euclidean_division_equations; lia).
  assert (Hjung : 0 <= s mod (21 * 28) / 28 < 21) by (Z.to_euclidean_division_equations; lia).
  assert (Hjong : 0 <= s mod 28 < 28) by (Z.to_euclidean_division_equations; lia).
  split; [exact Hcho|]. split; [exact Hjung|]. split; [exact Hjong|].
  split; [unfold s in *; Z.to_euclidean_division_equations; lia|].
  rewrite (table_get_CHO _ Hcho), (table_get_JUNG _ Hjung), (table_get_JONG _ Hjong).
  destruct (s mod 28 =? 0); reflexivity.
Qed.

(** X18. [decompose] of a Hangul syllable is the decomposition of the
    Unicode standard: the syllable of code [0xAC00 + (cho * 21 + jung) * 28
    + jong] gives the leading consonant [0x1100 + cho], the vowel
    [0x1161 + jung] and, unless [jong] is 0, the trailing consonant
    [0x11A7 + jong]; the three indices lie within the tables, so that no part
    is [undefined]. *)
Theorem decompose_syllable (code : Z) :
  Printer.HANGUL_BASE <= code <= Printer.HANGUL_LAST ->
  exists cho jung jong,
    0 <= cho < 19 /\ 0 <= jung < 21 /\ 0 <= jong < 28 /\
    code = 0xac00 + (cho * 21 + jung) * 28 + jong /\
    Printer.decompose code
    = [Some [0x1100 + cho]; Some [0x1161 + jung]]
      ++ (if jong =? 0 then [] else [Some [0x11a7 + jong]]).
Proof. exact (decompose_parts code). Qed.

Lemma decompose_syllable_witness :
  Printer.decompose 0xd55c = [Some [0x1112]; Some [0x1161]; Some [0x11ab]].
Proof.
  destruct (decompose_syllable 0xd55c) as (cho & jung & jong & Hc & Hj & Ht & Hcode & Hparts).
  - unfold Printer.HANGUL_BASE, Printer.HANGUL_LAST. lia.
  - assert (cho = 18 /\ jung = 0 /\ jong = 4) as (-> & -> & ->) by lia.
    exact Hparts.
Defined.

Lemma decompose_other (code : Z) :
  ~ (Printer.HANGUL_BASE <= code <= Printer.HANGUL_LAST) ->
  Printer.decompose code = [Some [code]].
Proof.
  unfold Printer.decompose. intros Hout.
  replace ((code >=? Printer.HANGUL_BASE) && (code <=? Printer.HANGUL_LAST)) with false;
    [reflexivity|].
  symmetry. apply andb_false_iff. lia.
Qed.

Lemma decompose_shape (c : Z) :
  (exists cho jung jong,
      0 <= cho < 19 /\ 0 <= jung < 21 /\ 0 <= jong < 28 /\
      c = Printer.HANGUL_BASE + (cho * 21 + jung) * 28 + jong /\
      Printer.decompose c
      = [Some [0x1100 + cho]; Some [0x1161 + jung]]
        ++ (if jong =? 0 then [] else [Some [0x11a7 + jong]])) \/
  Printer.decompose c = [Some [c]].
Proof.
  destruct (decide (Printer.HANGUL_BASE <= c <= Printer.HANGUL_LAST)) as [Hin|Hout].
  - left. exact (decompose_parts c Hin).
  - right. exact (decompose_other c Hout).
Qed.

Lemma decompose_nonempty (c : Z) : (0 < length (Printer.decompose c))%nat.
Proof.
  destruct (decompose_shape c) as [(cho & jung & jong & _ & _ & _ & _ & ->)| ->].
  - rewrite length_app. cbn [length]. lia.
  - cbn [length]. lia.
Qed.

(** X19. [decompose] loses nothing: two characters with the same parts are
    the same character; every part is a string of one code point, and there
    are one to three of them. *)
Theorem decompose_injective (code code' : Z) :
  (Printer.decompose code = Printer.decompose code' -> code = code') /\
  (1 <= length (Printer.decompose code) <= 3)%nat /\
  Forall (fun part => exists c, part = Some [c]) (Printer.decompose code).
Proof.
  split; [|split].
  - destruct (decompose_shape code) as [(cho & jung & jong & ? & ? & ? & Hc & ->)| ->];
      destruct (decompose_shape code')
        as [(cho' & jung' & jong' & ? & ? & ? & Hc' & ->)| ->].
    + destruct (jong =? 0) eqn:E; destruct (jong' =? 0) eqn:E';
        intros Heq; cbn [app] in Heq; try discriminate Heq;
        injection Heq as Heq1 Heq2; lia.
    + destruct (jong =? 0); intros Heq; discriminate Heq.
    + destruct (jong' =? 0); intros Heq; discriminate Heq.
    + intros Heq. injection Heq as ->. reflexivity.
  - destruct (decompose_shape code) as [(cho & jung & jong & _ & _ & _ & _ & ->)| ->].
    + destruct (jong =? 0); cbn [app length]; lia.
    + cbn [length]. lia.
  - destruct (decompose_shape code) as [(cho & jung & jong & _ & _ & _ & _ & ->)| ->].
    + destruct (jong =? 0); cbn [app]; repeat constructor; eexists; reflexivity.
    + repeat constructor. eexists. reflexivity.
Qed.

(** ** The units of an answer *)

Lemma makeUnits_lookup (answer : list Z) (i : nat) (unit : Printer.CharUnit) :
  Printer.makeUnits answer !! i = Some unit ->
  Printer.index unit = i /\
  Printer.jamo unit = Printer.decompose (Printer.char unit) /\
  answer !! i = Some (Printer.char unit).
Proof.
  unfold Printer.makeUnits. rewrite list_lookup_imap.
  destruct (answer !! i) as [c|]; cbn [fmap option_fmap option_map]; intros E;
    [|discriminate E].
  injection E as <-. cbn [Printer.index Printer.jamo Printer.char].
  split; [reflexivity|]. split; reflexivity.
Qed.

Lemma makeUnits_nonempty (answer : list Z) (i : nat) (unit : Printer.CharUnit) :
  Printer.makeUnits answer !! i = Some unit -> (0 < length (Printer.jamo unit))%nat.
Proof.
  intros Hu. apply makeUnits_lookup in Hu as (_ & -> & _). apply decompose_nonempty.
Qed.

Lemma stream_app (l1 l2 : list Printer.CharUnit) :
  Printer.stream (l1 ++ l2) = Printer.stream l1 ++ Printer.stream l2.
Proof. unfold Printer.stream. apply flat_map_app. Qed.

Lemma stream_take_S (units : list Printer.CharUnit) (k : nat) (unit : Printer.CharUnit) :
  units !! k = Some unit ->
  Printer.stream (take (S k) units)
  = Printer.stream (take k units) ++ Printer.unit_segments unit.
Proof.
  intros Hu. rewrite (take_S_r _ _ _ Hu), stream_app.
  unfold Printer.stream at 2. cbn [flat_map]. rewrite app_nil_r. reflexivity.
Qed.

Lemma unit_segments_index (unit : Printer.CharUnit) (s : Printer.Segment) :
  s ∈ Printer.unit_segments unit -> Printer.charIndex s = Printer.index unit.
Proof.
  unfold Printer.unit_segments. intros Hs.
  apply list_elem_of_In, in_map_iff in Hs as (part & <- & _). reflexivity.
Qed.

Lemma stream_take_index (answer : list Z) (k : nat) (s : Printer.Segment) :
  s ∈ Printer.stream (take k (Printer.makeUnits answer)) -> (Printer.charIndex s < k)%nat.
Proof.
  unfold Printer.stream. intros Hs.
  apply list_elem_of_In, in_flat_map in Hs as (unit & Hu & Hs).
  apply list_elem_of_In, elem_of_take in Hu as (i & Hu & Hi).
  apply list_elem_of_In, unit_segments_index in Hs. rewrite Hs.
  apply makeUnits_lookup in Hu as (-> & _). exact Hi.
Qed.

(** ** The loop that pops the segments of a character *)

Lemma pop_while_rev_all (idx : nat) (popped rest : list Printer.Segment) :
  (forall s, s ∈ popped -> Printer.charIndex s = idx) ->
  Printer.pop_while_rev idx (popped ++ rest) = Printer.pop_while_rev idx rest.
Proof.
  induction popped as [|s popped IH]; intros Hall; [reflexivity|].
  cbn [app Printer.pop_while_rev].
  rewrite (Hall s) by (apply elem_of_cons; left; reflexivity).
  rewrite Nat.eqb_refl. apply IH. intros s' Hs'. apply Hall, elem_of_cons. right. exact Hs'.
Qed.

Lemma pop_while_rev_none (idx : nat) (kept : list Printer.Segment) :
  (forall s, s ∈ kept -> Printer.charIndex s <> idx) ->
  Printer.pop_while_rev idx kept = kept.
Proof.
  destruct kept as [|s kept]; intros Hnone; [reflexivity|].
  cbn [Printer.pop_while_rev].
  destruct (Nat.eqb_spec (Printer.charIndex s) idx) as [E|_]; [|reflexivity].
  destruct (Hnone s); [apply elem_of_cons; left; reflexivity|exact E].
Qed.

Lemma pop_while_app (idx : nat) (kept popped : list Printer.Segment) :
  (forall s, s ∈ popped -> Printer.charIndex s = idx) ->
  (forall s, s ∈ kept -> Printer.charIndex s <> idx) ->
  Printer.pop_while idx (kept ++ popped) = kept.
Proof.
  intros Hall Hnone. unfold Printer.pop_while.
  rewrite reverse_app, pop_while_rev_all, pop_while_rev_none, reverse_involutive.
  - reflexivity.
  - intros s Hs. apply Hnone. rewrite elem_of_reverse in Hs. exact Hs.
  - intros s Hs. apply Hall. rewrite elem_of_reverse in Hs. exact Hs.
Qed.

(** ** The loop that pushes the rest of a character *)

Lemma push_jamo_app (target : Printer.CharUnit) (indices : list nat)
      (segments : list Printer.Segment) :
  Printer.push_jamo target indices segments
  = segments ++ map (fun i => Printer.mkSegment (Printer.jamo_at target i)
                                               (Printer.index target)) indices.
Proof.
  revert segments. induction indices as [|i indices IH]; intros segments.
  - cbn [Printer.push_jamo map]. rewrite app_nil_r. reflexivity.
  - cbn [Printer.push_jamo map]. rewrite IH, <- app_assoc. reflexivity.
Qed.

Lemma unit_segments_lookup (unit : Printer.CharUnit) (i : nat) :
  (i < length (Printer.jamo unit))%nat ->
  Printer.unit_segments unit !! i
  = Some (Printer.mkSegment (Printer.jamo_at unit i) (Printer.index unit)).
Proof.
  intros Hi. unfold Printer.unit_segments, Printer.jamo_at.
  change (map ?f ?l) with (f <$> l). rewrite list_lookup_fmap.
  destruct (lookup_lt_is_Some_2 (Printer.jamo unit) i Hi) as [part ->]. reflexivity.
Qed.

Lemma unit_segments_length (unit : Printer.CharUnit) :
  length (Printer.unit_segments unit) = length (Printer.jamo unit).
Proof. unfold Printer.unit_segments. apply length_map. Qed.

Lemma pushed_rest (target : Printer.CharUnit) (n j : nat) :
  (j + n = length (Printer.jamo target))%nat ->
  map (fun i => Printer.mkSegment (Printer.jamo_at target i) (Printer.index target))
      (seq j n)
  = drop j (Printer.unit_segments target).
Proof.
  revert j. induction n as [|n IH]; intros j Hj.
  - cbn [seq map]. rewrite drop_ge; [reflexivity|]. rewrite unit_segments_length. lia.
  - cbn [seq map]. rewrite IH by lia.
    rewrite (drop_S _ _ j (unit_segments_lookup target j ltac:(lia))). reflexivity.
Qed.

(** ** The invariant of the printer *)

Ltac printer_fields :=
  cbn [Printer.entries Printer.selectedIndex Printer.charUnits Printer.nextCharIndex
       Printer.nextJamoIndex Printer.renderedSegments Printer.questionText
       Printer.answerText Printer.updateAnswerDisplay].

Lemma wf_units (st : Printer.State) :
  Printer.wf st -> exists answer, Printer.charUnits st = Printer.makeUnits answer.
Proof.
  intros (Hsel & _). destruct (Printer.selectedIndex st).
  - destruct Hsel as (entry & _ & Hu). exists (Printer.answer entry). exact Hu.
  - exists []. exact Hsel.
Qed.

Lemma wf_next_nonempty (st : Printer.State) (i : nat) :
  Printer.wf st ->
  match Printer.charUnits st !! i with
  | Some unit => (0 < length (Printer.jamo unit))%nat
  | None => 0%nat = 0%nat
  end.
Proof.
  intros Hwf. destruct (wf_units st Hwf) as (answer & Hu).
  destruct (Printer.charUnits st !! i) as [unit|] eqn:E; [|reflexivity].
  rewrite Hu in E. exact (makeUnits_nonempty _ _ _ E).
Qed.

Lemma wf_start (data : list (option Printer.Entry)) : Printer.wf (Printer.start data).
Proof.
  unfold Printer.wf, Printer.start, Printer.current_segments. printer_fields.
  split; [reflexivity|]. split; [cbn [length]; lia|].
  rewrite lookup_nil. split; [reflexivity|]. split; reflexivity.
Qed.

Lemma wf_reset (index : nat) (st : Printer.State) :
  Printer.wf st -> Printer.wf (Printer.resetStateWithEntry index st).
Proof.
  intros Hwf. unfold Printer.resetStateWithEntry.
  destruct (Printer.entries st !! index) as [[entry|]|] eqn:E; try exact Hwf.
  unfold Printer.wf, Printer.current_segments. printer_fields.
  split; [exists entry; split; [exact E|reflexivity]|].
  split; [lia|].
  destruct (Printer.makeUnits (Printer.answer entry) !! 0%nat) as [unit|] eqn:Eu.
  - split; [exact (makeUnits_nonempty _ _ _ Eu)|]. split; reflexivity.
  - split; [reflexivity|]. split; reflexivity.
Qed.

Lemma wf_showQuestion (st : Printer.State) :
  Printer.wf st -> Printer.wf (Printer.showQuestion st).
Proof.
  intros Hwf. unfold Printer.showQuestion.
  destruct (Printer.selectedIndex st) as [i|] eqn:Es; [|exact Hwf].
  destruct Hwf as (Hsel & Hk & Hj & Hr & Ha). rewrite Es in Hsel.
  unfold Printer.wf, Printer.current_segments in *. printer_fields.
  split; [exact Hsel|]. split; [exact Hk|]. split; [exact Hj|]. split; [exact Hr|exact Ha].
Qed.

Lemma wf_state_eq (st1 st2 : Printer.State) :
  Printer.wf st1 -> Printer.wf st2 ->
  Printer.same_entry st1 st2 ->
  Printer.nextCharIndex st2 = Printer.nextCharIndex st1 ->
  Printer.nextJamoIndex st2 = Printer.nextJamoIndex st1 ->
  st2 = st1.
Proof.
  intros (_ & _ & _ & Hr1 & Ha1) (_ & _ & _ & Hr2 & Ha2) (He & Hs & Hu & Hq) Hk Hj.
  unfold Printer.current_segments in *.
  destruct st1, st2. cbn in *. subst. reflexivity.
Qed.

Lemma same_entry_refl (st : Printer.State) : Printer.same_entry st st.
Proof. repeat split. Qed.

Lemma same_entry_trans (st1 st2 st3 : Printer.State) :
  Printer.same_entry st1 st2 -> Printer.same_entry st2 st3 -> Printer.same_entry st1 st3.
Proof.
  intros (? & ? & ? & ?) (? & ? & ? & ?). repeat split; congruence.
Qed.

Lemma outputNextUnit_done (st : Printer.State) :
  Printer.nextCharIndex st = length (Printer.charUnits st) ->
  Printer.outputNextUnit st = Ok tt st.
Proof.
  intros Hk. unfold Printer.outputNextUnit.
  destruct (Printer.selectedIndex st); [|reflexivity].
  destruct (Printer.charUnits st) as [|u0 us] eqn:Eu; [reflexivity|].
  rewrite Hk, Nat.leb_refl. reflexivity.
Qed.

Lemma outputNextUnit_step (st : Printer.State) (current : Printer.CharUnit) :
  Printer.wf st ->
  Printer.charUnits st !! Printer.nextCharIndex st = Some current ->
  exists st',
    Printer.outputNextUnit st = Ok tt st' /\
    Printer.wf st' /\
    Printer.same_entry st st' /\
    Printer.renderedSegments st'
    = Printer.renderedSegments st
      ++ [Printer.mkSegment (Printer.jamo_at current (Printer.nextJamoIndex st))
                            (Printer.index current)] /\
    Printer.nextCharIndex st'
    = (if (S (Printer.nextJamoIndex st) <? length (Printer.jamo current))%nat
       then Printer.nextCharIndex st else S (Printer.nextCharIndex st)) /\
    Printer.nextJamoIndex st'
    = (if (S (Printer.nextJamoIndex st) <? length (Printer.jamo current))%nat
       then S (Printer.nextJamoIndex st) else 0%nat).
Proof.
  intros Hwf Hcur. pose proof (wf_next_nonempty st (S (Printer.nextCharIndex st)) Hwf) as Hnext.
  destruct Hwf as (Hsel & Hk & Hj & Hr & Ha).
  unfold Printer.current_segments in Hr. rewrite Hcur in Hj, Hr.
  pose proof (lookup_lt_Some _ _ _ Hcur) as Hlt.
  unfold Printer.outputNextUnit.
  assert (Hsel' := Hsel).
  destruct (Printer.selectedIndex st) as [i|] eqn:Es in Hsel' |- *;
    [|rewrite Hsel', lookup_nil in Hcur; discriminate Hcur].
  destruct (Printer.charUnits st) as [|u0 us] eqn:Eu;
    [rewrite lookup_nil in Hcur; discriminate Hcur|].
  rewrite <- Eu in *.
  destruct (Nat.leb_spec (length (Printer.charUnits st)) (Printer.nextCharIndex st)) as [Hge|_];
    [lia|].
  rewrite Hcur. cbv zeta. printer_fields.
  pose proof (unit_segments_lookup current (Printer.nextJamoIndex st) Hj) as Hseg.
  assert (Hpush :
            Printer.renderedSegments st
            ++ [Printer.mkSegment (Printer.jamo_at current (Printer.nextJamoIndex st))
                                  (Printer.index current)]
            = Printer.stream (take (Printer.nextCharIndex st) (Printer.charUnits st))
              ++ take (S (Printer.nextJamoIndex st)) (Printer.unit_segments current)).
  { rewrite Hr, (take_S_r _ _ _ Hseg), app_assoc. reflexivity. }
  destruct (Nat.leb_spec (length (Printer.jamo current)) (S (Printer.nextJamoIndex st)))
    as [Hfull|Hpart];
    [replace (S (Printer.nextJamoIndex st) <? length (Printer.jamo current))%nat with false
      by (symmetry; apply Nat.ltb_ge; lia)
    |replace (S (Printer.nextJamoIndex st) <? length (Printer.jamo current))%nat with true
      by (symmetry; apply Nat.ltb_lt; lia)];
    (eexists; split; [reflexivity|]); printer_fields;
    (split; [|split; [unfold Printer.same_entry; printer_fields; rewrite Es; repeat split
                     |split; [reflexivity|split; reflexivity]]]).
  - unfold Printer.wf, Printer.current_segments. printer_fields.
    split; [exact Hsel'|]. split; [lia|]. split; [|split; [|reflexivity]].
    + destruct (Printer.charUnits st !! S (Printer.nextCharIndex st)); [exact Hnext|reflexivity].
    + rewrite Hpush, (stream_take_S _ _ _ Hcur).
      rewrite (take_ge (Printer.unit_segments current))
        by (rewrite unit_segments_length; lia).
      destruct (Printer.charUnits st !! S (Printer.nextCharIndex st));
        cbn [take]; rewrite app_nil_r; reflexivity.
  - unfold Printer.wf, Printer.current_segments. printer_fields. rewrite Hcur.
    split; [exact Hsel'|]. split; [lia|]. split; [lia|]. split; [exact Hpush|reflexivity].
Qed.

Lemma outputNextUnit_total (st : Printer.State) :
  Printer.wf st ->
  exists st',
    Printer.outputNextUnit st = Ok tt st' /\ Printer.wf st' /\ Printer.same_entry st st'.
Proof.
  intros Hwf.
  destruct (Printer.charUnits st !! Printer.nextCharIndex st) as [current|] eqn:Hcur.
  - destruct (outputNextUnit_step st current Hwf Hcur) as (st' & Hrun & Hwf' & Hsame & _).
    exists st'. split; [exact Hrun|]. split; [exact Hwf'|exact Hsame].
  - exists st. split; [|split; [exact Hwf|apply same_entry_refl]].
    apply outputNextUnit_done. destruct Hwf as (_ & Hk & _).
    apply lookup_ge_None in Hcur. lia.
Qed.

Lemma elem_of_take_sub {A : Type} (n : nat) (l : list A) (x : A) : x ∈ take n l -> x ∈ l.
Proof. intros (i & Hx & _)%elem_of_take. exact (list_elem_of_lookup_2 _ _ _ Hx). Qed.

Lemma rewindOneCharacter_spec (st : Printer.State) :
  Printer.wf st ->
  exists st',
    Printer.rewindOneCharacter st = Ok tt st' /\
    Printer.wf st' /\
    Printer.same_entry st st' /\
    Printer.nextJamoIndex st' = 0%nat /\
    Printer.nextCharIndex st'
    = (if (0 <? Printer.nextJamoIndex st)%nat then Printer.nextCharIndex st
       else (Printer.nextCharIndex st - 1)%nat).
Proof.
  intros Hwf. destruct (wf_units st Hwf) as (answer & Hu).
  pose proof Hwf as (Hsel & Hk & Hj & Hr & Ha).
  unfold Printer.current_segments in Hr.
  assert (Hempty : Printer.charUnits st = [] ->
            exists st',
              Ok tt st = Ok tt st' /\ Printer.wf st' /\ Printer.same_entry st st' /\
              Printer.nextJamoIndex st' = 0%nat /\
              Printer.nextCharIndex st'
              = (if (0 <? Printer.nextJamoIndex st)%nat then Printer.nextCharIndex st
                 else (Printer.nextCharIndex st - 1)%nat)).
  { intros E. rewrite E in Hk, Hj. rewrite lookup_nil in Hj. cbn [length] in Hk.
    exists st. split; [reflexivity|]. split; [exact Hwf|]. split; [apply same_entry_refl|].
    split; [exact Hj|]. rewrite Hj. cbn [Nat.ltb Nat.leb]. lia. }
  unfold Printer.rewindOneCharacter.
  assert (Hsel' := Hsel).
  destruct (Printer.selectedIndex st) as [i|] eqn:Es in Hsel' |- *;
    [|apply Hempty; exact Hsel'].
  destruct (Printer.charUnits st) as [|u0 us] eqn:Eu in |- *; [apply Hempty; exact Eu|].
  rewrite <- Eu. clear Hempty.
  destruct (Nat.ltb_spec 0 (Printer.nextJamoIndex st)) as [Hpos|Hzero].
  - destruct (Printer.charUnits st !! Printer.nextCharIndex st) as [current|] eqn:Hcur;
      [|lia].
    assert (Hidx : Printer.index current = Printer.nextCharIndex st).
    { rewrite Hu in Hcur. apply makeUnits_lookup in Hcur as (E & _). exact E. }
    assert (Hpop : Printer.pop_while (Printer.index current) (Printer.renderedSegments st)
                   = Printer.stream (take (Printer.nextCharIndex st) (Printer.charUnits st))).
    { rewrite Hr. apply pop_while_app.
      - intros s Hs. apply unit_segments_index. exact (elem_of_take_sub _ _ _ Hs).
      - intros s Hs. rewrite Hu in Hs. apply stream_take_index in Hs. lia. }
    eexists. split; [reflexivity|]. printer_fields.
    split; [|split; [unfold Printer.same_entry; printer_fields; rewrite Es; repeat split
                    |split; reflexivity]].
    unfold Printer.wf, Printer.current_segments. printer_fields. rewrite Hcur.
    split; [exact Hsel'|]. split; [exact Hk|]. split; [lia|]. split; [|reflexivity].
    rewrite Hpop. cbn [take]. rewrite app_nil_r. reflexivity.
  - assert (Hj0 : Printer.nextJamoIndex st = 0%nat) by lia.
    destruct (Nat.eqb_spec (Printer.nextCharIndex st) 0) as [Hk0|Hkpos].
    + exists st. split; [reflexivity|]. split; [exact Hwf|]. split; [apply same_entry_refl|].
      split; [exact Hj0|]. lia.
    + destruct (Printer.charUnits st !! (Printer.nextCharIndex st - 1)%nat)
        as [previous|] eqn:Hprev; [|apply lookup_ge_None in Hprev; lia].
      assert (Hidx : Printer.index previous = (Printer.nextCharIndex st - 1)%nat).
      { rewrite Hu in Hprev. apply makeUnits_lookup in Hprev as (E & _). exact E. }
      assert (Hr' : Printer.renderedSegments st
                    = Printer.stream (take (Printer.nextCharIndex st - 1)
                                           (Printer.charUnits st))
                      ++ Printer.unit_segments previous).
      { rewrite Hr, Hj0, <- (stream_take_S _ _ _ Hprev).
        replace (S (Printer.nextCharIndex st - 1)) with (Printer.nextCharIndex st) by lia.
        destruct (Printer.charUnits st !! Printer.nextCharIndex st);
          cbn [take]; apply app_nil_r. }
      assert (Hpop : Printer.pop_while (Printer.index previous) (Printer.renderedSegments st)
                     = Printer.stream (take (Printer.nextCharIndex st - 1)
                                            (Printer.charUnits st))).
      { rewrite Hr'. apply pop_while_app.
        - intros s Hs. apply unit_segments_index. exact Hs.
        - intros s Hs. rewrite Hu in Hs. apply stream_take_index in Hs. lia. }
      eexists. split; [reflexivity|]. printer_fields.
      split; [|split; [unfold Printer.same_entry; printer_fields; rewrite Es; repeat split
                      |split; reflexivity]].
      unfold Printer.wf, Printer.current_segments. printer_fields. rewrite Hprev.
      split; [exact Hsel'|]. split; [lia|].
      split; [rewrite Hu in Hprev; exact (makeUnits_nonempty _ _ _ Hprev)|].
      split; [|reflexivity].
      rewrite Hpop. cbn [take]. rewrite app_nil_r. reflexivity.
Qed.

Lemma fastForwardOneCharacter_done (st : Printer.State) :
  Printer.nextCharIndex st = length (Printer.charUnits st) ->
  Printer.fastForwardOneCharacter st = Ok tt st.
Proof.
  intros Hk. unfold Printer.fastForwardOneCharacter.
  destruct (Printer.selectedIndex st); [|reflexivity].
  destruct (Printer.charUnits st) as [|u0 us] eqn:Eu; [reflexivity|].
  rewrite Hk, Nat.leb_refl. reflexivity.
Qed.

Lemma fastForwardOneCharacter_step (st : Printer.State) (target : Printer.CharUnit) :
  Printer.wf st ->
  Printer.charUnits st !! Printer.nextCharIndex st = Some target ->
  exists st',
    Printer.fastForwardOneCharacter st = Ok tt st' /\
    Printer.wf st' /\
    Printer.same_entry st st' /\
    Printer.nextCharIndex st' = S (Printer.nextCharIndex st) /\
    Printer.nextJamoIndex st' = 0%nat.
Proof.
  intros Hwf Hcur. pose proof (wf_next_nonempty st (S (Printer.nextCharIndex st)) Hwf) as Hnext.
  destruct Hwf as (Hsel & Hk & Hj & Hr & Ha).
  unfold Printer.current_segments in Hr. rewrite Hcur in Hj, Hr.
  pose proof (lookup_lt_Some _ _ _ Hcur) as Hlt.
  unfold Printer.fastForwardOneCharacter.
  assert (Hsel' := Hsel).
  destruct (Printer.selectedIndex st) as [i|] eqn:Es in Hsel' |- *;
    [|rewrite Hsel', lookup_nil in Hcur; discriminate Hcur].
  destruct (Printer.charUnits st) as [|u0 us] eqn:Eu;
    [rewrite lookup_nil in Hcur; discriminate Hcur|].
  rewrite <- Eu in *.
  destruct (Nat.leb_spec (length (Printer.charUnits st)) (Printer.nextCharIndex st)) as [Hge|_];
    [lia|].
  rewrite Hcur. cbv zeta.
  eexists. split; [reflexivity|]. printer_fields.
  split; [|split; [unfold Printer.same_entry; printer_fields; rewrite Es; repeat split
                  |split; reflexivity]].
  unfold Printer.wf, Printer.current_segments. printer_fields.
  split; [exact Hsel'|]. split; [lia|]. split; [|split; [|reflexivity]].
  - destruct (Printer.charUnits st !! S (Printer.nextCharIndex st)); [exact Hnext|reflexivity].
  - rewrite push_jamo_app, pushed_rest by lia.
    rewrite Hr, <- app_assoc, take_drop, (stream_take_S _ _ _ Hcur).
    destruct (Printer.charUnits st !! S (Printer.nextCharIndex st));
      cbn [take]; rewrite app_nil_r; reflexivity.
Qed.

Lemma fastForwardOneCharacter_total (st : Printer.State) :
  Printer.wf st ->
  exists st',
    Printer.fastForwardOneCharacter st = Ok tt st' /\ Printer.wf st' /\
    Printer.same_entry st st'.
Proof.
  intros Hwf.
  destruct (Printer.charUnits st !! Printer.nextCharIndex st) as [target|] eqn:Hcur.
  - destruct (fastForwardOneCharacter_step st target Hwf Hcur)
      as (st' & Hrun & Hwf' & Hsame & _).
    exists st'. split; [exact Hrun|]. split; [exact Hwf'|exact Hsame].
  - exists st. split; [|split; [exact Hwf|apply same_entry_refl]].
    apply fastForwardOneCharacter_done. destruct Hwf as (_ & Hk & _).
    apply lookup_ge_None in Hcur. lia.
Qed.

(** ** Sequences of key presses *)

Lemma presses_within (n : nat) :
  forall (st : Printer.State) (current : Printer.CharUnit),
    Printer.wf st ->
    Printer.charUnits st !! Printer.nextCharIndex st = Some current ->
    (Printer.nextJamoIndex st + n <= length (Printer.jamo current))%nat ->
    exists st',
      Printer.presses n st = Ok tt st' /\
      Printer.wf st' /\
      Printer.same_entry st st' /\
      Printer.nextCharIndex st'
      = (if (Printer.nextJamoIndex st + n <? length (Printer.jamo current))%nat
         then Printer.nextCharIndex st else S (Printer.nextCharIndex st)) /\
      Printer.nextJamoIndex st'
      = (if (Printer.nextJamoIndex st + n <? length (Printer.jamo current))%nat
         then (Printer.nextJamoIndex st + n)%nat else 0%nat).
Proof.
  induction n as [|n IH]; intros st current Hwf Hcur Hn.
  - exists st. split; [reflexivity|]. split; [exact Hwf|]. split; [apply same_entry_refl|].
    destruct Hwf as (_ & _ & Hj & _). rewrite Hcur in Hj.
    rewrite Nat.add_0_r. destruct (Nat.ltb_spec (Printer.nextJamoIndex st)
                                                (length (Printer.jamo current))); [|lia].
    split; reflexivity.
  - destruct (outputNextUnit_step st current Hwf Hcur)
      as (st1 & Hrun & Hwf1 & Hsame1 & _ & Hk1 & Hj1).
    cbn [Printer.presses]. rewrite (bind_Ok _ _ _ _ _ Hrun).
    destruct (Nat.ltb_spec (S (Printer.nextJamoIndex st)) (length (Printer.jamo current)))
      as [Hlt|Hge].
    + assert (Hcur1 : Printer.charUnits st1 !! Printer.nextCharIndex st1 = Some current).
      { destruct Hsame1 as (_ & _ & -> & _). rewrite Hk1. exact Hcur. }
      destruct (IH st1 current Hwf1 Hcur1 ltac:(lia))
        as (st' & Hrest & Hwf' & Hsame' & Hk' & Hj').
      exists st'. split; [exact Hrest|]. split; [exact Hwf'|].
      split; [exact (same_entry_trans _ _ _ Hsame1 Hsame')|].
      rewrite Hk', Hj', Hk1, Hj1.
      replace (S (Printer.nextJamoIndex st) + n)%nat
        with (Printer.nextJamoIndex st + S n)%nat by lia.
      split; reflexivity.
    + assert (n = 0%nat) by lia. subst n. cbn [Printer.presses].
      exists st1. split; [reflexivity|]. split; [exact Hwf1|]. split; [exact Hsame1|].
      rewrite Hk1, Hj1.
      destruct (Nat.ltb_spec (Printer.nextJamoIndex st + 1) (length (Printer.jamo current)));
        [lia|]. split; reflexivity.
Qed.

Lemma stream_cons (unit : Printer.CharUnit) (units : list Printer.CharUnit) :
  Printer.stream (unit :: units) = Printer.unit_segments unit ++ Printer.stream units.
Proof. reflexivity. Qed.

Lemma wf_rest (st : Printer.State) :
  Printer.wf st ->
  exists rest,
    Printer.stream (Printer.charUnits st) = Printer.renderedSegments st ++ rest /\
    (rest = [] <-> Printer.nextCharIndex st = length (Printer.charUnits st)).
Proof.
  intros (_ & Hk & Hj & Hr & _). unfold Printer.current_segments in Hr.
  destruct (Printer.charUnits st !! Printer.nextCharIndex st) as [current|] eqn:Hcur.
  - exists (drop (Printer.nextJamoIndex st) (Printer.unit_segments current)
            ++ Printer.stream (drop (S (Printer.nextCharIndex st)) (Printer.charUnits st))).
    split.
    + rewrite <- (take_drop_middle _ _ _ Hcur) at 1.
      rewrite stream_app, stream_cons, Hr, <- !app_assoc.
      f_equal. rewrite app_assoc, take_drop. reflexivity.
    + pose proof (lookup_lt_Some _ _ _ Hcur) as Hlt. split; [|lia].
      intros E. apply (f_equal length) in E.
      rewrite length_app, length_drop, unit_segments_length in E. cbn [length] in E. lia.
  - exists []. apply lookup_ge_None in Hcur. split; [|split; [lia|reflexivity]].
    rewrite Hr, !app_nil_r, take_ge by lia. reflexivity.
Qed.

Lemma presses_take (n : nat) :
  forall st : Printer.State,
    Printer.wf st ->
    exists st',
      Printer.presses n st = Ok tt st' /\
      Printer.wf st' /\
      Printer.same_entry st st' /\
      Printer.renderedSegments st'
      = take (length (Printer.renderedSegments st) + n)
             (Printer.stream (Printer.charUnits st)).
Proof.
  induction n as [|n IH]; intros st Hwf.
  - exists st. split; [reflexivity|]. split; [exact Hwf|]. split; [apply same_entry_refl|].
    destruct (wf_rest st Hwf) as (rest & -> & _).
    rewrite Nat.add_0_r, take_app_length. reflexivity.
  - cbn [Printer.presses].
    destruct (Printer.charUnits st !! Printer.nextCharIndex st) as [current|] eqn:Hcur.
    + destruct (outputNextUnit_step st current Hwf Hcur)
        as (st1 & Hrun & Hwf1 & Hsame1 & Hr1 & _).
      rewrite (bind_Ok _ _ _ _ _ Hrun).
      destruct (IH st1 Hwf1) as (st' & Hrest & Hwf' & Hsame' & Hr').
      exists st'. split; [exact Hrest|]. split; [exact Hwf'|].
      split; [exact (same_entry_trans _ _ _ Hsame1 Hsame')|].
      rewrite Hr', Hr1, length_app. cbn [length].
      destruct Hsame1 as (_ & _ & -> & _). f_equal. lia.
    + assert (Hk : Printer.nextCharIndex st = length (Printer.charUnits st)).
      { destruct Hwf as (_ & Hk & _). apply lookup_ge_None in Hcur. lia. }
      rewrite (bind_Ok _ _ _ _ _ (outputNextUnit_done st Hk)).
      destruct (IH st Hwf) as (st' & Hrest & Hwf' & Hsame' & Hr').
      exists st'. split; [exact Hrest|]. split; [exact Hwf'|]. split; [exact Hsame'|].
      rewrite Hr'. destruct (wf_rest st Hwf) as (rest & Hstream & Hiff).
      apply Hiff in Hk. subst rest. rewrite app_nil_r in Hstream. rewrite Hstream.
      rewrite !take_ge by lia. reflexivity.
Qed.

Lemma join_texts_app (l1 l2 : list Printer.Segment) :
  Printer.join_texts (l1 ++ l2) = Printer.join_texts l1 ++ Printer.join_texts l2.
Proof. unfold Printer.join_texts. rewrite map_app, concat_app. reflexivity. Qed.

Lemma join_texts_unit (unit : Printer.CharUnit) :
  Printer.join_texts (Printer.unit_segments unit)
  = concat (map (default []) (Printer.jamo unit)).
Proof.
  unfold Printer.join_texts, Printer.unit_segments. rewrite map_map. reflexivity.
Qed.

Lemma join_texts_stream (f : nat -> nat) (answer : list Z) :
  Printer.join_texts
    (Printer.stream
       (imap (fun position c => Printer.mkCharUnit c (Printer.decompose c) (f position))
             answer))
  = Printer.spelled answer.
Proof.
  revert f. induction answer as [|c answer IH]; intros f; [reflexivity|].
  rewrite imap_cons, stream_cons, join_texts_app, join_texts_unit.
  unfold Printer.spelled. cbn [map concat Printer.jamo]. f_equal.
  exact (IH (f ∘ S)).
Qed.

Lemma join_texts_makeUnits (answer : list Z) :
  Printer.join_texts (Printer.stream (Printer.makeUnits answer)) = Printer.spelled answer.
Proof. exact (join_texts_stream (fun position => position) answer). Qed.

(** ** Every key *)

Lemma handleLetter_wf (event : Printer.KeyEvent) (st : Printer.State) :
  Printer.wf st ->
  exists st',
    Printer.handleLetter event st = Ok tt st' /\ Printer.wf st' /\
    Printer.entries st' = Printer.entries st.
Proof.
  intros Hwf. unfold Printer.handleLetter.
  assert (Hskip : exists st', @ret Printer.State unit tt st = Ok tt st' /\ Printer.wf st' /\
                              Printer.entries st' = Printer.entries st).
  { exists st. split; [reflexivity|]. split; [exact Hwf|reflexivity]. }
  destruct (Printer.key event) as [|u [|u' rest]]; [exact Hskip| |exact Hskip].
  destruct (Printer.is_letter u); [|exact Hskip].
  destruct (outputNextUnit_total st Hwf) as (st' & Hrun & Hwf' & He & _).
  exists st'. split; [exact Hrun|]. split; [exact Hwf'|exact He].
Qed.

Lemma handleKeydown_wf (event : Printer.KeyEvent) (st : Printer.State) :
  Printer.wf st ->
  exists st',
    Printer.handleKeydown event st = Ok tt st' /\ Printer.wf st' /\
    Printer.entries st' = Printer.entries st.
Proof.
  intros Hwf. unfold Printer.handleKeydown.
  destruct (Printer.ctrlKey event && Printer.altKey event); [|apply handleLetter_wf, Hwf].
  destruct (Printer.digit_of_code (Printer.code event)) as [digit|].
  { eexists. split; [reflexivity|]. split; [apply wf_reset, Hwf|].
    unfold Printer.resetStateWithEntry.
    destruct (Printer.entries st !! digit) as [[entry|]|]; reflexivity. }
  destruct (String.eqb (Printer.code event) "Backquote").
  { eexists. split; [reflexivity|]. split; [apply wf_showQuestion, Hwf|].
    unfold Printer.showQuestion. destruct (Printer.selectedIndex st); reflexivity. }
  destruct (String.eqb (Printer.code event) "Minus").
  { destruct (rewindOneCharacter_spec st Hwf) as (st' & Hrun & Hwf' & (He & _) & _).
    exists st'. split; [exact Hrun|]. split; [exact Hwf'|exact He]. }
  destruct (String.eqb (Printer.code event) "Equal").
  { destruct (fastForwardOneCharacter_total st Hwf) as (st' & Hrun & Hwf' & (He & _)).
    exists st'. split; [exact Hrun|]. split; [exact Hwf'|exact He]. }
  apply handleLetter_wf, Hwf.
Qed.

Lemma run_wf (events : list Printer.KeyEvent) :
  forall st : Printer.State,
    Printer.wf st ->
    exists st',
      Printer.run events st = Ok tt st' /\ Printer.wf st' /\
      Printer.entries st' = Printer.entries st.
Proof.
  induction events as [|event events IH]; intros st Hwf.
  - exists st. split; [reflexivity|]. split; [exact Hwf|reflexivity].
  - destruct (handleKeydown_wf event st Hwf) as (st1 & Hrun & Hwf1 & He1).
    destruct (IH st1 Hwf1) as (st' & Hrest & Hwf' & He').
    exists st'. cbn [Printer.run]. rewrite (bind_Ok _ _ _ _ _ Hrun).
    split; [exact Hrest|]. split; [exact Hwf'|]. rewrite He', He1. reflexivity.
Qed.

Lemma reachable_wf (data : list (option Printer.Entry)) (events : list Printer.KeyEvent)
      (st : Printer.State) :
  Printer.run events (Printer.start data) = Ok tt st ->
  Printer.wf st /\ Printer.entries st = data.
Proof.
  intros Hrun. destruct (run_wf events (Printer.start data) (wf_start data))
    as (st' & Hrun' & Hwf & He).
  rewrite Hrun in Hrun'. injection Hrun' as <-. split; [exact Hwf|exact He].
Qed.

(** ** Properties of the printer *)

(** X20. The printer never throws, whatever keys are pressed, and the
    display always shows the segments output so far; with an entry selected
    they spell a beginning of its answer, each syllable replaced by its jamo,
    and with no entry selected the display is empty. *)
Theorem printer_shows_prefix (data : list (option Printer.Entry))
        (events : list Printer.KeyEvent) :
  exists st,
    Printer.run events (Printer.start data) = Ok tt st /\
    Printer.entries st = data /\
    Printer.answerText st = Printer.join_texts (Printer.renderedSegments st) /\
    match Printer.selectedIndex st with
    | None => Printer.answerText st = []
    | Some i =>
        exists entry rest,
          data !! i = Some (Some entry) /\
          Printer.spelled (Printer.answer entry) = Printer.answerText st ++ rest
    end.
Proof.
  destruct (run_wf events (Printer.start data) (wf_start data)) as (st & Hrun & Hwf & He).
  exists st. split; [exact Hrun|]. split; [exact He|].
  change (Printer.entries (Printer.start data)) with data in He.
  destruct (wf_rest st Hwf) as (rest & Hstream & _).
  destruct Hwf as (Hsel & _ & _ & Hr & Ha). split; [exact Ha|].
  destruct (Printer.selectedIndex st) as [i|].
  - destruct Hsel as (entry & Hentry & Hu).
    exists entry, (Printer.join_texts rest). split; [rewrite <- He; exact Hentry|].
    rewrite <- join_texts_makeUnits, <- Hu, Hstream, join_texts_app, Ha. reflexivity.
  - rewrite Ha, Hr. unfold Printer.current_segments. rewrite Hsel, lookup_nil, take_nil.
    reflexivity.
Qed.

(** X21. With an entry selected, [n] presses of a letter key show the first
    [n] jamo of its answer; once [n] reaches the number of jamo of the
    answer, the display shows the whole answer spelled in jamo, and further
    presses change nothing. *)
Theorem typing_spells_answer (data : list (option Printer.Entry))
        (events : list Printer.KeyEvent) (st : Printer.State) (index : nat)
        (entry : Printer.Entry) (n : nat) :
  Printer.run events (Printer.start data) = Ok tt st ->
  data !! index = Some (Some entry) ->
  exists st',
    Printer.presses n (Printer.resetStateWithEntry index st) = Ok tt st' /\
    Printer.answerText st'
    = Printer.join_texts
        (take n (Printer.stream (Printer.makeUnits (Printer.answer entry)))) /\
    ((length (Printer.stream (Printer.makeUnits (Printer.answer entry))) <= n)%nat ->
     Printer.answerText st' = Printer.spelled (Printer.answer entry) /\
     Printer.outputNextUnit st' = Ok tt st').
Proof.
  intros Hrun Hentry. destruct (reachable_wf data events st Hrun) as (Hwf & He).
  pose proof (wf_reset index st Hwf) as Hwf0.
  assert (Hst0 : Printer.charUnits (Printer.resetStateWithEntry index st)
                 = Printer.makeUnits (Printer.answer entry) /\
                 Printer.renderedSegments (Printer.resetStateWithEntry index st) = []).
  { unfold Printer.resetStateWithEntry. rewrite He, Hentry. split; reflexivity. }
  destruct Hst0 as (Hu0 & Hr0).
  destruct (presses_take n _ Hwf0) as (st' & Hpress & Hwf' & (_ & _ & Hu' & _) & Hr').
  rewrite Hu0, Hr0 in Hr'. cbn [length Nat.add] in Hr'.
  exists st'. split; [exact Hpress|].
  pose proof Hwf' as (_ & _ & _ & _ & Ha').
  split; [rewrite Ha', Hr'; reflexivity|].
  intros Hn. rewrite take_ge in Hr' by exact Hn. split.
  - rewrite Ha', Hr'. apply join_texts_makeUnits.
  - apply outputNextUnit_done. destruct (wf_rest st' Hwf') as (rest & Hstream & Hiff).
    apply Hiff. rewrite Hu', Hu0, Hr' in Hstream.
    apply (f_equal length) in Hstream. rewrite length_app in Hstream.
    destruct rest; [reflexivity|cbn [length] in Hstream; lia].
Qed.

Lemma typing_spells_answer_witness :
  exists st',
    Printer.presses 5 (Printer.resetStateWithEntry 0 Printer.example_state) = Ok tt st' /\
    Printer.answerText st' = [0x1112; 0x1161; 0x11ab; 0x1100; 0x1173].
Proof.
  destruct (typing_spells_answer Printer.example_data [Printer.select_first]
              Printer.example_state 0
              (Printer.mkEntry [] [0xd55c; 0xae00]) 5 eq_refl eq_refl)
    as (st' & Hpress & Htext & _).
  exists st'. split; [exact Hpress|]. rewrite Htext. reflexivity.
Defined.

(** X22. Ctrl+Alt+= is a shortcut for typing: in a state that the key
    events can reach, with a character left to output,
    [fastForwardOneCharacter] gives the state that pressing a letter key
    gives, pressed once for each jamo of the character that is still
    missing. *)
Theorem fastForward_is_presses (data : list (option Printer.Entry))
        (events : list Printer.KeyEvent) (st : Printer.State)
        (target : Printer.CharUnit) :
  Printer.run events (Printer.start data) = Ok tt st ->
  Printer.charUnits st !! Printer.nextCharIndex st = Some target ->
  Printer.fastForwardOneCharacter st
  = Printer.presses (length (Printer.jamo target) - Printer.nextJamoIndex st) st.
Proof.
  intros Hrun Hcur. destruct (reachable_wf data events st Hrun) as (Hwf & _).
  assert (Hj : (Printer.nextJamoIndex st < length (Printer.jamo target))%nat).
  { destruct Hwf as (_ & _ & Hj & _). rewrite Hcur in Hj. exact Hj. }
  destruct (fastForwardOneCharacter_step st target Hwf Hcur)
    as (st1 & Hff & Hwf1 & Hsame1 & Hk1 & Hj1).
  destruct (presses_within (length (Printer.jamo target) - Printer.nextJamoIndex st)
              st target Hwf Hcur ltac:(lia))
    as (st2 & Hpress & Hwf2 & Hsame2 & Hk2 & Hj2).
  replace (Printer.nextJamoIndex st
           + (length (Printer.jamo target) - Printer.nextJamoIndex st))%nat
    with (length (Printer.jamo target)) in Hk2, Hj2 by lia.
  rewrite Nat.ltb_irrefl in Hk2, Hj2.
  rewrite Hff, Hpress. f_equal.
  apply (wf_state_eq st2 st1 Hwf2 Hwf1).
  - destruct Hsame1 as (? & ? & ? & ?). destruct Hsame2 as (? & ? & ? & ?).
    repeat split; congruence.
  - congruence.
  - congruence.
Qed.

Lemma fastForward_is_presses_witness :
  Printer.fastForwardOneCharacter Printer.example_state
  = Printer.presses 3 Printer.example_state.
Proof.
  exact (fastForward_is_presses Printer.example_data [Printer.select_first]
           Printer.example_state
           (Printer.mkCharUnit 0xd55c (Printer.decompose 0xd55c) 0) eq_refl eq_refl).
Defined.

(** X23. Ctrl+Alt+- takes back the character being typed: from a state
    that the key events can reach, at the start of a character, one press or
    more, up to the number of jamo of the character, and then
    [rewindOneCharacter], give the state before the presses, with its
    display. *)
Theorem rewind_undoes_typing (data : list (option Printer.Entry))
        (events : list Printer.KeyEvent) (st : Printer.State)
        (current : Printer.CharUnit) (n : nat) :
  Printer.run events (Printer.start data) = Ok tt st ->
  Printer.charUnits st !! Printer.nextCharIndex st = Some current ->
  Printer.nextJamoIndex st = 0%nat ->
  (0 < n <= length (Printer.jamo current))%nat ->
  exists st',
    Printer.presses n st = Ok tt st' /\
    Printer.rewindOneCharacter st' = Ok tt st.
Proof.
  intros Hrun Hcur Hj0 Hn. destruct (reachable_wf data events st Hrun) as (Hwf & _).
  destruct (presses_within n st current Hwf Hcur ltac:(lia))
    as (st1 & Hpress & Hwf1 & Hsame1 & Hk1 & Hj1).
  destruct (rewindOneCharacter_spec st1 Hwf1) as (st2 & Hrew & Hwf2 & Hsame2 & Hj2 & Hk2).
  exists st1. split; [exact Hpress|]. rewrite Hrew. f_equal.
  apply (wf_state_eq st st2 Hwf Hwf2).
  - exact (same_entry_trans _ _ _ Hsame1 Hsame2).
  - rewrite Hk2, Hj1, Hk1, Hj0. cbn [Nat.add].
    destruct (Nat.ltb_spec n (length (Printer.jamo current))) as [Hlt|Hge].
    + destruct (Nat.ltb_spec 0 n); [reflexivity|lia].
    + cbn [Nat.ltb Nat.leb]. lia.
  - rewrite Hj2, Hj0. reflexivity.
Qed.

Lemma rewind_undoes_typing_witness :
  exists st',
    Printer.presses 2 Printer.example_state = Ok tt st' /\
    Printer.rewindOneCharacter st' = Ok tt Printer.example_state.
Proof.
  apply (rewind_undoes_typing Printer.example_data [Printer.select_first]
           Printer.example_state
           (Printer.mkCharUnit 0xd55c (Printer.decompose 0xd55c) 0) 2).
  - reflexivity.
  - reflexivity.
  - reflexivity.
  - vm_compute. lia.
Defined.

(** * The marble game *)

Lemma hypot_sqr (dx dy : R) :
  (Marbles.Math_hypot dx dy * Marbles.Math_hypot dx dy = dx * dx + dy * dy)%R.
Proof. unfold Marbles.Math_hypot. apply sqrt_sqrt. nra. Qed.

Lemma hypot_pos (dx dy : R) : (0 <= Marbles.Math_hypot dx dy)%R.
Proof. unfold Marbles.Math_hypot. apply sqrt_pos. Qed.

Lemma hypot_opp (dx dy : R) :
  Marbles.Math_hypot (- dx) (- dy) = Marbles.Math_hypot dx dy.
Proof. unfold Marbles.Math_hypot. f_equal. ring. Qed.

Lemma unit_normal (dx dy : R) :
  Marbles.Math_hypot dx dy <> 0%R ->
  (dx / Marbles.Math_hypot dx dy * (dx / Marbles.Math_hypot dx dy)
   + dy / Marbles.Math_hypot dx dy * (dy / Marbles.Math_hypot dx dy) = 1)%R.
Proof.
  intros Hd. pose proof (hypot_sqr dx dy) as Hsq.
  transitivity ((dx * dx + dy * dy)
                / (Marbles.Math_hypot dx dy * Marbles.Math_hypot dx dy))%R.
  - field. exact Hd.
  - rewrite Hsq. field. rewrite <- Hsq. nra.
Qed.

Ltac marble_fields :=
  cbn [fst snd Marbles.x Marbles.y Marbles.radius Marbles.color Marbles.controllable
       Marbles.vx Marbles.vy Marbles.active].

(** X24. The collision of two marbles is that of two equal masses without
    loss: [resolveCollision] keeps the middle of the two centres where it
    is, and keeps the sum of the velocities and the sum of the squares of
    the speeds; it changes neither a radius nor whether a marble is
    active. *)
Theorem resolveCollision_elastic (a b : Marbles.Marble) :
  (Marbles.x (fst (Marbles.resolveCollision a b))
   + Marbles.x (snd (Marbles.resolveCollision a b)) = Marbles.x a + Marbles.x b)%R /\
  (Marbles.y (fst (Marbles.resolveCollision a b))
   + Marbles.y (snd (Marbles.resolveCollision a b)) = Marbles.y a + Marbles.y b)%R /\
  (Marbles.vx (fst (Marbles.resolveCollision a b))
   + Marbles.vx (snd (Marbles.resolveCollision a b)) = Marbles.vx a + Marbles.vx b)%R /\
  (Marbles.vy (fst (Marbles.resolveCollision a b))
   + Marbles.vy (snd (Marbles.resolveCollision a b)) = Marbles.vy a + Marbles.vy b)%R /\
  (Marbles.vx (fst (Marbles.resolveCollision a b))
   * Marbles.vx (fst (Marbles.resolveCollision a b))
   + Marbles.vy (fst (Marbles.resolveCollision a b))
     * Marbles.vy (fst (Marbles.resolveCollision a b))
   + Marbles.vx (snd (Marbles.resolveCollision a b))
     * Marbles.vx (snd (Marbles.resolveCollision a b))
   + Marbles.vy (snd (Marbles.resolveCollision a b))
     * Marbles.vy (snd (Marbles.resolveCollision a b))
   = Marbles.vx a * Marbles.vx a + Marbles.vy a * Marbles.vy a
     + Marbles.vx b * Marbles.vx b + Marbles.vy b * Marbles.vy b)%R /\
  Marbles.radius (fst (Marbles.resolveCollision a b)) = Marbles.radius a /\
  Marbles.radius (snd (Marbles.resolveCollision a b)) = Marbles.radius b /\
  Marbles.active (fst (Marbles.resolveCollision a b)) = Marbles.active a /\
  Marbles.active (snd (Marbles.resolveCollision a b)) = Marbles.active b.
Proof.
  unfold Marbles.resolveCollision.
  set (dx := (Marbles.x b - Marbles.x a)%R). set (dy := (Marbles.y b - Marbles.y a)%R).
  set (d := Marbles.Math_hypot dx dy).
  destruct (decide (d = 0%R)) as [Hd0|Hd]; [marble_fields; repeat split; reflexivity|].
  destruct (decide (Marbles.radius a + Marbles.radius b - d > 0)%R) as [Hov|Hov];
    [|marble_fields; repeat split; reflexivity].
  pose proof (unit_normal dx dy Hd) as Hn. fold d in Hn.
  set (nx := (dx / d)%R) in *. set (ny := (dy / d)%R) in *.
  set (I := ((Marbles.vx b - Marbles.vx a) * nx + (Marbles.vy b - Marbles.vy a) * ny)%R).
  destruct (decide (I > 0)%R) as [HI|HI]; marble_fields;
    (split; [ring|]); (split; [ring|]); (split; [ring|]); (split; [ring|]);
    (split; [|repeat split; reflexivity]); [|reflexivity].
  transitivity (Marbles.vx a * Marbles.vx a + Marbles.vy a * Marbles.vy a
                + Marbles.vx b * Marbles.vx b + Marbles.vy b * Marbles.vy b
                + 2 * I * I * (nx * nx + ny * ny - 1))%R.
  - unfold I. ring.
  - rewrite Hn. ring.
Qed.

(** X25. With the numbers of the script taken as real numbers, two marbles
    that overlap, their centres apart, touch after [resolveCollision]: the
    distance of the centres is the sum of the radii (in the doubles of the
    script, up to rounding). And they do not move apart after it: the
    velocity of [b] relative to [a] does not point away from [a]. The
    velocities change only when the marbles were moving apart before the
    call. *)
Theorem resolveCollision_separates (a b : Marbles.Marble) :
  (0 < Marbles.distance a b < Marbles.radius a + Marbles.radius b)%R ->
  Marbles.distance (fst (Marbles.resolveCollision a b)) (snd (Marbles.resolveCollision a b))
  = (Marbles.radius a + Marbles.radius b)%R /\
  ((Marbles.vx (snd (Marbles.resolveCollision a b))
    - Marbles.vx (fst (Marbles.resolveCollision a b)))
   * (Marbles.x (snd (Marbles.resolveCollision a b))
      - Marbles.x (fst (Marbles.resolveCollision a b)))
   + (Marbles.vy (snd (Marbles.resolveCollision a b))
      - Marbles.vy (fst (Marbles.resolveCollision a b)))
     * (Marbles.y (snd (Marbles.resolveCollision a b))
        - Marbles.y (fst (Marbles.resolveCollision a b))) <= 0)%R /\
  (((Marbles.vx b - Marbles.vx a) * (Marbles.x b - Marbles.x a)
    + (Marbles.vy b - Marbles.vy a) * (Marbles.y b - Marbles.y a) <= 0)%R ->
   Marbles.vx (fst (Marbles.resolveCollision a b)) = Marbles.vx a /\
   Marbles.vy (fst (Marbles.resolveCollision a b)) = Marbles.vy a /\
   Marbles.vx (snd (Marbles.resolveCollision a b)) = Marbles.vx b /\
   Marbles.vy (snd (Marbles.resolveCollision a b)) = Marbles.vy b).
Proof.
  unfold Marbles.distance at 1 2. intros Hdist.
  replace (Marbles.Math_hypot (Marbles.x a - Marbles.x b) (Marbles.y a - Marbles.y b))
    with (Marbles.Math_hypot (Marbles.x b - Marbles.x a) (Marbles.y b - Marbles.y a))
    in Hdist
    by (rewrite <- hypot_opp; f_equal; ring).
  unfold Marbles.resolveCollision.
  set (dx := (Marbles.x b - Marbles.x a)%R) in *.
  set (dy := (Marbles.y b - Marbles.y a)%R) in *.
  set (d := Marbles.Math_hypot dx dy) in *.
  set (s := (Marbles.radius a + Marbles.radius b)%R) in *.
  destruct (decide (d = 0%R)) as [Hd0|Hd]; [lra|].
  destruct (decide (s - d > 0)%R) as [Hov|Hov]; [|lra].
  pose proof (unit_normal dx dy Hd) as Hn. fold d in Hn.
  pose proof (hypot_sqr dx dy) as Hdd. fold d in Hdd.
  set (I := ((Marbles.vx b - Marbles.vx a) * (dx / d)
             + (Marbles.vy b - Marbles.vy a) * (dy / d))%R).
  assert (Htouch : forall ax ay bx by' : R,
             (ax - bx = - dx * (s / d))%R -> (ay - by' = - dy * (s / d))%R ->
             Marbles.Math_hypot (ax - bx) (ay - by') = s).
  { intros ax ay bx by' -> ->. unfold Marbles.Math_hypot. apply sqrt_lem_1.
    - nra.
    - lra.
    - transitivity ((dx * dx + dy * dy) * (s / d * (s / d)))%R; [|ring].
      rewrite <- Hdd. field. exact Hd. }
  assert (HI : (I * d = (Marbles.vx b - Marbles.vx a) * dx
                        + (Marbles.vy b - Marbles.vy a) * dy)%R).
  { unfold I. field. exact Hd. }
  destruct (decide (I > 0)%R) as [Hpos|Hneg]; unfold Marbles.distance; marble_fields.
  - split; [apply Htouch; unfold dx, dy, s; field; exact Hd|]. split.
    + transitivity (s * (I - 2 * I * (dx / d * (dx / d) + dy / d * (dy / d))))%R.
      * right. unfold I, dx, dy, s. field. exact Hd.
      * rewrite Hn. nra.
    + intros Hle. rewrite <- HI in Hle. nra.
  - split; [apply Htouch; unfold dx, dy, s; field; exact Hd|]. split.
    + transitivity (s * I)%R.
      * right. unfold I, dx, dy, s. field. exact Hd.
      * nra.
    + intros _. repeat split; reflexivity.
Qed.

Lemma hypot_3_4 : Marbles.Math_hypot 3 4 = 5%R.
Proof.
  unfold Marbles.Math_hypot. replace (3 * 3 + 4 * 4)%R with (5 * 5)%R by lra.
  apply sqrt_square. lra.
Qed.

Lemma resolveCollision_separates_witness :
  Marbles.distance
    (fst (Marbles.resolveCollision
            (Marbles.mkMarble 3 4 16 "#2563eb" true 0 0 true)
            (Marbles.mkMarble 0 0 14 "#38bdf8" false 0 0 true)))
    (snd (Marbles.resolveCollision
            (Marbles.mkMarble 3 4 16 "#2563eb" true 0 0 true)
            (Marbles.mkMarble 0 0 14 "#38bdf8" false 0 0 true)))
  = (16 + 14)%R.
Proof.
  apply (resolveCollision_separates (Marbles.mkMarble 3 4 16 "#2563eb" true 0 0 true)
           (Marbles.mkMarble 0 0 14 "#38bdf8" false 0 0 true)).
  unfold Marbles.distance. marble_fields.
  replace (3 - 0)%R with 3%R by lra. replace (4 - 0)%R with 4%R by lra.
  rewrite hypot_3_4. lra.
Defined.

Lemma moveAxis_spec (size r p v : R) :
  (2 * r <= size)%R ->
  (r <= fst (Marbles.moveAxis size r p v) <= size - r)%R /\
  (Rabs (snd (Marbles.moveAxis size r p v)) <= Rabs v)%R /\
  ((p + v - r < 0)%R -> (0 <= snd (Marbles.moveAxis size r p v))%R) /\
  ((p + v + r > size)%R -> (snd (Marbles.moveAxis size r p v) <= 0)%R).
Proof.
  intros Hsize. unfold Marbles.moveAxis, Marbles.FRICTION, Marbles.MIN_SPEED.
  destruct (decide (Rabs (v * (992 / 1000)) < 2 / 100)%R) as [Hslow|Hfast];
    destruct (decide (p + v - r < 0)%R) as [Hleft|Hleft];
    [| destruct (decide (p + v + r > size)%R) as [Hright|Hright]
     | | destruct (decide (p + v + r > size)%R) as [Hright|Hright]];
    cbn [fst snd]; unfold Rabs in *;
    repeat match goal with
           | |- context [Rcase_abs ?t] => destruct (Rcase_abs t)
           end;
    (split; [lra|]); (split; [lra|]); split; intros; lra.
Qed.

(** X26. The move of a marble in a frame, on a canvas that is at least as
    wide and as high as the marble: afterwards the marble lies within the
    walls, it is not faster than before in either direction, and at a wall
    its speed points back into the canvas. *)
Theorem moveMarble_inside (W H : R) (marble : Marbles.Marble) :
  Marbles.active marble = true ->
  (2 * Marbles.radius marble <= W)%R ->
  (2 * Marbles.radius marble <= H)%R ->
  (Marbles.radius marble <= Marbles.x (Marbles.moveMarble W H marble)
   <= W - Marbles.radius marble)%R /\
  (Marbles.radius marble <= Marbles.y (Marbles.moveMarble W H marble)
   <= H - Marbles.radius marble)%R /\
  (Rabs (Marbles.vx (Marbles.moveMarble W H marble)) <= Rabs (Marbles.vx marble))%R /\
  (Rabs (Marbles.vy (Marbles.moveMarble W H marble)) <= Rabs (Marbles.vy marble))%R /\
  ((Marbles.x marble + Marbles.vx marble - Marbles.radius marble < 0)%R ->
   (0 <= Marbles.vx (Marbles.moveMarble W H marble))%R) /\
  ((Marbles.x marble + Marbles.vx marble + Marbles.radius marble > W)%R ->
   (Marbles.vx (Marbles.moveMarble W H marble) <= 0)%R) /\
  Marbles.radius (Marbles.moveMarble W H marble) = Marbles.radius marble.
Proof.
  intros Hactive HW HH. unfold Marbles.moveMarble. rewrite Hactive.
  pose proof (moveAxis_spec W (Marbles.radius marble) (Marbles.x marble)
                            (Marbles.vx marble) HW) as (Hx & Hvx & Hleft & Hright).
  pose proof (moveAxis_spec H (Marbles.radius marble) (Marbles.y marble)
                            (Marbles.vy marble) HH) as (Hy & Hvy & _ & _).
  destruct (Marbles.moveAxis W _ _ _) as [x' vx'].
  destruct (Marbles.moveAxis H _ _ _) as [y' vy'].
  marble_fields. cbn [fst snd] in *.
  split; [exact Hx|]. split; [exact Hy|]. split; [exact Hvx|]. split; [exact Hvy|].
  split; [exact Hleft|]. split; [exact Hright|reflexivity].
Qed.

Lemma moveMarble_inside_witness :
  (16 <= Marbles.x (Marbles.moveMarble 480 640
                      (Marbles.mkMarble 20 300 16 "#2563eb" true (-10) 0 true))
   <= 480 - 16)%R.
Proof.
  apply (moveMarble_inside 480 640 (Marbles.mkMarble 20 300 16 "#2563eb" true (-10) 0 true)).
  - reflexivity.
  - cbn [Marbles.radius]. lra.
  - cbn [Marbles.radius]. lra.
Defined.

(** ** The bubble in flight only goes up *)

Lemma handlePointer_current (delta : R) (st : Game) :
  currentBubble (handlePointer delta st) = currentBubble st /\
  lastTime (handlePointer delta st) = lastTime st.
Proof. unfold handlePointer. repeat destruct (decide _); split; reflexivity. Qed.

Lemma launchBubble_rising (H : R) (st : Game) :
  rising H st -> rising H (launchBubble st) /\ lastTime (launchBubble st) = lastTime st.
Proof.
  intros Hr. pose proof Hr as (Hangle & Hcur & Hmov). unfold launchBubble.
  destruct (gameOver st); [split; [exact Hr|reflexivity]|].
  destruct (movingBubble st) as [moving|]; [split; [exact Hr|reflexivity]|].
  destruct (currentBubble st) as [current|] eqn:Ec; [|split; [exact Hr|reflexivity]].
  split; [|reflexivity].
  unfold rising. cbn [pointerAngle currentBubble movingBubble set_currentBubble
                      set_movingBubble].
  split; [exact Hangle|]. split.
  - intros c Hc. injection Hc as <-. cbn [ShooterBubble.y]. apply Hcur. reflexivity.
  - intros m Hm. injection Hm as <-. cbn [MovingBubble.dy MovingBubble.y]. split.
    + assert (Hsin : (0 < sin (pointerAngle st))%R).
      { destruct Hangle as [Hlo Hhi].
        apply sin_gt_0; unfold POINTER_MIN, POINTER_MAX in *; pose proof PI_RGT_0; lra. }
      unfold LAUNCH_SPEED. nra.
    + rewrite (Hcur current eq_refl). lra.
Qed.

Lemma set_pointerAngle_rising (H a : R) (st : Game) :
  angle_ok a -> rising H st -> rising H (set_pointerAngle a st).
Proof.
  intros Ha (_ & Hcur & Hmov). split; [exact Ha|]. split; [exact Hcur|exact Hmov].
Qed.

Lemma handlePointer_rising (H delta : R) (st : Game) :
  (0 <= delta)%R -> rising H st -> rising H (handlePointer delta st).
Proof.
  intros Hdelta Hr. pose proof Hr as (Hangle & Hcur & Hmov).
  pose proof (handlePointer_frame delta st) as (_ & _ & _ & Em).
  pose proof (handlePointer_current delta st) as (Ec & _).
  split; [exact (handlePointer_angle delta st Hdelta Hangle)|].
  rewrite Ec, Em. split; [exact Hcur|exact Hmov].
Qed.

Lemma moveBubble_dy (W delta : R) (moving : MovingBubble.t) :
  MovingBubble.dy (moveBubble W delta moving) = MovingBubble.dy moving.
Proof. unfold moveBubble. destruct (_ || _); reflexivity. Qed.

Lemma updateMovingBubble_rising (W H delta rnd : R) (st : Game) :
  is_Some (nextBubble st) ->
  (0 <= delta)%R ->
  rising H st ->
  exists st',
    updateMovingBubble W H delta rnd st = Ok tt st' /\
    rising H st' /\ lastTime st' = lastTime st.
Proof.
  intros [next Hnext] Hdelta Hr. pose proof Hr as (Hangle & Hcur & Hmov).
  unfold updateMovingBubble.
  destruct (movingBubble st) as [moving|] eqn:Em;
    [|exists st; split; [reflexivity|split; [exact Hr|reflexivity]]].
  destruct (Hmov moving eq_refl) as [Hdy Hy].
  set (moved := moveBubble W delta moving).
  assert (Hmoved : (MovingBubble.dy moved < 0)%R /\ (MovingBubble.y moved <= SHOOTER_Y H)%R).
  { unfold moved. rewrite moveBubble_dy, moveBubble_y. split; [exact Hdy|nra]. }
  assert (Hsnap : exists st',
             snapMovingBubble W H rnd moved (set_movingBubble (Some moved) st) = Ok tt st' /\
             rising H st' /\ lastTime st' = lastTime st).
  { destruct (snapMovingBubble_spec W H rnd moved (set_movingBubble (Some moved) st) next Hnext)
      as (slot & st' & Hrun & _ & Hm' & Hc' & _ & (Ha' & _ & Ht') & _).
    exists st'. split; [exact Hrun|]. split; [|exact Ht'].
    split; [rewrite Ha'; exact Hangle|]. split.
    - intros c Hc. rewrite Hc' in Hc. injection Hc as <-. reflexivity.
    - intros m Hm. rewrite Hm' in Hm. discriminate Hm. }
  assert (Hfly : rising H (set_movingBubble (Some moved) st)).
  { split; [exact Hangle|]. split; [exact Hcur|].
    intros m Hm. cbn [movingBubble set_movingBubble] in Hm. injection Hm as <-. exact Hmoved. }
  destruct (bool_decide (MovingBubble.y moved <= TOP_MARGIN + BUBBLE_RADIUS)%R);
    [exact Hsnap|].
  destruct (touches_grid _ _ _); [exact Hsnap|].
  destruct (bool_decide _); eexists; (split; [reflexivity|]);
    (split; [exact Hfly|reflexivity]).
Qed.

Lemma init_rising (W H : R) (rnd : nat -> R) (st0 st : Game) :
  init W H rnd st0 = Ok tt st ->
  rising H st /\ lastTime st = 0%R /\ is_Some (nextBubble st).
Proof.
  destruct (init_spec W H rnd st0) as (g & Hrun & _). rewrite Hrun.
  intros E. injection E as <-. split; [|split; [reflexivity|eexists; reflexivity]].
  split; [exact pointer_bounds|]. split.
  - intros c Hc. cbn [currentBubble] in Hc. injection Hc as <-. reflexivity.
  - intros m Hm. discriminate Hm.
Qed.

Lemma step_rising (W H t : R) (e : Event) (st : Game) :
  is_Some (nextBubble st) ->
  rising H st ->
  (0 <= t)%R ->
  (lastTime st <= t)%R ->
  match e with Frame timestamp _ => (t <= timestamp)%R | _ => True end ->
  exists st',
    step W H e st = Ok tt st' /\
    rising H st' /\
    (lastTime st' <= match e with Frame timestamp _ => timestamp | _ => t end)%R.
Proof.
  intros Hnext Hr Ht Hlast He. pose proof pointer_bounds as Hb.
  assert (Hmm : (POINTER_MIN <= POINTER_MAX)%R) by lra.
  destruct e as [ts rnd|key rep rnd|key|x y| |x y|x y]; cbn [step].
  - unfold loop. destruct (gameOver st);
      [exists st; split; [reflexivity|split; [exact Hr|lra]]|].
    unfold update.
    set (delta := ((ts - lastTime st) / 1000)%R).
    assert (Hdelta : (0 <= delta)%R) by (unfold delta; lra).
    pose proof (handlePointer_frame delta (set_lastTime ts st)) as (Hn & _).
    pose proof (handlePointer_current delta (set_lastTime ts st)) as (_ & Hlt).
    destruct (updateMovingBubble_rising W H delta rnd (handlePointer delta (set_lastTime ts st)))
      as (st' & Hrun & Hr' & Ht').
    + rewrite Hn. exact Hnext.
    + exact Hdelta.
    + apply handlePointer_rising; [exact Hdelta|]. exact Hr.
    + exists st'. split; [exact Hrun|]. split; [exact Hr'|].
      rewrite Ht', Hlt. cbn [lastTime set_lastTime]. lra.
  - unfold handleKeyDown. destruct rep;
      [exists st; split; [reflexivity|split; [exact Hr|exact Hlast]]|].
    set (st1 := if String.eqb key "ArrowLeft" || String.eqb key "ArrowRight"
                then set_keys ({[key]} ∪ keys st) st else st).
    assert (H1 : rising H st1 /\ lastTime st1 = lastTime st).
    { unfold st1. destruct (String.eqb key "ArrowLeft" || String.eqb key "ArrowRight");
        (split; [exact Hr|reflexivity]). }
    set (st2 := if String.eqb key " " || String.eqb key "Spacebar"
                then launchBubble st1 else st1).
    assert (H2 : rising H st2 /\ lastTime st2 = lastTime st).
    { unfold st2. destruct H1 as (Hr1 & Ht1).
      destruct (String.eqb key " " || String.eqb key "Spacebar");
        [|split; [exact Hr1|exact Ht1]].
      destruct (launchBubble_rising H st1 Hr1) as (Hr2 & Ht2).
      split; [exact Hr2|rewrite Ht2; exact Ht1]. }
    destruct H2 as (Hr2 & Ht2).
    destruct (String.eqb key "Enter" && gameOver st2).
    + destruct (init_spec W H rnd st2) as (g & Hrun & _).
      destruct (init_rising W H rnd st2 _ Hrun) as (Hr' & Ht' & _).
      eexists. split; [exact Hrun|]. split; [exact Hr'|]. rewrite Ht'. exact Ht.
    + exists st2. split; [reflexivity|]. split; [exact Hr2|]. rewrite Ht2. exact Hlast.
  - eexists. split; [reflexivity|]. unfold handleKeyUp.
    destruct (_ || _); (split; [exact Hr|exact Hlast]).
  - eexists. split; [reflexivity|]. split; [|exact Hlast].
    unfold handlePointerMove. apply set_pointerAngle_rising; [|exact Hr].
    apply clamp_range. exact Hmm.
  - eexists. split; [reflexivity|]. unfold handlePointerDown.
    destruct (launchBubble_rising H st Hr) as (Hr' & Ht').
    split; [exact Hr'|rewrite Ht'; exact Hlast].
  - eexists. split; [reflexivity|]. unfold handleTouchStart.
    destruct (launchBubble_rising H
                (set_pointerAngle
                   (clamp (Math_atan2 (SHOOTER_Y H - y) (x - W / 2)) POINTER_MIN POINTER_MAX)
                   st)) as (Hr' & Ht').
    { apply set_pointerAngle_rising; [|exact Hr]. apply clamp_range. exact Hmm. }
    split; [exact Hr'|rewrite Ht'; exact Hlast].
  - eexists. split; [reflexivity|]. split; [|exact Hlast].
    unfold handlePointerMove. apply set_pointerAngle_rising; [|exact Hr].
    apply clamp_range. exact Hmm.
Qed.

Lemma run_rising (W H : R) (events : list Event) :
  forall (t : R) (st : Game),
    is_Some (nextBubble st) ->
    rising H st ->
    (0 <= t)%R ->
    (lastTime st <= t)%R ->
    frames_from t events ->
    exists st', run W H events st = Ok tt st' /\ rising H st'.
Proof.
  induction events as [|e events IH]; intros t st Hnext Hr Ht Hlast Hframes.
  - exists st. split; [reflexivity|exact Hr].
  - assert (He : match e with Frame timestamp _ => (t <= timestamp)%R | _ => True end).
    { destruct e; try exact I. exact (proj1 Hframes). }
    destruct (step_spec W H e st Hnext) as (s1 & Hstep & Hn1 & _).
    destruct (step_rising W H t e st Hnext Hr Ht Hlast He) as (s1' & Hstep' & Hr1 & Ht1).
    rewrite Hstep in Hstep'. injection Hstep' as <-.
    destruct (IH (match e with Frame timestamp _ => timestamp | _ => t end) s1 Hn1 Hr1)
      as (st' & Hrest & Hr').
    + destruct e; try exact Ht. lra.
    + exact Ht1.
    + destruct e; try exact Hframes. exact (proj2 Hframes).
    + exists st'. cbn [run]. rewrite (bind_Ok _ _ _ _ _ Hstep).
      split; [exact Hrest|exact Hr'].
Qed.

(** X27. In a game whose frame times do not go back, from the start on and
    after every event, the bubble in flight goes up and is at or above the
    line of the shooter: no frame ever has a bubble below that line, and the
    test of [updateMovingBubble] for a bubble beyond the bottom of the canvas
    is never true. *)
Theorem projectile_never_below_shooter (W H : R) (rnd : nat -> R) (st0 : Game)
        (events : list Event) :
  frames_from 0 events ->
  exists st st',
    init W H rnd st0 = Ok tt st /\
    run W H events st = Ok tt st' /\
    forall moving,
      movingBubble st' = Some moving ->
      (MovingBubble.dy moving < 0)%R /\
      (MovingBubble.y moving <= SHOOTER_Y H)%R /\
      ~ (MovingBubble.y moving > H - BUBBLE_RADIUS)%R.
Proof.
  intros Hframes. destruct (init_spec W H rnd st0) as (g & Hinit & _).
  destruct (init_rising W H rnd st0 _ Hinit) as (Hr0 & Ht0 & Hn0).
  set (st := mkGame _ _ _ _ _ _ _ _ _ _) in *. clearbody st.
  destruct (run_rising W H events 0 st Hn0 Hr0 ltac:(lra) ltac:(lra) Hframes)
    as (st' & Hrun & (_ & _ & Hmov)).
  exists st, st'. split; [exact Hinit|]. split; [exact Hrun|].
  intros moving Hm. destruct (Hmov moving Hm) as [Hdy Hy].
  split; [exact Hdy|]. split; [exact Hy|].
  unfold SHOOTER_Y in Hy. unfold BUBBLE_RADIUS. lra.
Qed.

Lemma projectile_never_below_shooter_witness :
  exists st st',
    init 480 720 (fun _ => 0%R) cluster_state = Ok tt st /\
    run 480 720 [Click; Frame 16 0; Frame 32 0] st = Ok tt st' /\
    forall moving,
      movingBubble st' = Some moving ->
      (MovingBubble.dy moving < 0)%R /\
      (MovingBubble.y moving <= SHOOTER_Y 720)%R /\
      ~ (MovingBubble.y moving > 720 - BUBBLE_RADIUS)%R.
Proof.
  apply (projectile_never_below_shooter 480 720 (fun _ => 0%R) cluster_state
           [Click; Frame 16 0; Frame 32 0]).
  cbn [frames_from]. split; [lra|]. split; [lra|exact I].
Defined.
